(** * Terraform README generator: variable extraction, classification and
      usage rendering

    Shallow embedding of the Terraform generator of
    [.github/scripts/generate-readme-v2.js] (the four-category version with
    sorted usage blocks): [parseVariableBlock], [extractVariables], the
    classification step of [prepareContext] and the usage blocks built by
    [generateReadme].

    A JavaScript string is a sequence of UTF-16 code units; it is modelled as
    a list of code units ([N]).  Regular expressions of the source are values
    of a small syntax, run by a backtracking matcher that follows the
    priorities of the ECMAScript matcher for the constructs the source uses. *)

From Stdlib Require Import List NArith ZArith Bool Lia String Ascii.
From Stdlib Require Import Permutation Sorted.
Import ListNotations.

Set Implicit Arguments.

(* ================================================================= *)
(** ** JavaScript strings *)

Definition char := N.
Definition jsstring := list char.

(** Code units of an ASCII literal. *)
Definition js (s : string) : jsstring :=
  List.map N_of_ascii (list_ascii_of_string s).

Definition c_lbrace : char := 123%N.
Definition c_rbrace : char := 125%N.
Definition c_quote : char := 34%N.
Definition c_apos : char := 39%N.
Definition c_newline : char := 10%N.
Definition c_space : char := 32%N.
Definition c_underscore : char := 95%N.
Definition c_hyphen : char := 45%N.
Definition c_equals : char := 61%N.

(** HCL test inputs are written with apostrophes where the text has double
    quotes. *)
Definition hcl (s : string) : jsstring :=
  List.map (fun c => if N.eqb c c_apos then c_quote else c) (js s).

(** [content[i]]: [undefined] (here [None]) outside of the string. *)
Definition charAt (content : jsstring) (i : Z) : option char :=
  if (i <? 0)%Z then None else nth_error content (Z.to_nat i).

Definition is_char (c : char) (o : option char) : bool :=
  match o with
  | Some d => N.eqb d c
  | None => false
  end.

Definition length_z (s : jsstring) : Z := Z.of_nat (List.length s).

(** [s.substring(a, b)] for [0 <= a <= b]. *)
Definition substring (s : jsstring) (a b : nat) : jsstring :=
  firstn (b - a) (skipn a s).

(* ================================================================= *)
(** ** parseVariableBlock *)

Module BlockExtractor.

(** The three loop variables of [parseVariableBlock]. *)
Record scan : Type := mkScan {
  braceCount : Z;
  inBlock : bool;
  blockContent : jsstring
}.

(** One pass through the loop body; the second component tells whether the
    body ended in [break]. *)
Definition body (st : scan) (ch : option char) : scan * bool :=
  let bc1 := if is_char c_lbrace ch then (braceCount st + 1)%Z else braceCount st in
  let ib := if is_char c_lbrace ch then true else inBlock st in
  let bc2 := if is_char c_rbrace ch then (bc1 - 1)%Z else bc1 in
  let blk :=
    if ib then
      match ch with
      | Some c => blockContent st ++ [c]
      | None => blockContent st ++ js "undefined"
      end
    else blockContent st in
  (mkScan bc2 ib blk, ib && (bc2 =? 0)%Z).

(** [for (let i = startIndex; i < content.length; i++) { ... }]: [n] bounds
    the number of iterations that are left. *)
Fixpoint loop (n : nat) (content : jsstring) (i : Z) (st : scan) : jsstring :=
  match n with
  | O => blockContent st
  | S n' =>
      if (i <? length_z content)%Z then
        let '(st', brk) := body st (charAt content i) in
        if brk then blockContent st' else loop n' content (i + 1)%Z st'
      else blockContent st
  end.

Definition parseVariableBlock (content : jsstring) (startIndex : Z) : jsstring :=
  loop (Z.to_nat (length_z content - startIndex)) content startIndex
       (mkScan 0 false []).

(** The same scan, by recursion on the text that is left. *)
Fixpoint scanFrom (s : jsstring) (bc : Z) (ib : bool) : jsstring :=
  match s with
  | [] => []
  | c :: s' =>
      let bc1 := if N.eqb c c_lbrace then (bc + 1)%Z else bc in
      let ib' := if N.eqb c c_lbrace then true else ib in
      let bc2 := if N.eqb c c_rbrace then (bc1 - 1)%Z else bc1 in
      if ib' then
        if (bc2 =? 0)%Z then [c] else c :: scanFrom s' bc2 ib'
      else scanFrom s' bc2 ib'
  end.

(** What one code unit adds to the brace counter. *)
Definition delta (c : char) : Z :=
  ((if N.eqb c c_lbrace then 1 else 0) - (if N.eqb c c_rbrace then 1 else 0))%Z.

(** Brace depth of a text: opening minus closing braces. *)
Fixpoint depth (s : jsstring) : Z :=
  match s with
  | [] => 0
  | c :: s' => (delta c + depth s')%Z
  end.

(** Texts whose braces are properly nested. *)
Inductive Balanced : jsstring -> Prop :=
| Balanced_nil : Balanced []
| Balanced_other : forall c s,
    c <> c_lbrace -> c <> c_rbrace -> Balanced s -> Balanced (c :: s)
| Balanced_nest : forall s1 s2,
    Balanced s1 -> Balanced s2 ->
    Balanced (c_lbrace :: s1 ++ c_rbrace :: s2).

(** Executable check of [Balanced]: the depth never goes below zero and
    ends at zero. *)
Fixpoint balancedFrom (s : jsstring) (d : nat) : bool :=
  match s with
  | [] => Nat.eqb d 0
  | c :: s' =>
      if N.eqb c c_lbrace then balancedFrom s' (S d)
      else if N.eqb c c_rbrace then
        match d with
        | O => false
        | S d' => balancedFrom s' d'
        end
      else balancedFrom s' d
  end.

Definition balanced (s : jsstring) : bool := balancedFrom s 0.

(** [s] ends with [d] closing braces that have no opening brace, and is
    properly nested between them. *)
Fixpoint BalancedAt (d : nat) (s : jsstring) : Prop :=
  match d with
  | O => Balanced s
  | S d' => exists b r, s = b ++ c_rbrace :: r /\ Balanced b /\ BalancedAt d' r
  end.

(** The end of the text comes before the counter is back at zero: the
    depth is not zero after any prefix that has an opening brace. *)
Definition unclosed (s : jsstring) : Prop :=
  forall p q, s = p ++ q -> In c_lbrace p -> depth p <> 0%Z.

(** Executable check of [unclosed], with the counter at [bc] and the
    in-block flag at [ib]. *)
Fixpoint staysOpen (s : jsstring) (bc : Z) (ib : bool) : bool :=
  match s with
  | [] => true
  | c :: s' =>
      let bc' := (bc + delta c)%Z in
      let ib' := ib || N.eqb c c_lbrace in
      if ib' && (bc' =? 0)%Z then false else staysOpen s' bc' ib'
  end.

(** The text from its first opening brace on. *)
Fixpoint fromFirstBrace (s : jsstring) : jsstring :=
  match s with
  | [] => []
  | c :: s' => if N.eqb c c_lbrace then s else fromFirstBrace s'
  end.

End BlockExtractor.

(* ================================================================= *)
(** ** Regular expressions

    The patterns of the source are sequences of literal characters,
    character classes, greedy and lazy repetitions of one class, the word
    boundary and one capture group.  [matchSeq] tries the alternatives of a
    repetition in the order of the ECMAScript matcher (greedy: longest
    first; lazy: shortest first) and backtracks into them when the rest of
    the pattern fails. *)

Module Regex.

(** [\s]: WhiteSpace and LineTerminator code units. *)
Definition isSpace (c : char) : bool :=
  ((9 <=? c) && (c <=? 13) || (c =? 32) || (c =? 160) || (c =? 5760)
   || (8192 <=? c) && (c <=? 8202) || (c =? 8232) || (c =? 8233)
   || (c =? 8239) || (c =? 8287) || (c =? 12288) || (c =? 65279))%N.

(** [\w]: [A-Za-z0-9_]. *)
Definition isWord (c : char) : bool :=
  ((65 <=? c) && (c <=? 90) || (97 <=? c) && (c <=? 122)
   || (48 <=? c) && (c <=? 57) || (c =? 95))%N.

(** [[\s\S]]: any code unit. *)
Definition anyChar (c : char) : bool := isSpace c || negb (isSpace c).

(** Any code unit but the double quote. *)
Definition notQuote (c : char) : bool := negb (N.eqb c c_quote).

Inductive atom : Type :=
| Chr (c : char)                       (* a literal character *)
| Star (greedy : bool) (p : char -> bool)   (* p* and p*? *)
| Plus (p : char -> bool)              (* p+ *)
| WordB                                (* \b *)
| Open                                 (* ( *)
| Close.                               (* ) *)

Definition regex := list atom.

(** A literal word. *)
Definition lit (s : string) : regex := List.map Chr (js s).

(** Result of a match attempt at one position: the number of code units
    matched and the offsets of the group delimiters met, in order. *)
Definition found : Type := nat * list nat.

Definition advance (r : found) : found := (S (fst r), List.map S (snd r)).
Definition mark (r : found) : found := (fst r, O :: snd r).

Definition orElse (a b : option found) : option found :=
  match a with
  | Some _ => a
  | None => b
  end.

Definition wordO (o : option char) : bool :=
  match o with
  | Some c => isWord c
  | None => false
  end.

(** Repetition of the class [p] followed by the continuation [k]. *)
Fixpoint starLoop (greedy : bool) (p : char -> bool)
    (k : option char -> jsstring -> option found)
    (prev : option char) (s : jsstring) : option found :=
  match s with
  | c :: s' =>
      if p c then
        if greedy then
          orElse (option_map advance (starLoop greedy p k (Some c) s'))
                 (k prev s)
        else
          orElse (k prev s)
                 (option_map advance (starLoop greedy p k (Some c) s'))
      else k prev s
  | [] => k prev s
  end.

(** Match the pattern [r] at the start of [s]; [prev] is the code unit
    before [s] in the whole text. *)
Fixpoint matchSeq (r : regex) (prev : option char) (s : jsstring)
    : option found :=
  match r with
  | [] => Some (O, [])
  | Chr c :: r' =>
      match s with
      | d :: s' =>
          if N.eqb d c then option_map advance (matchSeq r' (Some d) s')
          else None
      | [] => None
      end
  | Star g p :: r' => starLoop g p (matchSeq r') prev s
  | Plus p :: r' =>
      match s with
      | d :: s' =>
          if p d then
            option_map advance (starLoop true p (matchSeq r') (Some d) s')
          else None
      | [] => None
      end
  | WordB :: r' =>
      if xorb (wordO prev) (wordO (hd_error s)) then matchSeq r' prev s
      else None
  | Open :: r' => option_map mark (matchSeq r' prev s)
  | Close :: r' => option_map mark (matchSeq r' prev s)
  end.

(** The match object of [exec] and [match]: [index], [m[0]] and [m[1]]
    ([group1] is the text between the first two group delimiters; the
    patterns of the source have at most one group, which takes part in
    every match). *)
Record RegExpMatch : Type := mkMatch {
  index : nat;
  matched : jsstring;
  group1 : jsstring
}.

Definition matchAt (s : jsstring) (i : nat) (f : found) : RegExpMatch :=
  mkMatch i (firstn (fst f) s)
          (substring s (nth 0 (snd f) O) (nth 1 (snd f) O)).

(** Leftmost match in [s], which starts at index [i] of the text. *)
Fixpoint searchFrom (r : regex) (prev : option char) (s : jsstring) (i : nat)
    : option RegExpMatch :=
  match matchSeq r prev s with
  | Some f => Some (matchAt s i f)
  | None =>
      match s with
      | [] => None
      | c :: s' => searchFrom r (Some c) s' (S i)
      end
  end.

(** The last code unit of [s], or [prev] when [s] is empty. *)
Fixpoint lastOr (prev : option char) (s : jsstring) : option char :=
  match s with
  | [] => prev
  | c :: s' => lastOr (Some c) s'
  end.

(** The code unit before index [i] of [content]. *)
Definition prevOf (content : jsstring) (i : nat) : option char :=
  lastOr None (firstn i content).

(** [re.exec(content)] with [re.lastIndex = lastIndex] (global flag): the
    leftmost match that starts at or after [lastIndex]. *)
Definition exec (r : regex) (content : jsstring) (lastIndex : nat)
    : option RegExpMatch :=
  if Nat.ltb (List.length content) lastIndex then None
  else searchFrom r (prevOf content lastIndex)
                  (skipn lastIndex content) lastIndex.

(** [content.match(re)] without the global flag. *)
Definition match_ (r : regex) (content : jsstring) : option RegExpMatch :=
  exec r content 0.

(** [re.test(content)] without the global flag. *)
Definition test (r : regex) (content : jsstring) : bool :=
  match match_ r content with
  | Some _ => true
  | None => false
  end.

(** The results of the successive calls [re.exec(content)] of a
    [while ((m = re.exec(content)) !== null)] loop, for a global [re] whose
    [lastIndex] is [lastIndex].  Each match moves [lastIndex] to its end.
    [None]: the loop is still running after [fuel] iterations. *)
Fixpoint execAll (fuel : nat) (r : regex) (content : jsstring)
    (lastIndex : nat) : option (list RegExpMatch) :=
  match fuel with
  | O => None
  | S fuel' =>
      match exec r content lastIndex with
      | None => Some []
      | Some m =>
          match execAll fuel' r content
                        (index m + List.length (matched m)) with
          | Some ms => Some (m :: ms)
          | None => None
          end
      end
  end.

(** The attempt of [exec] at index [i] of [content]. *)
Definition matchHere (r : regex) (content : jsstring) (i : nat)
    : option found :=
  matchSeq r (prevOf content i) (skipn i content).

(** Matches that follow each other from index [lastIndex] on. *)
Fixpoint chain (lastIndex : nat) (ms : list RegExpMatch) : Prop :=
  match ms with
  | [] => True
  | m :: ms' =>
      lastIndex <= index m /\ chain (index m + List.length (matched m)) ms'
  end.

(** [n] steps of [advance]. *)
Definition advanceN (n : nat) (f : found) : found :=
  (n + fst f, List.map (Nat.add n) (snd f)).

(** [s.trim()]. *)
Fixpoint trimStart (s : jsstring) : jsstring :=
  match s with
  | c :: s' => if isSpace c then trimStart s' else s
  | [] => []
  end.

Definition trim (s : jsstring) : jsstring :=
  rev (trimStart (rev (trimStart s))).

End Regex.

(* ================================================================= *)
(** ** extractVariables *)

Module FieldParser.
Import Regex BlockExtractor.

Record Validation : Type := mkValidation {
  condition : jsstring;
  fullBlock : jsstring
}.

(** One entry of [variables]; [validation] is [null] ([None]) or an
    object. *)
Record TfVariable : Type := mkVariable {
  name : jsstring;
  hasDefault : bool;
  validation : option Validation;
  description : jsstring
}.

(** [/variable\s+Q([^Q]+)Q\s*\{/g], where [Q] stands for the double
    quote. *)
Definition variableRegex : regex :=
  lit "variable"
  ++ [Plus isSpace; Chr c_quote; Open; Plus notQuote; Close; Chr c_quote;
      Star true isSpace; Chr c_lbrace].

(** [/\bdefault\s*=/] *)
Definition defaultRegex : regex :=
  WordB :: lit "default" ++ [Star true isSpace; Chr c_equals].

(** [/validation\s*\{[\s\S]*?condition\s*=\s*([\s\S]*?)(?:\n\s*error_message)/] *)
Definition validationRegex : regex :=
  lit "validation"
  ++ [Star true isSpace; Chr c_lbrace; Star false anyChar]
  ++ lit "condition"
  ++ [Star true isSpace; Chr c_equals; Star true isSpace;
      Open; Star false anyChar; Close;
      Chr c_newline; Star true isSpace]
  ++ lit "error_message".

(** [/validation\s*\{[\s\S]*?\n\s*\}/] *)
Definition fullBlockRegex : regex :=
  lit "validation"
  ++ [Star true isSpace; Chr c_lbrace; Star false anyChar;
      Chr c_newline; Star true isSpace; Chr c_rbrace].

(** [/description\s*=\s*Q([^Q]+)Q/], where [Q] stands for the double
    quote. *)
Definition descriptionRegex : regex :=
  lit "description"
  ++ [Star true isSpace; Chr c_equals; Star true isSpace;
      Chr c_quote; Open; Plus notQuote; Close; Chr c_quote].

(** Parts of the patterns above. *)
Definition errorTail : regex :=
  [Chr c_newline; Star true isSpace] ++ lit "error_message".

Definition conditionTail : regex :=
  lit "condition"
  ++ [Star true isSpace; Chr c_equals; Star true isSpace;
      Open; Star false anyChar; Close]
  ++ errorTail.


Definition parseHasDefault (blockContent : jsstring) : bool :=
  test defaultRegex blockContent.

Definition parseValidation (blockContent : jsstring) : option Validation :=
  match match_ validationRegex blockContent with
  | Some validationMatch =>
      Some (mkValidation
              (trim (group1 validationMatch))
              match match_ fullBlockRegex blockContent with
              | Some m => matched m
              | None => []
              end)
  | None => None
  end.

Definition parseDescription (blockContent : jsstring) : jsstring :=
  match match_ descriptionRegex blockContent with
  | Some descMatch => group1 descMatch
  | None => []
  end.

(** Index handed to [parseVariableBlock]:
    [match.index + match[0].length - 1], the opening brace that ends the
    header. *)
Definition blockStart (m : RegExpMatch) : Z :=
  (Z.of_nat (index m) + Z.of_nat (List.length (matched m)) - 1)%Z.

(** The body of the [while] loop for one match. *)
Definition variableOf (content : jsstring) (m : RegExpMatch) : TfVariable :=
  let blockContent := parseVariableBlock content (blockStart m) in
  mkVariable (group1 m)
             (parseHasDefault blockContent)
             (parseValidation blockContent)
             (parseDescription blockContent).

(** The headers found by the loop of [extractVariables]: the name and the
    index of the opening brace, per match. *)
Definition headersWith (fuel : nat) (content : jsstring)
    : option (list (jsstring * Z)) :=
  option_map (List.map (fun m => (group1 m, blockStart m)))
             (execAll fuel variableRegex content 0).

Definition extractVariablesWith (fuel : nat) (content : jsstring)
    : option (list TfVariable) :=
  option_map (List.map (variableOf content))
             (execAll fuel variableRegex content 0).

(** Every match has at least one code unit, so the loop runs at most
    [length content] times before [exec] returns [null]
    ([extractVariables_total] below). *)
Definition loopBound (content : jsstring) : nat := S (List.length content).

Definition headers (content : jsstring) : option (list (jsstring * Z)) :=
  headersWith (loopBound content) content.

Definition extractVariables (content : jsstring) : option (list TfVariable) :=
  extractVariablesWith (loopBound content) content.

End FieldParser.

(* ================================================================= *)
(** ** prepareContext: classification *)

Module Classifier.
Import FieldParser.

(** A non-null [validation] is an object, hence truthy. *)
Definition hasValidation (v : TfVariable) : bool :=
  match validation v with
  | Some _ => true
  | None => false
  end.

Record Context : Type := mkContext {
  variables : list TfVariable;
  requiredVars : list TfVariable;
  triggerVars : list TfVariable;
  conditionalVars : list TfVariable;
  optionalVars : list TfVariable
}.

(** The four [filter] calls of [prepareContext]. *)
Definition classify (variables : list TfVariable) : Context :=
  mkContext variables
    (filter (fun v => negb (hasDefault v) && negb (hasValidation v)) variables)
    (filter (fun v => negb (hasDefault v) && hasValidation v) variables)
    (filter (fun v => hasDefault v && hasValidation v) variables)
    (filter (fun v => hasDefault v && negb (hasValidation v)) variables).

(** [variables.push(...extractVariables(content))] over the files. *)
Fixpoint collect (contents : list jsstring) : option (list TfVariable) :=
  match contents with
  | [] => Some []
  | content :: rest =>
      match extractVariables content, collect rest with
      | Some vs, Some ws => Some (vs ++ ws)
      | _, _ => None
      end
  end.

(** [prepareContext], from the contents of the files of the module
    ([Object.values(tfFiles)]). *)
Definition prepareContext (contents : list jsstring) : option Context :=
  option_map classify (collect contents).

(** The categories of the decision table. *)
Inductive Category : Type := Required | Trigger | Conditional | Optional.

Definition decisionTable (hasDefault hasValidation : bool) : Category :=
  match hasDefault, hasValidation with
  | false, false => Required
  | false, true => Trigger
  | true, true => Conditional
  | true, false => Optional
  end.

Definition category_eqb (a b : Category) : bool :=
  match a, b with
  | Required, Required | Trigger, Trigger
  | Conditional, Conditional | Optional, Optional => true
  | _, _ => false
  end.

Definition categoryOf (v : TfVariable) : Category :=
  decisionTable (hasDefault v) (hasValidation v).

Definition listOf (c : Category) (ctx : Context) : list TfVariable :=
  match c with
  | Required => requiredVars ctx
  | Trigger => triggerVars ctx
  | Conditional => conditionalVars ctx
  | Optional => optionalVars ctx
  end.

(** [l1] keeps some of the elements of [l2], in the order of [l2]. *)
Inductive Subsequence (A : Type) : list A -> list A -> Prop :=
| Subsequence_nil : Subsequence [] []
| Subsequence_keep : forall x l1 l2,
    Subsequence l1 l2 -> Subsequence (x :: l1) (x :: l2)
| Subsequence_drop : forall x l1 l2,
    Subsequence l1 l2 -> Subsequence l1 (x :: l2).

End Classifier.

(* ================================================================= *)
(** ** generateReadme: usage blocks *)

Module Synthesizer.
Import FieldParser Classifier.

Fixpoint str_eqb (a b : jsstring) : bool :=
  match a, b with
  | [], [] => true
  | x :: a', y :: b' => N.eqb x y && str_eqb a' b'
  | _, _ => false
  end.

(** [s.padEnd(n)] *)
Definition padEnd (s : jsstring) (n : nat) : jsstring :=
  s ++ repeat c_space (n - List.length s).

(** [s.replace(/_/g, '-')] *)
Definition replaceUnderscores (s : jsstring) : jsstring :=
  List.map (fun c => if N.eqb c c_underscore then c_hyphen else c) s.

(** [lines.join(sep)] *)
Fixpoint join (sep : jsstring) (lines : list jsstring) : jsstring :=
  match lines with
  | [] => []
  | [l] => l
  | l :: rest => l ++ sep ++ join sep rest
  end.

(** [Math.max(...lengths)] for the lengths of names.  On no argument
    [Math.max] is [-Infinity]; [padEnd] then pads nothing, as with [0]. *)
Definition maxLength (names : list jsstring) : nat :=
  fold_right Nat.max 0 (List.map (@List.length char) names).

(** [includes] *)
Definition includes (l : list jsstring) (x : jsstring) : bool :=
  existsb (str_eqb x) l.

Definition quoted (s : jsstring) : jsstring := c_quote :: s ++ [c_quote].

(** The text [your-] followed by [name.replace(/_/g, '-')], between double
    quotes. *)
Definition placeholder (varName : jsstring) : jsstring :=
  quoted (js "your-" ++ replaceUnderscores varName).

(** One entry of [parsed.conditionalUsage]. *)
Record UsageGroup : Type := mkUsage {
  usageName : jsstring;
  triggerVar : jsstring;
  triggerValue : jsstring;
  usageVariables : list jsstring
}.

Section Sorting.

(** [a.localeCompare(b)], which belongs to the host: negative, zero or
    positive, here [Lt], [Eq] or [Gt]. *)
Variable localeCompare : jsstring -> jsstring -> comparison.

Section SortBy.
Variable A : Type.
Variable key : A -> jsstring.

Fixpoint insertBy (x : A) (l : list A) : list A :=
  match l with
  | [] => [x]
  | y :: l' =>
      match localeCompare (key x) (key y) with
      | Gt => y :: insertBy x l'
      | _ => x :: l
      end
  end.

(** [l.sort((a, b) => key(a).localeCompare(key(b)))]: [sort] is stable;
    on a consistent comparator every stable sort gives the list that this
    insertion sort gives. *)
Definition sortBy (l : list A) : list A := fold_right insertBy [] l.

End SortBy.

Definition basicUsageVars (requiredVars triggerVars : list TfVariable)
    : list TfVariable :=
  sortBy name (requiredVars ++ triggerVars).

Definition basicLine (maxVarLength : nat) (v : TfVariable) : jsstring :=
  js "  " ++ padEnd (name v) maxVarLength ++ js " = " ++ placeholder (name v).

Definition basicUsageBlock (requiredVars triggerVars : list TfVariable)
    : jsstring :=
  let vars := basicUsageVars requiredVars triggerVars in
  match vars with
  | [] => []
  | _ :: _ =>
      let maxVarLength := maxLength (List.map name vars) in
      [c_newline] ++ join [c_newline] (List.map (basicLine maxVarLength) vars)
      ++ [c_newline]
  end.

(** [basicUsageBlock] of the earlier copy of [generateReadme], which
    does not sort [basicUsageVars]. *)
Definition basicUsageBlockUnsorted (requiredVars triggerVars : list TfVariable)
    : jsstring :=
  let vars := requiredVars ++ triggerVars in
  match vars with
  | [] => []
  | _ :: _ =>
      let maxVarLength := maxLength (List.map name vars) in
      [c_newline] ++ join [c_newline] (List.map (basicLine maxVarLength) vars)
      ++ [c_newline]
  end.

Definition allVars (requiredVars triggerVars : list TfVariable)
    (usage : UsageGroup) : list jsstring :=
  sortBy (fun n => n)
         (List.map name requiredVars ++ List.map name triggerVars
          ++ usageVariables usage).

Definition usageValue (usage : UsageGroup) (varName : jsstring) : jsstring :=
  if str_eqb varName (triggerVar usage) then quoted (triggerValue usage)
  else placeholder varName.

Definition annotation (usage : UsageGroup) : jsstring :=
  js "  # Required when " ++ triggerVar usage ++ js " = "
  ++ quoted (triggerValue usage).

Definition usageComment (usage : UsageGroup) (varName : jsstring) : jsstring :=
  if includes (usageVariables usage) varName then annotation usage else [].

Definition usageLine (usage : UsageGroup) (maxVarLength : nat)
    (varName : jsstring) : jsstring :=
  js "  " ++ padEnd varName maxVarLength ++ js " = "
  ++ usageValue usage varName ++ usageComment usage varName.

Definition usageLines (requiredVars triggerVars : list TfVariable)
    (usage : UsageGroup) : list jsstring :=
  let vars := allVars requiredVars triggerVars usage in
  List.map (usageLine usage (maxLength vars)) vars.

(** [varsBlock] of one usage section. *)
Definition varsBlock (requiredVars triggerVars : list TfVariable)
    (usage : UsageGroup) : jsstring :=
  join [c_newline] (usageLines requiredVars triggerVars usage).

End Sorting.

(** What the language asks of [localeCompare]: it is a consistent
    comparator, which orders all the texts.  Two different texts may
    compare equal. *)
Record ConsistentComparator (cmp : jsstring -> jsstring -> comparison)
    : Prop := {
  cmp_sym : forall a b, cmp b a = CompOpp (cmp a b);
  cmp_trans : forall a b c, cmp a b <> Gt -> cmp b c <> Gt -> cmp a c <> Gt
}.

(** The comparator tells the names of [names] apart: no two different
    names of the list compare equal. *)
Definition Distinguishes (cmp : jsstring -> jsstring -> comparison)
    (names : list jsstring) : Prop :=
  forall a b, In a names -> In b names -> cmp a b = Eq -> a = b.


(** The order of the comparator, on names and on values with a name. *)
Definition nameLe (cmp : jsstring -> jsstring -> comparison)
    (a b : jsstring) : Prop :=
  cmp a b <> Gt.

Definition keyLe (cmp : jsstring -> jsstring -> comparison) (A : Type)
    (key : A -> jsstring) (a b : A) : Prop :=
  nameLe cmp (key a) (key b).

(** The basic usage block as a function of the sorted names. *)
Definition nameLine (maxVarLength : nat) (n : jsstring) : jsstring :=
  js "  " ++ padEnd n maxVarLength ++ js " = " ++ placeholder n.

Definition blockOfNames (names : list jsstring) : jsstring :=
  match names with
  | [] => []
  | _ :: _ =>
      [c_newline]
      ++ join [c_newline] (List.map (nameLine (maxLength names)) names)
      ++ [c_newline]
  end.

(** Comparison of code units, left to right: a comparator to run the
    definitions on. *)
Fixpoint codeUnitCompare (a b : jsstring) : comparison :=
  match a, b with
  | [], [] => Eq
  | [], _ :: _ => Lt
  | _ :: _, [] => Gt
  | x :: a', y :: b' =>
      match N.compare x y with
      | Eq => codeUnitCompare a' b'
      | c => c
      end
  end.




End Synthesizer.

(* ================================================================= *)
(** ** Shapes of the texts the patterns match *)

Module Shapes.
Import Regex.

Definition spaces (w : jsstring) : Prop := forallb isSpace w = true.

(** [w] occurs in [s]. *)
Definition Substring (w s : jsstring) : Prop :=
  exists pre post, s = pre ++ w ++ post.




(** The word [default], not preceded by a word character, then optional
    whitespace and the equals sign. *)
Definition DefaultOccurs (block : jsstring) : Prop :=
  exists pre ws post,
    block = pre ++ js "default" ++ ws ++ c_equals :: post
    /\ spaces ws /\ wordO (lastOr None pre) = false.

(** A line break, optional whitespace and the keyword [error_message]. *)
Definition errorLine (ws : jsstring) : jsstring :=
  c_newline :: ws ++ js "error_message".

(** The condition attribute up to the keyword of the next one; [cap] is
    the text of the group. *)
Definition conditionText (ws2 ws3 cap ws4 : jsstring) : jsstring :=
  js "condition" ++ ws2 ++ c_equals :: ws3 ++ cap ++ errorLine ws4.

(** The text that [validationRegex] matches, cut at the places where its
    parts meet: from the keyword [validation] through [error_message]. *)
Definition validationText (ws1 mid ws2 ws3 cap ws4 : jsstring) : jsstring :=
  js "validation" ++ ws1 ++ c_lbrace :: mid ++ conditionText ws2 ws3 cap ws4.

(** A line break, optional whitespace and a closing brace. *)
Definition closingLine (ws : jsstring) : jsstring :=
  c_newline :: ws ++ [c_rbrace].

(** The text that [fullBlockRegex] matches. *)
Definition fullBlockText (ws1 body ws2 : jsstring) : jsstring :=
  js "validation" ++ ws1 ++ c_lbrace :: body ++ closingLine ws2.

(** The description attribute: the keyword, the equals sign and a
    non-empty text between double quotes. *)
Definition descriptionText (ws1 ws2 text : jsstring) : jsstring :=
  js "description" ++ ws1 ++ c_equals :: ws2 ++ c_quote :: text ++ [c_quote].

End Shapes.

(* ================================================================= *)
(** ** Shapes of the lines of a usage block *)

Module UsageShapes.
Import Synthesizer.





End UsageShapes.

(* ================================================================= *)
(** ** The validation sub-block as the specification words it *)

Module AsSpecified.
Import Regex BlockExtractor.


End AsSpecified.

(* ================================================================= *)
(** ** Texts to run the definitions on *)

Module Examples.


Definition truncatedFile : jsstring := hcl "variable 'a' {
  type = string
  validation {
    condition = var.a != ''
".

Definition noVariables : list jsstring :=
  [hcl "output 'id' {
  value = 1
}"; []].

Definition sampleModule : jsstring := hcl "variable 'zone' {
}
variable 'size' {
  default = 1
}
variable 'mode' {
  validation {
    condition = contains(['a', 'b'], var.mode)
    error_message = 'bad'
  }
}
variable 'a_days' {
  default = null
  validation {
    condition = var.mode != 'a' || var.a_days != null
    error_message = 'bad'
  }
}
".

End Examples.

(* ================================================================= *)
(** ** String methods used by the scripts *)

Module StringOps.

(** [s.startsWith(w)] *)
Fixpoint startsWith (s w : jsstring) : bool :=
  match w, s with
  | [], _ => true
  | x :: w', y :: s' => N.eqb y x && startsWith s' w'
  | _ :: _, [] => false
  end.

(** [s.indexOf(w)], searched from index [i] of the text on; [None] stands
    for [-1]. *)
Fixpoint indexOfFrom (s w : jsstring) (i : nat) : option nat :=
  if startsWith s w then Some i
  else
    match s with
    | [] => None
    | _ :: s' => indexOfFrom s' w (S i)
    end.

Definition indexOf (s w : jsstring) : option nat := indexOfFrom s w 0.

(** [s.substring(a, b)]: both indices are clamped to the length, and
    swapped when the first is the greater. *)
Definition jsSubstring (s : jsstring) (a b : nat) : jsstring :=
  let a' := Nat.min a (List.length s) in
  let b' := Nat.min b (List.length s) in
  firstn (Nat.max a' b' - Nat.min a' b') (skipn (Nat.min a' b') s).

(** [s.substring(a)] *)
Definition jsSubstringFrom (s : jsstring) (a : nat) : jsstring :=
  skipn a s.

End StringOps.

(* ================================================================= *)
(** ** core/file-utils.js *)

Module FileUtils.
Import StringOps.

Definition extractBetweenMarkers (content beginMarker endMarker : jsstring)
    : jsstring :=
  match indexOf content beginMarker, indexOf content endMarker with
  | Some beginIndex, Some endIndex =>
      jsSubstring content beginIndex (endIndex + List.length endMarker)
  | _, _ => beginMarker ++ [c_newline] ++ endMarker
  end.

End FileUtils.

(* ================================================================= *)
(** ** prepareContext: output names *)

Module Outputs.
Import Regex FieldParser.

(** [/output\s+Q([^Q]+)Q/g], where [Q] stands for the double quote. *)
Definition outputRegex : regex :=
  lit "output"
  ++ [Plus isSpace; Chr c_quote; Open; Plus notQuote; Close; Chr c_quote].

(** The [while ((match = outputRegex.exec(content)) !== null)] loop on one
    file: the matches, and the [lastIndex] that the loop leaves in the
    pattern ([exec] puts it back to zero when it finds nothing).  [None]:
    the loop is still running after [fuel] iterations. *)
Fixpoint execLoop (fuel : nat) (r : regex) (content : jsstring)
    (lastIndex : nat) : option (list RegExpMatch * nat) :=
  match fuel with
  | O => None
  | S fuel' =>
      match exec r content lastIndex with
      | None => Some ([], 0)
      | Some m =>
          match execLoop fuel' r content
                         (index m + List.length (matched m)) with
          | Some (ms, lastIndex') => Some (m :: ms, lastIndex')
          | None => None
          end
      end
  end.

(** [outputs.push(match[1])] over the files; [outputRegex] is made once,
    before the loop over the files, so its [lastIndex] goes from one file
    to the next. *)
Fixpoint collectOutputs (contents : list jsstring) (lastIndex : nat)
    : option (list jsstring) :=
  match contents with
  | [] => Some []
  | content :: rest =>
      match execLoop (loopBound content) outputRegex content lastIndex with
      | Some (ms, lastIndex') =>
          match collectOutputs rest lastIndex' with
          | Some outs => Some (List.map group1 ms ++ outs)
          | None => None
          end
      | None => None
      end
  end.

Definition outputs (contents : list jsstring) : option (list jsstring) :=
  collectOutputs contents 0.

(** The output names of one file, scanned from its start. *)
Definition outputsOfFile (content : jsstring) : option (list jsstring) :=
  option_map (List.map group1)
             (execAll (loopBound content) outputRegex content 0).

(** [outputs[0] || 'id'] *)
Definition firstOutput (outputs : list jsstring) : jsstring :=
  match outputs with
  | (_ :: _) as o :: _ => o
  | _ => js "id"
  end.

(** The text that [outputRegex] matches. *)
Definition outputText (ws name : jsstring) : jsstring :=
  js "output" ++ ws ++ c_quote :: name ++ [c_quote].

End Outputs.

(* ================================================================= *)
(** ** generateReadme: the document *)

Module Readme.
Import Regex FieldParser Classifier Synthesizer StringOps FileUtils Outputs.

(** [dir.replace(/^\.\//, '')] *)
Definition stripDotSlash (dir : jsstring) : jsstring :=
  match dir with
  | 46%N :: 47%N :: rest => rest
  | _ => dir
  end.

(** The line terminators, which [.] does not match. *)
Definition isLineTerminator (c : char) : bool :=
  ((c =? 10) || (c =? 13) || (c =? 8232) || (c =? 8233))%N.

(** No code unit of [s] is a line terminator. *)
Definition noLineTerminator (s : jsstring) : Prop :=
  forallb (fun c => negb (isLineTerminator c)) s = true.

(** The group of the pattern of [infraMatch] at the start of [s]: the
    word [infrastructure/], then any code units but line terminators, up
    to the end of the text. *)
Definition infraHere (s : jsstring) : bool :=
  startsWith s (js "infrastructure/")
  && forallb (fun c => negb (isLineTerminator c))
             (skipn (List.length (js "infrastructure/")) s).

(** Group 1 of [infraMatch]: the pattern is the start of the text or a
    slash, then the group.  The leftmost match is taken; at an index, the
    alternative of the start of the text is tried before the slash. *)
Fixpoint infraMatchFrom (atStart : bool) (s : jsstring) : option jsstring :=
  if atStart && infraHere s then Some s
  else
    match s with
    | c :: s' =>
        if N.eqb c 47 && infraHere s' then Some s'
        else infraMatchFrom false s'
    | [] => None
    end.

Definition modulePathOf (dir : jsstring) : jsstring :=
  let modulePath := stripDotSlash dir in
  match infraMatchFrom true modulePath with
  | Some group1 => group1
  | None => modulePath
  end.

Definition moduleSourceOf (repository modulePath tag : jsstring) : jsstring :=
  js "git::https://github.com/" ++ repository ++ js ".git//" ++ modulePath
  ++ js "?ref=" ++ tag.

(** [parsed], the reply of the model. *)
Record Parsed : Type := mkParsed {
  description : jsstring;
  features : list jsstring;
  conditionalUsage : option (list UsageGroup)
}.

(** The fields of the context that [generateReadme] reads. *)
Record ReadmeContext : Type := mkReadmeContext {
  moduleName : jsstring;
  ctxRequiredVars : list TfVariable;
  ctxTriggerVars : list TfVariable;
  ctxOutputs : list jsstring;
  tag : jsstring;
  repository : jsstring
}.

Definition beginTfDocs : jsstring := js "<!-- BEGIN_TF_DOCS -->".
Definition endTfDocs : jsstring := js "<!-- END_TF_DOCS -->".

(** [tfDocsSection]; [existing] is the content of [README.md] when the
    file exists. *)
Definition tfDocsSection (existing : option jsstring) : jsstring :=
  match existing with
  | Some existingContent =>
      extractBetweenMarkers existingContent beginTfDocs endTfDocs
  | None => beginTfDocs ++ [c_newline] ++ endTfDocs
  end.

(** The names that the usage groups of the reply list. *)
Definition groupNames (parsed : Parsed) : list jsstring :=
  match conditionalUsage parsed with
  | Some usages => List.concat (List.map usageVariables usages)
  | None => []
  end.

Section Document.
Variable localeCompare : jsstring -> jsstring -> comparison.

(** One section of [conditionalUsageSections]. *)
Definition usageSection (ctx : ReadmeContext) (moduleSource : jsstring)
    (usage : UsageGroup) : jsstring :=
  js "### Usage with " ++ usageName usage ++ hcl "

```hcl
module '" ++ moduleName ctx ++ hcl "' {
  source = '" ++ moduleSource ++ hcl "'

" ++ varsBlock localeCompare (ctxRequiredVars ctx) (ctxTriggerVars ctx) usage
  ++ hcl "
}
```".

Definition conditionalUsageSections (ctx : ReadmeContext)
    (moduleSource : jsstring) (parsed : Parsed) : jsstring :=
  match conditionalUsage parsed with
  | Some ((_ :: _) as usages) =>
      join (js "

") (List.map (usageSection ctx moduleSource) usages)
  | _ => []
  end.

(** The document up to the terraform-docs section. *)
Definition readmeHead (dir : jsstring) (parsed : Parsed)
    (ctx : ReadmeContext) : jsstring :=
  let moduleSource :=
    moduleSourceOf (repository ctx) (modulePathOf dir) (tag ctx) in
  let sections := conditionalUsageSections ctx moduleSource parsed in
  js "# Module: " ++ moduleName ctx ++ js "

## Description

" ++ description parsed ++ js "

## Features

" ++ join [c_newline] (List.map (fun f => js "- " ++ f) (features parsed))
  ++ hcl "

## Basic Usage

```hcl
module '" ++ moduleName ctx ++ hcl "' {
  source = '" ++ moduleSource ++ hcl "'
" ++ basicUsageBlock localeCompare (ctxRequiredVars ctx) (ctxTriggerVars ctx)
  ++ js "}
```
"
  ++ match sections with
     | [] => []
     | _ :: _ => [c_newline] ++ sections ++ [c_newline]
     end
  ++ hcl "
## Using Outputs

```hcl
# Reference outputs in other resources
resource 'example_resource' 'this' {
  example_attribute = module." ++ moduleName ctx ++ js "."
  ++ firstOutput (ctxOutputs ctx) ++ js "
}
```

".

Definition generateReadme (existing : option jsstring) (dir : jsstring)
    (parsed : Parsed) (ctx : ReadmeContext) : jsstring :=
  readmeHead dir parsed ctx ++ tfDocsSection existing ++ [c_newline].

End Document.

End Readme.

(* ================================================================= *)
(** ** Inputs of generateReadme that hold no marker *)

Module Plain.
Import FieldParser Synthesizer StringOps Readme.

(** No code unit of [s] is the less-than sign, with which the markers
    of the terraform-docs section begin. *)
Definition noLt (s : jsstring) : bool :=
  forallb (fun c => negb (N.eqb c 60)) s.

Definition plainVars (vars : list TfVariable) : bool :=
  forallb (fun v => noLt (name v)) vars.

Definition plainUsage (usage : UsageGroup) : bool :=
  noLt (usageName usage) && noLt (triggerVar usage)
  && noLt (triggerValue usage) && forallb noLt (usageVariables usage).

(** Every text that [generateReadme] takes from its arguments is free of
    the less-than sign. *)
Definition plainInputs (dir : jsstring) (parsed : Parsed)
    (ctx : ReadmeContext) : bool :=
  noLt dir && noLt (description parsed) && forallb noLt (features parsed)
  && match conditionalUsage parsed with
     | Some usages => forallb plainUsage usages
     | None => true
     end
  && noLt (moduleName ctx) && plainVars (ctxRequiredVars ctx)
  && plainVars (ctxTriggerVars ctx) && forallb noLt (ctxOutputs ctx)
  && noLt (tag ctx) && noLt (repository ctx).

(** In the existing document, when it has both markers, the first begin
    marker is not after the first end marker. *)
Definition markersInOrder (existing : option jsstring) : bool :=
  match existing with
  | Some existingContent =>
      match indexOf existingContent beginTfDocs,
            indexOf existingContent endTfDocs with
      | Some beginIndex, Some endIndex => Nat.leb beginIndex endIndex
      | _, _ => true
      end
  | None => true
  end.

End Plain.

(* ================================================================= *)
(** ** parseArgs: the command line *)

Module Cli.
Import Classifier Synthesizer StringOps.

Record Options : Type := mkOptions {
  directories : list jsstring;
  all : bool;
  baseDir : jsstring;
  type : option jsstring;
  dryRun : bool;
  verbose : bool
}.

(** What a call of [parseArgs] ends in: it returns the options, or it
    prints the help and leaves the process with status zero. *)
Inductive Outcome : Type :=
| Returned (options : Options)
| HelpExit.

Definition defaults : Options :=
  mkOptions [] false (js ".") None false false.

(** [arg.startsWith('--')] *)
Definition isFlag (arg : jsstring) : bool := startsWith arg (js "--").

(** The loop of [parseArgs] from index [i], on the arguments from this
    index on.  An option that takes a value takes the next argument when
    there is one and it is not the empty text, and the loop then steps
    over it. *)
Fixpoint parseArgsFrom (args : list jsstring) (options : Options)
    : Outcome :=
  match args with
  | [] => Returned options
  | arg :: rest =>
      if str_eqb arg (js "--all") then
        parseArgsFrom rest
          (mkOptions (directories options) true (baseDir options)
                     (type options) (dryRun options) (verbose options))
      else
        match str_eqb arg (js "--base-dir"), rest with
        | true, ((_ :: _) as value) :: rest' =>
            parseArgsFrom rest'
              (mkOptions (directories options) (all options) value
                         (type options) (dryRun options) (verbose options))
        | _, _ =>
            match str_eqb arg (js "--type"), rest with
            | true, ((_ :: _) as value) :: rest' =>
                parseArgsFrom rest'
                  (mkOptions (directories options) (all options)
                             (baseDir options) (Some value)
                             (dryRun options) (verbose options))
            | _, _ =>
                if str_eqb arg (js "--dry-run") then
                  parseArgsFrom rest
                    (mkOptions (directories options) (all options)
                               (baseDir options) (type options) true
                               (verbose options))
                else if str_eqb arg (js "--verbose") then
                  parseArgsFrom rest
                    (mkOptions (directories options) (all options)
                               (baseDir options) (type options)
                               (dryRun options) true)
                else if str_eqb arg (js "--help") then HelpExit
                else if negb (isFlag arg) then
                  parseArgsFrom rest
                    (mkOptions (directories options ++ [arg]) (all options)
                               (baseDir options) (type options)
                               (dryRun options) (verbose options))
                else parseArgsFrom rest options
            end
        end
  end.

Definition parseArgs (args : list jsstring) : Outcome :=
  parseArgsFrom args defaults.

(** [value] follows the option [flag] in [args]. *)
Definition ValueOf (flag value : jsstring) (args : list jsstring) : Prop :=
  exists pre post, args = pre ++ flag :: value :: post.

(** What a run of the loop on [args] can have made of [options]: [o]
    holds what [options] held, and what it adds comes from [args]. *)
Definition FromArgs (args : list jsstring) (options o : Options) : Prop :=
  (exists found,
      directories o = directories options ++ found
      /\ Subsequence found args
      /\ Forall (fun d => isFlag d = false) found)
  /\ (all o = true -> all options = true \/ In (js "--all") args)
  /\ (dryRun o = true -> dryRun options = true \/ In (js "--dry-run") args)
  /\ (verbose o = true ->
      verbose options = true \/ In (js "--verbose") args)
  /\ (baseDir o = baseDir options
      \/ (baseDir o <> [] /\ ValueOf (js "--base-dir") (baseDir o) args))
  /\ (type o = type options
      \/ exists value,
           type o = Some value /\ value <> []
           /\ ValueOf (js "--type") value args).

End Cli.

(* ================================================================= *)
(** ** parseAIResponse: the text handed to JSON.parse *)

Module AiResponse.
Import Regex StringOps.

Definition c_backtick : char := 96%N.

(** Three backticks, and three backticks with the word [json]. *)
Definition fence : jsstring := [c_backtick; c_backtick; c_backtick].
Definition fenceJson : jsstring := fence ++ js "json".

(** The length of the match of the word [w] and an optional line break
    at the start of [s], which begins with [w]. *)
Definition matchLength (w s : jsstring) : nat :=
  List.length w
  + match nth_error s (List.length w) with
    | Some c => if N.eqb c c_newline then 1 else 0
    | None => 0
    end.

(** [s.replace(re, '')] for the global pattern [re] of a non-empty word
    [w] and an optional line break: the matches are taken from left to
    right, each search starts where the last match ended.  [skip] is the
    number of code units of the current match that are still to pass. *)
Fixpoint removeAll (w : jsstring) (skip : nat) (s : jsstring) : jsstring :=
  match s with
  | [] => []
  | c :: s' =>
      match skip with
      | S skip' => removeAll w skip' s'
      | O =>
          if startsWith s w then removeAll w (matchLength w s - 1) s'
          else c :: removeAll w 0 s'
      end
  end.

(** [cleanResponse] *)
Definition cleanResponse (response : jsstring) : jsstring :=
  trim (removeAll fence 0 (removeAll fenceJson 0 response)).

Definition noBacktick (s : jsstring) : bool :=
  forallb (fun c => negb (N.eqb c c_backtick)) s.

(** [s] without the line break it may begin with. *)
Definition dropNewline (s : jsstring) : jsstring :=
  match s with
  | c :: s' => if N.eqb c c_newline then s' else s
  | [] => []
  end.

End AiResponse.

(* ================================================================= *)
(** ** updateRootReadme: the table of modules *)

Module RootReadme.
Import Synthesizer StringOps.

Definition beginModules : jsstring := js "<!-- BEGIN_MODULES -->".
Definition endModules : jsstring := js "<!-- END_MODULES -->".

(** What a row of the table is made of: the name of the directory, the
    directory, the display name of its generator and the description
    found in its document. *)
Record ModuleEntry : Type := mkEntry {
  entryName : jsstring;
  entryDir : jsstring;
  displayName : jsstring;
  entryDescription : jsstring
}.

Definition tableRow (entry : ModuleEntry) : jsstring :=
  js "| [" ++ entryName entry ++ js "](./" ++ entryDir entry ++ js ") | "
  ++ displayName entry ++ js " | " ++ entryDescription entry ++ js " |".

Definition tableContent (entries : list ModuleEntry) : jsstring :=
  js "| Module | Type | Description |
|--------|------|-------------|
" ++ join [c_newline] (List.map tableRow entries).

(** The new content of the root document; [None] when a marker is
    missing. *)
Definition spliceTable (rootReadme tableContent : jsstring)
    : option jsstring :=
  match indexOf rootReadme beginModules, indexOf rootReadme endModules with
  | Some beginIndex, Some endIndex =>
      Some (jsSubstring rootReadme 0 (beginIndex + List.length beginModules)
            ++ [c_newline] ++ tableContent ++ [c_newline]
            ++ jsSubstringFrom rootReadme endIndex)
  | _, _ => None
  end.

(** The root document after the call; [rootReadme] is [None] when the
    file does not exist. *)
Definition updateRootReadme (rootReadme : option jsstring)
    (entries : list ModuleEntry) (dryRun : bool) : option jsstring :=
  match rootReadme with
  | None => None
  | Some content =>
      match spliceTable content (tableContent entries) with
      | Some updated => if dryRun then Some content else Some updated
      | None => Some content
      end
  end.

End RootReadme.

(* ================================================================= *)
(** * Properties *)

(** ** The block extractor *)

Module BlockFacts.
Import BlockExtractor.

Lemma depth_cons c s : depth (c :: s) = (delta c + depth s)%Z.
Proof. reflexivity. Qed.

Lemma delta_other c : c <> c_lbrace -> c <> c_rbrace -> delta c = 0%Z.
Proof.
  intros Hl Hr. unfold delta.
  destruct (N.eqb_spec c c_lbrace); [contradiction|].
  destruct (N.eqb_spec c c_rbrace); [contradiction|]. reflexivity.
Qed.

Lemma depth_app s t : depth (s ++ t) = (depth s + depth t)%Z.
Proof.
  induction s as [|c s IH]; simpl; [reflexivity|].
  rewrite IH. lia.
Qed.

(** *** The loop over indices and the scan of the remaining text *)

Lemma charAt_app_length (pre : jsstring) c s :
  charAt (pre ++ c :: s) (Z.of_nat (List.length pre)) = Some c.
Proof.
  unfold charAt.
  destruct (Z.ltb_spec (Z.of_nat (List.length pre)) 0) as [H|H]; [lia|].
  rewrite Nat2Z.id, nth_error_app2 by lia.
  rewrite Nat.sub_diag. reflexivity.
Qed.

Lemma loop_scanFrom s : forall pre st,
  loop (List.length s) (pre ++ s) (Z.of_nat (List.length pre)) st
  = blockContent st ++ scanFrom s (braceCount st) (inBlock st).
Proof.
  induction s as [|c s IH]; intros pre st; simpl.
  - now rewrite app_nil_r.
  - unfold length_z. rewrite length_app. simpl List.length.
    destruct (Z.ltb_spec (Z.of_nat (List.length pre))
                (Z.of_nat (List.length pre + S (List.length s)))) as [_|H];
      [|lia].
    rewrite charAt_app_length.
    specialize (IH (pre ++ [c])).
    rewrite <- app_assoc in IH. simpl in IH.
    rewrite length_app in IH. simpl in IH.
    replace (Z.of_nat (List.length pre) + 1)%Z
      with (Z.of_nat (List.length pre + 1)) by lia.
    unfold body. cbn [is_char].
    destruct (N.eqb c c_lbrace), (N.eqb c c_rbrace), (inBlock st);
      cbn [andb];
      repeat match goal with
             | |- context [Z.eqb ?a 0] => destruct (Z.eqb a 0)
             end;
      try reflexivity;
      rewrite IH; cbn [blockContent braceCount inBlock];
      rewrite <- ?app_assoc; reflexivity.
Qed.

(** Indices below zero read [undefined], which changes nothing while the
    scan is outside of a block. *)
Lemma loop_negative k : forall content i st n,
  inBlock st = false ->
  (i = - Z.of_nat k)%Z ->
  n = (k + List.length content)%nat ->
  loop n content i st = loop (List.length content) content 0 st.
Proof.
  induction k as [|k IH]; intros content i st n Hib Hi Hn.
  - subst. simpl. reflexivity.
  - subst n. simpl.
    destruct (Z.ltb_spec i (length_z content)) as [_|H];
      [|unfold length_z in H; lia].
    unfold charAt. destruct (Z.ltb_spec i 0) as [_|H]; [|lia].
    unfold body. simpl. rewrite Hib. simpl.
    destruct st as [bc ib blk]. simpl in *. subst ib.
    apply IH; simpl; [reflexivity|lia|reflexivity].
Qed.

Lemma parseVariableBlock_scanFrom content startIndex :
  parseVariableBlock content startIndex
  = scanFrom (skipn (Z.to_nat startIndex) content) 0 false.
Proof.
  unfold parseVariableBlock.
  destruct (Z.ltb_spec startIndex 0) as [Hneg|Hpos].
  - rewrite (@loop_negative (Z.to_nat (- startIndex)) content startIndex
               _ (Z.to_nat (length_z content - startIndex)));
      [|reflexivity|lia|unfold length_z; lia].
    replace (Z.to_nat startIndex) with O by lia. simpl skipn.
    apply (loop_scanFrom content []).
  - destruct (Z.ltb_spec (length_z content) startIndex) as [Hout|Hin].
    + replace (Z.to_nat (length_z content - startIndex)) with O by lia.
      rewrite skipn_all2 by (unfold length_z in Hout; lia). reflexivity.
    + unfold length_z in *.
      pose proof (firstn_skipn (Z.to_nat startIndex) content) as Hsplit.
      set (pre := firstn (Z.to_nat startIndex) content) in *.
      set (s := skipn (Z.to_nat startIndex) content) in *.
      assert (Hpre : List.length pre = Z.to_nat startIndex)
        by (unfold pre; rewrite length_firstn; lia).
      assert (Hs : List.length s = (List.length content - Z.to_nat startIndex)%nat)
        by (unfold s; apply length_skipn).
      replace (Z.to_nat (Z.of_nat (List.length content) - startIndex))
        with (List.length s) by lia.
      rewrite <- Hsplit at 1.
      replace startIndex with (Z.of_nat (List.length pre)) at 1 by lia.
      apply (loop_scanFrom s pre).
Qed.

(** *** Outside of a block *)

Lemma scanFrom_skip pre : forall bc s,
  ~ In c_lbrace pre ->
  exists bc', scanFrom (pre ++ s) bc false = scanFrom s bc' false.
Proof.
  induction pre as [|c pre IH]; intros bc s Hno; simpl.
  - now exists bc.
  - destruct (N.eqb_spec c c_lbrace) as [E|E].
    + exfalso. apply Hno. now left.
    + apply IH. intros Hin. apply Hno. now right.
Qed.

Lemma scanFrom_no_brace s : forall bc,
  ~ In c_lbrace s -> scanFrom s bc false = [].
Proof.
  induction s as [|c s IH]; intros bc Hno; simpl; [reflexivity|].
  destruct (N.eqb_spec c c_lbrace) as [E|E].
  - exfalso. apply Hno. now left.
  - apply IH. intros Hin. apply Hno. now right.
Qed.

Lemma scanFrom_prefix s : forall bc, exists t, s = scanFrom s bc true ++ t.
Proof.
  induction s as [|c s IH]; intros bc; simpl.
  - now exists [].
  - replace (if N.eqb c c_lbrace then true else true) with true
      by now destruct (N.eqb c c_lbrace).
    match goal with |- context [Z.eqb ?a 0] => destruct (Z.eqb a 0) end.
    + now exists s.
    + match goal with |- context [scanFrom s ?b true] =>
        destruct (IH b) as [t Ht] end.
      exists t. simpl. now rewrite <- Ht.
Qed.

Lemma scanFrom_open s bc :
  exists b t, scanFrom (c_lbrace :: s) bc false = c_lbrace :: b /\ s = b ++ t.
Proof.
  simpl. destruct (Z.eqb (bc + 1) 0).
  - now exists [], s.
  - destruct (scanFrom_prefix s (bc + 1)) as [t Ht].
    now exists (scanFrom s (bc + 1) true), t.
Qed.

(** *** Inside of a block *)

Lemma scanFrom_balanced body :
  Balanced body ->
  forall d rest, (d > 0)%Z ->
    scanFrom (body ++ rest) d true = body ++ scanFrom rest d true.
Proof.
  induction 1 as [|c s Hl Hr Hs IH|s1 s2 H1 IH1 H2 IH2]; intros d rest Hd.
  - reflexivity.
  - simpl.
    destruct (N.eqb_spec c c_lbrace) as [E|_]; [contradiction|].
    destruct (N.eqb_spec c c_rbrace) as [E|_]; [contradiction|].
    destruct (Z.eqb_spec d 0) as [E|_]; [lia|].
    now rewrite IH.
  - simpl. destruct (Z.eqb_spec (d + 1) 0) as [E|_]; [lia|].
    rewrite <- app_assoc. rewrite IH1 by lia. simpl.
    destruct (Z.eqb_spec (d + 1 - 1) 0) as [E|_]; [lia|].
    replace (d + 1 - 1)%Z with d by lia.
    rewrite IH2 by assumption. now rewrite <- app_assoc.
Qed.

Lemma scanFrom_block body post :
  Balanced body ->
  scanFrom (c_lbrace :: body ++ c_rbrace :: post) 0 false
  = c_lbrace :: body ++ [c_rbrace].
Proof.
  intros Hb. simpl. rewrite scanFrom_balanced by (assumption || lia).
  reflexivity.
Qed.

Lemma Balanced_depth body : Balanced body -> depth body = 0%Z.
Proof.
  induction 1 as [|c s Hl Hr Hs IH|s1 s2 H1 IH1 H2 IH2].
  - reflexivity.
  - rewrite depth_cons, delta_other by assumption. lia.
  - rewrite depth_cons, depth_app, depth_cons.
    change (delta c_lbrace) with 1%Z. change (delta c_rbrace) with (-1)%Z.
    lia.
Qed.

Lemma Balanced_prefix body :
  Balanced body -> forall p q, body = p ++ q -> (0 <= depth p)%Z.
Proof.
  induction 1 as [|c s Hl Hr Hs IH|s1 s2 H1 IH1 H2 IH2]; intros p q Hpq.
  - symmetry in Hpq. apply app_eq_nil in Hpq as [-> _]. simpl. lia.
  - destruct p as [|c' p]; [simpl; lia|].
    simpl in Hpq. injection Hpq as <- Hs'.
    rewrite depth_cons, delta_other by assumption.
    specialize (IH _ _ Hs'). lia.
  - destruct p as [|c' p]; [simpl; lia|].
    simpl in Hpq. injection Hpq as <- Hs'.
    rewrite depth_cons. change (delta c_lbrace) with 1%Z.
    apply app_eq_app in Hs' as [l [[-> Hq]|[-> Hq]]].
    + specialize (IH1 p l eq_refl). lia.
    + rewrite depth_app, (Balanced_depth H1).
      destruct l as [|c'' l]; [simpl; lia|].
      simpl in Hq. injection Hq as <- Hq.
      rewrite depth_cons. change (delta c_rbrace) with (-1)%Z.
      specialize (IH2 l q Hq). lia.
Qed.

(** *** The executable check *)

Lemma balancedFrom_sound s : forall d,
  balancedFrom s d = true -> BalancedAt d s.
Proof.
  induction s as [|c s IH]; intros d H; simpl in H.
  - destruct d; [constructor|discriminate].
  - destruct (N.eqb_spec c c_lbrace) as [->|Hl].
    + apply IH in H. destruct H as (b & r & -> & Hb & Hr).
      destruct d as [|d]; simpl in *.
      * now constructor.
      * destruct Hr as (b' & r' & -> & Hb' & Hr').
        exists (c_lbrace :: b ++ c_rbrace :: b'), r'.
        split; [simpl; rewrite <- app_assoc; reflexivity|].
        split; [now constructor|assumption].
    + destruct (N.eqb_spec c c_rbrace) as [->|Hr].
      * destruct d as [|d]; [discriminate|]. apply IH in H.
        exists [], s. repeat split; [constructor|assumption].
      * apply IH in H. destruct d as [|d]; simpl in *.
        -- now constructor.
        -- destruct H as (b & r & -> & Hb & Hr').
           exists (c :: b), r. repeat split; [now constructor|assumption].
Qed.

Lemma balanced_sound s : balanced s = true -> Balanced s.
Proof. intros H. exact (balancedFrom_sound s 0 H). Qed.

(** *** No brace closes the block *)

Lemma scanFrom_unclosed s : forall bc ib,
  (forall p q, s = p ++ q -> p <> [] -> ib = true \/ In c_lbrace p ->
               (bc + depth p)%Z <> 0%Z) ->
  scanFrom s bc ib = if ib then s else fromFirstBrace s.
Proof.
  induction s as [|c s IH]; intros bc ib H.
  - now destruct ib.
  - assert (Hstep : forall p q, s = p ++ q -> p <> [] ->
              (if N.eqb c c_lbrace then true else ib) = true \/ In c_lbrace p ->
              (bc + delta c + depth p)%Z <> 0%Z).
    { intros p q Hs Hp Hin.
      specialize (H (c :: p) q). rewrite depth_cons in H.
      rewrite Z.add_assoc in H. apply H.
      - now rewrite Hs.
      - discriminate.
      - destruct Hin as [Hin|Hin]; [|right; now right].
        destruct (N.eqb_spec c c_lbrace) as [->|_];
          [right; now left|now left]. }
    assert (Hone : (if N.eqb c c_lbrace then true else ib) = true ->
                   (bc + delta c)%Z <> 0%Z).
    { intros Hib. specialize (H [c] s eq_refl).
      rewrite depth_cons in H. simpl depth in H. rewrite Z.add_0_r in H.
      apply H; [discriminate|].
      destruct (N.eqb_spec c c_lbrace) as [->|_];
        [right; now left|now left]. }
    specialize (IH (bc + delta c)%Z (if N.eqb c c_lbrace then true else ib) Hstep).
    simpl scanFrom.
    replace (if N.eqb c c_rbrace
             then (if N.eqb c c_lbrace then bc + 1 else bc) - 1
             else if N.eqb c c_lbrace then bc + 1 else bc)%Z
      with (bc + delta c)%Z
      by (unfold delta; destruct (N.eqb c c_lbrace), (N.eqb c c_rbrace); lia).
    rewrite IH. simpl fromFirstBrace.
    destruct (N.eqb c c_lbrace) eqn:El.
    + destruct (Z.eqb_spec (bc + delta c) 0) as [E|_]; [|now destruct ib].
      exfalso. now apply Hone.
    + destruct ib; [|reflexivity].
      destruct (Z.eqb_spec (bc + delta c) 0) as [E|_]; [|reflexivity].
      exfalso. now apply Hone.
Qed.

Lemma fromFirstBrace_split s :
  exists pre, s = pre ++ fromFirstBrace s /\ ~ In c_lbrace pre.
Proof.
  induction s as [|c s [pre [IH Hno]]]; simpl.
  - exists []. split; [reflexivity|easy].
  - destruct (N.eqb_spec c c_lbrace) as [E|E].
    + exists []. split; [reflexivity|easy].
    + exists (c :: pre). split; [simpl; now rewrite <- IH|].
      intros [H|H]; [congruence|contradiction].
Qed.

Lemma staysOpen_sound s : forall bc ib,
  staysOpen s bc ib = true ->
  forall p q, s = p ++ q -> p <> [] -> ib = true \/ In c_lbrace p ->
              (bc + depth p)%Z <> 0%Z.
Proof.
  induction s as [|c s IH]; intros bc ib H p q Hs Hp Hin.
  - symmetry in Hs. apply app_eq_nil in Hs as [-> _]. contradiction.
  - destruct p as [|c' p]; [contradiction|].
    simpl in Hs. injection Hs as <- Hs.
    simpl in H.
    destruct ((ib || N.eqb c c_lbrace) && (bc + delta c =? 0)%Z) eqn:Hbrk;
      [discriminate|].
    rewrite depth_cons.
    destruct p as [|c'' p].
    + simpl. apply andb_false_iff in Hbrk as [Hib|Hz].
      * exfalso. apply orb_false_iff in Hib as [-> Hc].
        destruct Hin as [Hin|[Hin|[]]]; [discriminate|].
        subst c. discriminate.
      * apply Z.eqb_neq in Hz. lia.
    + rewrite Z.add_assoc.
      apply (IH _ _ H (c'' :: p) q Hs); [discriminate|].
      destruct Hin as [->|[->|Hin]]; [now left| |now right].
      left. now rewrite N.eqb_refl, orb_true_r.
Qed.

Lemma staysOpen_unclosed s : staysOpen s 0 false = true -> unclosed s.
Proof.
  intros H p q Hs Hin.
  destruct p as [|c p]; [contradiction|].
  apply (@staysOpen_sound s 0%Z false H (c :: p) q Hs);
    [discriminate|now right].
Qed.

End BlockFacts.

Module BlockClaims.
Import BlockExtractor BlockFacts.

(** C2.  When the start index points at an opening brace whose block has a
    properly nested body (any text with arbitrarily nested balanced brace
    pairs) followed by its closing brace, [parseVariableBlock] returns the
    text from that opening brace through the matching closing brace,
    whatever comes before and after.  The returned block is where the brace
    counter is back at zero for the first time: its depth is zero and every
    shorter non-empty prefix has a positive depth. *)
Theorem parseVariableBlock_matching_brace :
  forall (pre body post : jsstring),
    Balanced body ->
    parseVariableBlock (pre ++ c_lbrace :: body ++ c_rbrace :: post)
                       (Z.of_nat (List.length pre))
    = c_lbrace :: body ++ [c_rbrace]
    /\ depth (c_lbrace :: body ++ [c_rbrace]) = 0%Z
    /\ (forall p q, c_lbrace :: body ++ [c_rbrace] = p ++ q ->
                    p <> [] -> q <> [] -> (depth p > 0)%Z).
Proof.
  intros pre body post Hb. split; [|split].
  - rewrite parseVariableBlock_scanFrom, Nat2Z.id.
    rewrite skipn_app, skipn_all, Nat.sub_diag. simpl skipn.
    now apply scanFrom_block.
  - rewrite depth_cons, depth_app, (Balanced_depth Hb). reflexivity.
  - intros p q Hpq Hp Hq.
    destruct p as [|c p]; [contradiction|].
    simpl in Hpq. injection Hpq as <- Hpq.
    rewrite depth_cons. change (delta c_lbrace) with 1%Z.
    apply app_eq_app in Hpq as [l [[Hbody Hl]|[Hp' Hl]]].
    + pose proof (Balanced_prefix Hb _ _ Hbody). lia.
    + destruct l as [|c l].
      * rewrite app_nil_r in Hp'. subst p.
        rewrite (Balanced_depth Hb). lia.
      * simpl in Hl. injection Hl as _ Hl.
        symmetry in Hl. apply app_eq_nil in Hl as [_ ->]. contradiction.
Qed.

Lemma parseVariableBlock_matching_brace_witness :
  Balanced (hcl " validation { condition = {} } ")
  /\ parseVariableBlock
       (hcl "variable 'a' " ++ c_lbrace
          :: hcl " validation { condition = {} } " ++ c_rbrace :: hcl " x")
       (Z.of_nat (List.length (hcl "variable 'a' ")))
     = c_lbrace :: hcl " validation { condition = {} } " ++ [c_rbrace].
Proof.
  assert (Hb : Balanced (hcl " validation { condition = {} } "))
    by (apply balanced_sound; vm_compute; reflexivity).
  split; [exact Hb|].
  exact (proj1 (parseVariableBlock_matching_brace
                  (hcl "variable 'a' ") (hcl " x") Hb)).
Defined.

(** C10.  For every text and every start index, [parseVariableBlock]
    returns a string (the loop runs at most [content.length - startIndex]
    times): the empty string when there is no opening brace at or after the
    start index; otherwise a text that begins at the first opening brace at
    or after the start index, so that nothing before this brace is part of
    it, and goes on with a prefix of what follows the brace. *)
Theorem parseVariableBlock_from_first_brace :
  forall (content : jsstring) (startIndex : Z),
    (~ In c_lbrace (skipn (Z.to_nat startIndex) content) ->
     parseVariableBlock content startIndex = [])
    /\ (forall pre rest,
          skipn (Z.to_nat startIndex) content = pre ++ c_lbrace :: rest ->
          ~ In c_lbrace pre ->
          exists b t,
            parseVariableBlock content startIndex = c_lbrace :: b
            /\ rest = b ++ t).
Proof.
  intros content startIndex. rewrite parseVariableBlock_scanFrom. split.
  - intros Hno. now apply scanFrom_no_brace.
  - intros pre rest -> Hno.
    destruct (@scanFrom_skip pre 0%Z (c_lbrace :: rest) Hno) as [bc' ->].
    apply scanFrom_open.
Qed.

(** The block of a text in which the counter never comes back to zero:
    everything from the first opening brace to the end of the text. *)
Lemma parseVariableBlock_unclosed content startIndex :
  unclosed (skipn (Z.to_nat startIndex) content) ->
  parseVariableBlock content startIndex
  = fromFirstBrace (skipn (Z.to_nat startIndex) content).
Proof.
  intros Hu. rewrite parseVariableBlock_scanFrom.
  apply (@scanFrom_unclosed _ 0%Z false).
  intros p q Hs _ [Hib|Hin]; [discriminate|].
  simpl. now apply (Hu p q).
Qed.

End BlockClaims.

(* ================================================================= *)
(** ** The matcher *)

Module RegexFacts.
Import Regex.

Lemma advanceN_0 f : advanceN 0 f = f.
Proof.
  destruct f as [n ms]. unfold advanceN. simpl.
  now rewrite map_id.
Qed.

Lemma advance_advanceN n f : advance (advanceN n f) = advanceN (S n) f.
Proof.
  unfold advance, advanceN. simpl. now rewrite map_map.
Qed.

Lemma option_map_some (A B : Type) (g : A -> B) o y :
  option_map g o = Some y -> exists x, o = Some x /\ y = g x.
Proof.
  destruct o as [x|]; simpl; [|discriminate].
  intros [= <-]. now exists x.
Qed.

Lemma orElse_some a b f :
  orElse a b = Some f -> a = Some f \/ (a = None /\ b = Some f).
Proof. destruct a; simpl; intros H; [now left|now right]. Qed.

Lemma lastOr_app prev u v : lastOr prev (u ++ v) = lastOr (lastOr prev u) v.
Proof. revert prev. induction u as [|c u IH]; intros prev; simpl; auto. Qed.

(** *** Repetitions *)

Section StarLoop.
Variable p : char -> bool.
Variable k : option char -> jsstring -> option found.

Lemma starLoop_inv g : forall s prev f,
  starLoop g p k prev s = Some f ->
  exists u s' f',
    s = u ++ s' /\ forallb p u = true
    /\ k (lastOr prev u) s' = Some f' /\ f = advanceN (List.length u) f'.
Proof.
  induction s as [|c s IH]; intros prev f H; simpl in H.
  - exists [], [], f. now rewrite advanceN_0.
  - assert (Hstop : k prev (c :: s) = Some f ->
              exists u s' f', c :: s = u ++ s' /\ forallb p u = true
                /\ k (lastOr prev u) s' = Some f'
                /\ f = advanceN (List.length u) f').
    { intros Hk. exists [], (c :: s), f. now rewrite advanceN_0. }
    assert (Hmore : option_map advance (starLoop g p k (Some c) s) = Some f ->
              p c = true ->
              exists u s' f', c :: s = u ++ s' /\ forallb p u = true
                /\ k (lastOr prev u) s' = Some f'
                /\ f = advanceN (List.length u) f').
    { intros Hm Hp. apply option_map_some in Hm as (f0 & Hf0 & ->).
      apply IH in Hf0 as (u & s' & f' & -> & Hu & Hk & ->).
      exists (c :: u), s', f'. simpl. rewrite Hp, Hu.
      now rewrite advance_advanceN. }
    destruct (p c) eqn:Hp; [|auto].
    destruct g; apply orElse_some in H as [H|[_ H]]; auto.
Qed.

Lemma starLoop_lazy_min : forall s prev f,
  starLoop false p k prev s = Some f ->
  exists u s' f',
    s = u ++ s' /\ forallb p u = true
    /\ k (lastOr prev u) s' = Some f' /\ f = advanceN (List.length u) f'
    /\ (forall u1 u2, u = u1 ++ u2 -> u2 <> [] ->
                      k (lastOr prev u1) (u2 ++ s') = None).
Proof.
  induction s as [|c s IH]; intros prev f H; simpl in H.
  - exists [], [], f. rewrite advanceN_0. repeat split; auto.
    intros u1 u2 Hu Hne. symmetry in Hu. apply app_eq_nil in Hu as [_ ->].
    contradiction.
  - assert (Hstop : k prev (c :: s) = Some f ->
              exists u s' f', c :: s = u ++ s' /\ forallb p u = true
                /\ k (lastOr prev u) s' = Some f'
                /\ f = advanceN (List.length u) f'
                /\ (forall u1 u2, u = u1 ++ u2 -> u2 <> [] ->
                      k (lastOr prev u1) (u2 ++ s') = None)).
    { intros Hk. exists [], (c :: s), f. rewrite advanceN_0.
      repeat split; auto.
      intros u1 u2 Hu Hne. symmetry in Hu. apply app_eq_nil in Hu as [_ ->].
      contradiction. }
    destruct (p c) eqn:Hp; [|auto].
    apply orElse_some in H as [H|[Hnone H]]; [auto|].
    apply option_map_some in H as (f0 & Hf0 & ->).
    apply IH in Hf0 as (u & s' & f' & -> & Hu & Hk & -> & Hmin).
    exists (c :: u), s', f'. simpl. rewrite Hp, Hu, advance_advanceN.
    repeat split; auto.
    intros u1 u2 Hsplit Hne. destruct u1 as [|c1 u1]; simpl in Hsplit.
    + subst u2. simpl. exact Hnone.
    + injection Hsplit as <- Hsplit. simpl. now apply Hmin.
Qed.

Lemma starLoop_complete g : forall u prev s',
  forallb p u = true ->
  k (lastOr prev u) s' <> None ->
  starLoop g p k prev (u ++ s') <> None.
Proof.
  induction u as [|c u IH]; intros prev s' Hu Hk.
  - simpl in *. destruct s' as [|c s']; simpl; [assumption|].
    destruct (p c); [|assumption].
    destruct g, (k prev (c :: s')); simpl; try congruence.
    destruct (starLoop true p k (Some c) s'); simpl; congruence.
  - simpl in Hu. apply andb_prop in Hu as [Hc Hu].
    specialize (IH (Some c) s' Hu Hk).
    simpl. rewrite Hc.
    destruct (starLoop g p k (Some c) (u ++ s')) as [f|] eqn:E;
      [|congruence].
    destruct g; simpl; [congruence|].
    destruct (k prev (c :: u ++ s')); simpl; congruence.
Qed.

Lemma starLoop_len_le g :
  (forall prev s f, k prev s = Some f -> fst f <= List.length s) ->
  forall s prev f,
    starLoop g p k prev s = Some f -> fst f <= List.length s.
Proof.
  intros Hk s prev f H.
  apply starLoop_inv in H as (u & s' & f' & -> & _ & Hf & ->).
  apply Hk in Hf. rewrite length_app. simpl. lia.
Qed.

End StarLoop.

(** *** Sequences *)

Lemma matchSeq_len_le r : forall prev s f,
  matchSeq r prev s = Some f -> fst f <= List.length s.
Proof.
  induction r as [|a r IH]; intros prev s f H; simpl in H.
  - injection H as <-. simpl. lia.
  - destruct a.
    + destruct s as [|d s]; [discriminate|].
      destruct (N.eqb d c); [|discriminate].
      apply option_map_some in H as (f' & Hf' & ->).
      apply IH in Hf'. simpl. lia.
    + now apply (@starLoop_len_le _ _ _ IH) in H.
    + destruct s as [|d s]; [discriminate|].
      destruct (p d); [|discriminate].
      apply option_map_some in H as (f' & Hf' & ->).
      apply (@starLoop_len_le _ _ _ IH) in Hf'. simpl. lia.
    + destruct (xorb _ _); [|discriminate]. now apply IH in H.
    + apply option_map_some in H as (f' & Hf' & ->).
      apply IH in Hf'. exact Hf'.
    + apply option_map_some in H as (f' & Hf' & ->).
      apply IH in Hf'. exact Hf'.
Qed.

Lemma inv_chr c r prev s f :
  matchSeq (Chr c :: r) prev s = Some f ->
  exists s' f',
    s = c :: s' /\ matchSeq r (Some c) s' = Some f' /\ f = advance f'.
Proof.
  simpl. destruct s as [|d s]; [discriminate|].
  destruct (N.eqb_spec d c) as [->|_]; [|discriminate].
  intros H. apply option_map_some in H as (f' & Hf' & ->).
  now exists s, f'.
Qed.

Lemma inv_lit w : forall r prev s f,
  matchSeq (List.map Chr w ++ r) prev s = Some f ->
  exists s' f',
    s = w ++ s' /\ matchSeq r (lastOr prev w) s' = Some f'
    /\ f = advanceN (List.length w) f'.
Proof.
  induction w as [|c w IH]; intros r prev s f H.
  - exists s, f. now rewrite advanceN_0.
  - simpl List.map in H. simpl app in H.
    apply inv_chr in H as (s1 & f1 & -> & H1 & ->).
    apply IH in H1 as (s' & f' & -> & H' & ->).
    exists s', f'. simpl. now rewrite advance_advanceN.
Qed.

Lemma inv_star g p r prev s f :
  matchSeq (Star g p :: r) prev s = Some f ->
  exists u s' f',
    s = u ++ s' /\ forallb p u = true
    /\ matchSeq r (lastOr prev u) s' = Some f'
    /\ f = advanceN (List.length u) f'.
Proof. apply starLoop_inv. Qed.

Lemma inv_star_lazy p r prev s f :
  matchSeq (Star false p :: r) prev s = Some f ->
  exists u s' f',
    s = u ++ s' /\ forallb p u = true
    /\ matchSeq r (lastOr prev u) s' = Some f'
    /\ f = advanceN (List.length u) f'
    /\ (forall u1 u2, u = u1 ++ u2 -> u2 <> [] ->
                      matchSeq r (lastOr prev u1) (u2 ++ s') = None).
Proof. apply starLoop_lazy_min. Qed.

Lemma inv_plus p r prev s f :
  matchSeq (Plus p :: r) prev s = Some f ->
  exists u s' f',
    s = u ++ s' /\ u <> [] /\ forallb p u = true
    /\ matchSeq r (lastOr prev u) s' = Some f'
    /\ f = advanceN (List.length u) f'.
Proof.
  simpl. destruct s as [|d s]; [discriminate|].
  destruct (p d) eqn:Hd; [|discriminate].
  intros H. apply option_map_some in H as (f0 & H0 & ->).
  apply starLoop_inv in H0 as (u & s' & f' & -> & Hu & Hk & ->).
  exists (d :: u), s', f'. simpl. rewrite Hd, Hu, advance_advanceN.
  repeat split; auto. discriminate.
Qed.

Lemma inv_open r prev s f :
  matchSeq (Open :: r) prev s = Some f ->
  exists f', matchSeq r prev s = Some f' /\ f = mark f'.
Proof. simpl. apply option_map_some. Qed.

Lemma inv_close r prev s f :
  matchSeq (Close :: r) prev s = Some f ->
  exists f', matchSeq r prev s = Some f' /\ f = mark f'.
Proof. simpl. apply option_map_some. Qed.

Lemma matchSeq_lit w : forall r prev s,
  matchSeq (List.map Chr w ++ r) prev (w ++ s)
  = option_map (advanceN (List.length w)) (matchSeq r (lastOr prev w) s).
Proof.
  induction w as [|c w IH]; intros r prev s; simpl.
  - destruct (matchSeq r prev s) as [f|]; simpl; [|reflexivity].
    now rewrite advanceN_0.
  - rewrite N.eqb_refl, IH.
    destruct (matchSeq r (lastOr (Some c) w) s) as [f|]; simpl; [|reflexivity].
    now rewrite advance_advanceN.
Qed.

Lemma complete_chr c r prev s :
  matchSeq r (Some c) s <> None ->
  matchSeq (Chr c :: r) prev (c :: s) <> None.
Proof.
  simpl. rewrite N.eqb_refl.
  destruct (matchSeq r (Some c) s); simpl; congruence.
Qed.

Lemma complete_lit w r prev s :
  matchSeq r (lastOr prev w) s <> None ->
  matchSeq (List.map Chr w ++ r) prev (w ++ s) <> None.
Proof.
  rewrite matchSeq_lit.
  destruct (matchSeq r (lastOr prev w) s); simpl; congruence.
Qed.

Lemma complete_star g p r prev u s :
  forallb p u = true ->
  matchSeq r (lastOr prev u) s <> None ->
  matchSeq (Star g p :: r) prev (u ++ s) <> None.
Proof. apply starLoop_complete. Qed.

Lemma complete_plus p r prev u s :
  u <> [] -> forallb p u = true ->
  matchSeq r (lastOr prev u) s <> None ->
  matchSeq (Plus p :: r) prev (u ++ s) <> None.
Proof.
  intros Hne Hu Hk. destruct u as [|c u]; [contradiction|].
  simpl in Hu. apply andb_prop in Hu as [Hc Hu].
  simpl. rewrite Hc.
  pose proof (@starLoop_complete p (matchSeq r) true u (Some c) s Hu Hk) as H.
  destruct (starLoop true p (matchSeq r) (Some c) (u ++ s)); simpl; congruence.
Qed.

Lemma complete_mark r prev s :
  matchSeq r prev s <> None ->
  matchSeq (Open :: r) prev s <> None /\ matchSeq (Close :: r) prev s <> None.
Proof.
  simpl. destruct (matchSeq r prev s); simpl; split; congruence.
Qed.

(** *** Search *)

Lemma prevOf_app_length pre s : prevOf (pre ++ s) (List.length pre) = lastOr None pre.
Proof.
  unfold prevOf. rewrite firstn_app, Nat.sub_diag, firstn_all. simpl.
  now rewrite app_nil_r.
Qed.

Lemma lastOr_snoc prev pre c : lastOr prev (pre ++ [c]) = Some c.
Proof. now rewrite lastOr_app. Qed.

Lemma searchFrom_spec r : forall s pre,
  match searchFrom r (lastOr None pre) s (List.length pre) with
  | Some m =>
      List.length pre <= index m <= List.length (pre ++ s)
      /\ (exists f, matchHere r (pre ++ s) (index m) = Some f
                    /\ m = matchAt (skipn (index m) (pre ++ s)) (index m) f)
      /\ (forall j, List.length pre <= j < index m ->
                    matchHere r (pre ++ s) j = None)
  | None =>
      forall j, List.length pre <= j <= List.length (pre ++ s) ->
                matchHere r (pre ++ s) j = None
  end.
Proof.
  induction s as [|c s IH]; intros pre.
  - simpl. rewrite app_nil_r.
    assert (Hhere : matchHere r pre (List.length pre)
                    = matchSeq r (lastOr None pre) []).
    { unfold matchHere, prevOf. now rewrite firstn_all, skipn_all. }
    destruct (matchSeq r (lastOr None pre) []) as [f|] eqn:E.
    + simpl. split; [lia|]. split; [|intros j Hj; lia].
      exists f. rewrite Hhere. split; [reflexivity|].
      now rewrite skipn_all.
    + intros j Hj. assert (j = List.length pre) as -> by lia.
      now rewrite Hhere.
  - assert (Hhere : matchHere r (pre ++ c :: s) (List.length pre)
                    = matchSeq r (lastOr None pre) (c :: s)).
    { unfold matchHere. rewrite prevOf_app_length.
      now rewrite skipn_app, skipn_all, Nat.sub_diag. }
    simpl. destruct (matchSeq r (lastOr None pre) (c :: s)) as [f|] eqn:E.
    + simpl. rewrite length_app. split; [lia|]. split; [|intros j Hj; lia].
      exists f. rewrite Hhere. split; [reflexivity|].
      now rewrite skipn_app, skipn_all, Nat.sub_diag.
    + specialize (IH (pre ++ [c])).
      rewrite lastOr_snoc, length_app in IH. simpl in IH.
      rewrite Nat.add_1_r, <- app_assoc in IH. simpl in IH.
      destruct (searchFrom r (Some c) s (S (List.length pre))) as [m|].
      * destruct IH as (Hi & Hf & Hmin). split; [lia|]. split; [exact Hf|].
        intros j Hj. destruct (Nat.eq_dec j (List.length pre)) as [->|Hne].
        -- now rewrite Hhere.
        -- apply Hmin. lia.
      * intros j Hj. destruct (Nat.eq_dec j (List.length pre)) as [->|Hne].
        -- now rewrite Hhere.
        -- apply IH. lia.
Qed.

Lemma exec_some r content lastIndex m :
  exec r content lastIndex = Some m ->
  lastIndex <= index m <= List.length content
  /\ (exists f, matchHere r content (index m) = Some f
                /\ m = matchAt (skipn (index m) content) (index m) f)
  /\ (forall j, lastIndex <= j < index m -> matchHere r content j = None).
Proof.
  unfold exec. destruct (Nat.ltb_spec (List.length content) lastIndex) as [H|H];
    [discriminate|].
  pose proof (searchFrom_spec r (skipn lastIndex content)
                (firstn lastIndex content)) as Hs.
  rewrite firstn_skipn, length_firstn, Nat.min_l in Hs by exact H.
  unfold prevOf. intros E. rewrite E in Hs. exact Hs.
Qed.

Lemma exec_none r content lastIndex :
  exec r content lastIndex = None ->
  forall j, lastIndex <= j <= List.length content ->
            matchHere r content j = None.
Proof.
  unfold exec. destruct (Nat.ltb_spec (List.length content) lastIndex) as [H|H].
  - intros _ j Hj. lia.
  - pose proof (searchFrom_spec r (skipn lastIndex content)
                  (firstn lastIndex content)) as Hs.
    rewrite firstn_skipn, length_firstn, Nat.min_l in Hs by exact H.
    unfold prevOf. intros E. rewrite E in Hs. exact Hs.
Qed.

(** *** The loop over the matches of a global pattern *)

Section ExecAll.
Variable r : regex.
Hypothesis nonEmpty :
  forall prev s f, matchSeq r prev s = Some f -> 1 <= fst f.

Lemma matched_length content i f :
  matchHere r content i = Some f ->
  List.length (matched (matchAt (skipn i content) i f)) = fst f
  /\ 1 <= fst f /\ i + fst f <= List.length content.
Proof.
  intros H. unfold matchHere in H.
  pose proof (nonEmpty _ _ H) as H1.
  pose proof (matchSeq_len_le _ _ _ H) as H2.
  rewrite length_skipn in H2.
  simpl. rewrite length_firstn, length_skipn. lia.
Qed.

Lemma execAll_total content : forall fuel lastIndex,
  List.length content - lastIndex < fuel ->
  exists ms, execAll fuel r content lastIndex = Some ms.
Proof.
  induction fuel as [|fuel IH]; intros lastIndex Hfuel; [lia|].
  simpl. destruct (exec r content lastIndex) as [m|] eqn:E.
  - apply exec_some in E as (Hi & (f & Hf & ->) & _).
    destruct (matched_length _ _ Hf) as (Hlen & H1 & H2).
    rewrite Hlen. simpl index in *.
    match goal with
    | |- context [execAll fuel r content ?L] =>
        destruct (IH L) as [ms ->]; [lia|]
    end.
    now eexists.
  - now exists [].
Qed.

Lemma execAll_spec content : forall fuel lastIndex ms,
  execAll fuel r content lastIndex = Some ms ->
  Forall (fun m => exists f,
            matchHere r content (index m) = Some f
            /\ m = matchAt (skipn (index m) content) (index m) f) ms
  /\ chain lastIndex ms
  /\ (forall j, lastIndex <= j <= List.length content ->
        matchHere r content j <> None ->
        exists m, In m ms
                  /\ index m <= j < index m + List.length (matched m)).
Proof.
  induction fuel as [|fuel IH]; intros lastIndex ms H; [discriminate|].
  simpl in H. destruct (exec r content lastIndex) as [m|] eqn:E.
  - destruct (execAll fuel r content (index m + List.length (matched m)))
      as [ms'|] eqn:E'; [|discriminate].
    injection H as <-.
    apply IH in E' as (Hall & Hchain & Hcomplete).
    apply exec_some in E as (Hi & (f & Hf & Hm) & Hmin).
    split; [|split].
    + constructor; [|exact Hall]. now exists f.
    + simpl. split; [lia|exact Hchain].
    + intros j Hj Hsome.
      destruct (Nat.lt_ge_cases j (index m)) as [Hlt|Hge].
      * exfalso. apply Hsome. apply Hmin. lia.
      * destruct (Nat.lt_ge_cases j (index m + List.length (matched m)))
          as [Hin|Hout].
        -- exists m. split; [now left|lia].
        -- destruct (Hcomplete j) as (m' & Hin' & Hj'); [lia|exact Hsome|].
           exists m'. split; [now right|exact Hj'].
  - injection H as <-. split; [constructor|]. split; [exact I|].
    intros j Hj Hsome. exfalso. apply Hsome.
    eapply exec_none; eassumption.
Qed.

End ExecAll.

End RegexFacts.

(* ================================================================= *)
(** ** The patterns of extractVariables *)

Module FieldFacts.
Import BlockExtractor Regex FieldParser Shapes RegexFacts.

Lemma firstn_app_exact (A : Type) (u v : list A) :
  firstn (List.length u) (u ++ v) = u.
Proof.
  rewrite firstn_app, Nat.sub_diag, firstn_all. simpl. apply app_nil_r.
Qed.

Lemma skipn_app_exact (A : Type) (u v : list A) :
  skipn (List.length u) (u ++ v) = v.
Proof.
  rewrite skipn_app, Nat.sub_diag, skipn_all. reflexivity.
Qed.


Lemma matchAt_parts a g b post s t i f :
  s = a ++ g ++ b ++ post ->
  t = a ++ g ++ b ->
  f = (List.length a + List.length g + List.length b,
       [List.length a; List.length a + List.length g]) ->
  matchAt s i f = mkMatch i t g.
Proof.
  intros -> -> ->. unfold matchAt, substring. simpl.
  f_equal.
  - replace (List.length a + List.length g + List.length b)
      with (List.length (a ++ g ++ b)) by (rewrite !length_app; lia).
    replace (a ++ g ++ b ++ post) with ((a ++ g ++ b) ++ post)
      by (now rewrite <- !app_assoc).
    apply firstn_app_exact.
  - rewrite skipn_app_exact.
    replace (List.length a + List.length g - List.length a)
      with (List.length g) by lia.
    apply firstn_app_exact.
Qed.




Lemma variableRegex_nonEmpty prev s f :
  matchSeq variableRegex prev s = Some f -> 1 <= fst f.
Proof.
  intros H. apply inv_chr in H as (s' & f' & _ & _ & ->). simpl. lia.
Qed.






Lemma matchHere_app r pre s :
  matchHere r (pre ++ s) (List.length pre) = matchSeq r (lastOr None pre) s.
Proof.
  unfold matchHere. now rewrite prevOf_app_length, skipn_app_exact.
Qed.

Lemma match_some r block m :
  match_ r block = Some m ->
  exists f,
    matchHere r block (index m) = Some f
    /\ m = matchAt (skipn (index m) block) (index m) f
    /\ (forall j, j < index m -> matchHere r block j = None).
Proof.
  intros H. apply exec_some in H as (_ & (f & Hf & Hm) & Hmin).
  exists f. repeat split; auto. intros j Hj. apply Hmin. lia.
Qed.

Lemma match_complete r pre s :
  matchSeq r (lastOr None pre) s <> None ->
  match_ r (pre ++ s) <> None.
Proof.
  intros H E. apply H. rewrite <- matchHere_app.
  apply (@exec_none _ _ _ E). rewrite length_app. lia.
Qed.

(** A pattern that begins with a literal word matches only where the word
    is. *)
Lemma match_lit_substring w r block :
  match_ (List.map Chr w ++ r) block <> None -> Substring w block.
Proof.
  destruct (match_ (List.map Chr w ++ r) block) as [m|] eqn:E;
    [intros _|congruence].
  apply match_some in E as (f & Hf & _ & _).
  unfold matchHere in Hf. apply inv_lit in Hf as (s' & _ & Hs & _).
  exists (firstn (index m) block), s'.
  rewrite <- Hs. symmetry. apply firstn_skipn.
Qed.

Lemma inv_wordb r prev s f :
  matchSeq (WordB :: r) prev s = Some f ->
  xorb (wordO prev) (wordO (hd_error s)) = true
  /\ matchSeq r prev s = Some f.
Proof.
  cbn [matchSeq]. destruct (xorb _ _); [auto|discriminate].
Qed.

Lemma complete_wordb r prev s :
  xorb (wordO prev) (wordO (hd_error s)) = true ->
  matchSeq r prev s <> None ->
  matchSeq (WordB :: r) prev s <> None.
Proof. cbn [matchSeq]. now intros ->. Qed.

(** *** [defaultRegex] *)

Lemma defaultRegex_inv prev s f :
  matchSeq defaultRegex prev s = Some f ->
  wordO prev = false
  /\ exists ws post, s = js "default" ++ ws ++ c_equals :: post /\ spaces ws.
Proof.
  unfold defaultRegex, lit. intros H.
  apply inv_wordb in H as (Hb & H).
  apply inv_lit in H as (s1 & f1 & -> & H & ->).
  apply inv_star in H as (ws & s2 & f2 & -> & Hws & H & ->).
  apply inv_chr in H as (post & f3 & -> & _ & ->).
  split; [|now exists ws, post].
  simpl in Hb. now destruct (wordO prev).
Qed.

Lemma defaultRegex_complete prev ws post :
  wordO prev = false -> spaces ws ->
  matchSeq defaultRegex prev (js "default" ++ ws ++ c_equals :: post) <> None.
Proof.
  intros Hp Hws. unfold defaultRegex, lit.
  apply complete_wordb; [now rewrite Hp|].
  apply complete_lit. apply complete_star; auto.
  apply complete_chr. discriminate.
Qed.

Lemma parseHasDefault_iff block :
  parseHasDefault block = true <-> DefaultOccurs block.
Proof.
  unfold parseHasDefault, test. split.
  - destruct (match_ defaultRegex block) as [m|] eqn:E; [intros _|discriminate].
    apply match_some in E as (f & Hf & _ & _).
    apply defaultRegex_inv in Hf as (Hp & ws & post & Hs & Hws).
    exists (firstn (index m) block), ws, post. repeat split; auto.
    rewrite <- Hs. symmetry. apply firstn_skipn.
  - intros (pre & ws & post & -> & Hws & Hp).
    pose proof (@match_complete defaultRegex pre
                  (js "default" ++ ws ++ c_equals :: post)
                  (defaultRegex_complete _ post Hp Hws)) as H.
    now destruct (match_ defaultRegex _).
Qed.

(** *** [validationRegex] *)

Lemma validationRegex_parts :
  validationRegex
  = lit "validation"
    ++ [Star true isSpace; Chr c_lbrace; Star false anyChar] ++ conditionTail.
Proof. reflexivity. Qed.


Lemma anyChar_all u : forallb anyChar u = true.
Proof.
  induction u as [|c u IH]; simpl; [reflexivity|].
  rewrite IH. unfold anyChar. now destruct (isSpace c).
Qed.

Ltac shape_eq :=
  unfold validationText, conditionText, errorLine, fullBlockText, closingLine,
         descriptionText;
  repeat (rewrite <- !app_assoc || rewrite <- !app_comm_cons);
  cbn [app]; reflexivity.

(** The shortest repetition: a text that the rest of the pattern matches
    does not start inside of [u]. *)
Lemma lazy_min_length (k : option char -> jsstring -> option found)
    prev u s' :
  (forall u1 u2, u = u1 ++ u2 -> u2 <> [] ->
                 k (lastOr prev u1) (u2 ++ s') = None) ->
  forall c1 t,
    u ++ s' = c1 ++ t ->
    (forall prev', k prev' t <> None) ->
    List.length u <= List.length c1.
Proof.
  intros Hmin c1 t E Hk.
  destruct (Nat.le_gt_cases (List.length u) (List.length c1)) as [Hle|Hgt];
    [exact Hle|].
  exfalso.
  apply app_eq_app in E as [l [[Hu Ht]|[Hc Hs]]].
  - destruct l as [|x l].
    + rewrite app_nil_r in Hu. subst u. lia.
    + apply (Hk (lastOr prev c1)). rewrite Ht.
      apply (Hmin c1 (x :: l)); [exact Hu|discriminate].
  - subst c1. rewrite length_app in Hgt. lia.
Qed.

Lemma errorTail_complete prev w rest :
  spaces w -> matchSeq errorTail prev (errorLine w ++ rest) <> None.
Proof.
  intros Hw. unfold errorTail, errorLine.
  replace ((c_newline :: w ++ js "error_message") ++ rest)
    with (c_newline :: w ++ js "error_message" ++ rest) by shape_eq.
  cbn [app]. apply complete_chr. apply complete_star; [exact Hw|].
  rewrite <- (app_nil_r (js "error_message" ++ rest)), <- app_assoc.
  rewrite <- (app_nil_r (lit "error_message")).
  apply complete_lit. discriminate.
Qed.

Lemma errorTail_inv prev s f :
  matchSeq errorTail prev s = Some f ->
  exists w rest,
    s = errorLine w ++ rest /\ spaces w
    /\ f = (List.length (errorLine w), []).
Proof.
  unfold errorTail. cbn [app]. intros H.
  apply inv_chr in H as (s1 & f1 & -> & H & ->).
  apply inv_star in H as (w & s2 & f2 & -> & Hw & H & ->).
  rewrite <- (app_nil_r (lit "error_message")) in H.
  apply inv_lit in H as (rest & f3 & -> & H & ->).
  simpl in H. injection H as <-.
  exists w, rest. repeat split; auto.
  - shape_eq.
  - unfold errorLine, advanceN, advance. simpl.
    rewrite length_app. simpl. apply f_equal2; [lia|reflexivity].
Qed.

Lemma conditionTail_complete prev ws2 ws3 cap ws4 rest :
  spaces ws2 -> spaces ws3 -> spaces ws4 ->
  matchSeq conditionTail prev (conditionText ws2 ws3 cap ws4 ++ rest) <> None.
Proof.
  intros H2 H3 H4. unfold conditionTail.
  replace (conditionText ws2 ws3 cap ws4 ++ rest)
    with (js "condition"
          ++ ws2 ++ c_equals :: ws3 ++ cap ++ errorLine ws4 ++ rest)
    by shape_eq.
  apply complete_lit. cbn [app].
  apply complete_star; [exact H2|]. apply complete_chr.
  apply complete_star; [exact H3|]. apply complete_mark.
  apply complete_star; [apply anyChar_all|]. apply complete_mark.
  now apply errorTail_complete.
Qed.

Lemma conditionTail_inv prev s f :
  matchSeq conditionTail prev s = Some f ->
  exists ws2 ws3 cap ws4 rest,
    s = conditionText ws2 ws3 cap ws4 ++ rest
    /\ spaces ws2 /\ spaces ws3 /\ spaces ws4
    /\ f = (List.length (conditionText ws2 ws3 cap ws4),
            [List.length (js "condition" ++ ws2 ++ c_equals :: ws3);
             List.length (js "condition" ++ ws2 ++ c_equals :: ws3)
             + List.length cap])
    /\ (forall c1 w t,
          spaces w ->
          cap ++ errorLine ws4 ++ rest = c1 ++ errorLine w ++ t ->
          List.length cap <= List.length c1).
Proof.
  unfold conditionTail. intros H.
  apply inv_lit in H as (s1 & f1 & -> & H & ->). cbn [app] in H.
  apply inv_star in H as (ws2 & s2 & f2 & -> & H2 & H & ->).
  apply inv_chr in H as (s3 & f3 & -> & H & ->).
  apply inv_star in H as (ws3 & s4 & f4 & -> & H3 & H & ->).
  apply inv_open in H as (f5 & H & ->).
  apply inv_star_lazy in H as (cap & s6 & f6 & -> & _ & H & -> & Hmin).
  apply inv_close in H as (f7 & H & ->).
  apply errorTail_inv in H as (ws4 & rest & -> & H4 & ->).
  exists ws2, ws3, cap, ws4, rest. repeat split; auto.
  - shape_eq.
  - unfold conditionText, errorLine, advanceN, advance, mark. simpl.
    repeat (rewrite length_app; simpl).
    apply f_equal2; [lia|].
    apply f_equal2; [lia|]. apply f_equal2; [lia|reflexivity].
  - intros c1 w t Hw E.
    apply (lazy_min_length _ _ _ Hmin _ _ E).
    intros prev'. cbn [matchSeq].
    pose proof (@errorTail_complete prev' w t Hw) as Hc.
    destruct (matchSeq errorTail prev' (errorLine w ++ t)); simpl; congruence.
Qed.


Lemma validationRegex_inv prev s f i :
  matchSeq validationRegex prev s = Some f ->
  exists ws1 mid ws2 ws3 cap ws4 rest,
    s = validationText ws1 mid ws2 ws3 cap ws4 ++ rest
    /\ spaces ws1 /\ spaces ws2 /\ spaces ws3 /\ spaces ws4
    /\ matchAt s i f
       = mkMatch i (validationText ws1 mid ws2 ws3 cap ws4) cap
    /\ (forall c1 w t,
          spaces w ->
          cap ++ errorLine ws4 ++ rest = c1 ++ errorLine w ++ t ->
          List.length cap <= List.length c1)
    /\ (forall m1 ws2' ws3' cap' ws4' t,
          spaces ws2' -> spaces ws3' -> spaces ws4' ->
          mid ++ conditionText ws2 ws3 cap ws4 ++ rest
          = m1 ++ conditionText ws2' ws3' cap' ws4' ++ t ->
          List.length mid <= List.length m1).
Proof.
  rewrite validationRegex_parts. intros H.
  apply inv_lit in H as (s1 & f1 & -> & H & ->). cbn [app] in H.
  apply inv_star in H as (ws1 & s2 & f2 & -> & H1 & H & ->).
  apply inv_chr in H as (s3 & f3 & -> & H & ->).
  apply inv_star_lazy in H as (mid & s4 & f4 & -> & _ & H & -> & Hmid).
  apply conditionTail_inv in H
    as (ws2 & ws3 & cap & ws4 & rest & -> & H2 & H3 & H4 & -> & Hcap).
  exists ws1, mid, ws2, ws3, cap, ws4, rest.
  split; [|split; [|split; [|split; [|split; [|split; [|split]]]]]]; auto.
  - unfold validationText.
    repeat (rewrite <- !app_assoc || rewrite <- !app_comm_cons). reflexivity.
  - apply (@matchAt_parts
             (js "validation" ++ ws1 ++ c_lbrace :: mid
              ++ js "condition" ++ ws2 ++ c_equals :: ws3)
             cap (errorLine ws4) rest).
    + shape_eq.
    + shape_eq.
    + unfold conditionText, errorLine, advanceN, advance. simpl.
      repeat (rewrite length_app; simpl).
      apply f_equal2; [lia|].
      apply f_equal2; [lia|]. apply f_equal2; [lia|reflexivity].
  - intros m1 ws2' ws3' cap' ws4' t H2' H3' H4' E.
    apply (lazy_min_length _ _ _ Hmid _ _ E).
    intros prev'. now apply conditionTail_complete.
Qed.





(** *** [descriptionRegex] *)

Lemma descriptionRegex_inv prev s f i :
  matchSeq descriptionRegex prev s = Some f ->
  exists ws1 ws2 text rest,
    s = descriptionText ws1 ws2 text ++ rest
    /\ spaces ws1 /\ spaces ws2
    /\ text <> [] /\ forallb notQuote text = true
    /\ matchAt s i f = mkMatch i (descriptionText ws1 ws2 text) text.
Proof.
  unfold descriptionRegex. intros H.
  apply inv_lit in H as (s1 & f1 & -> & H & ->). cbn [app] in H.
  apply inv_star in H as (ws1 & s2 & f2 & -> & H1 & H & ->).
  apply inv_chr in H as (s3 & f3 & -> & H & ->).
  apply inv_star in H as (ws2 & s4 & f4 & -> & H2 & H & ->).
  apply inv_chr in H as (s5 & f5 & -> & H & ->).
  apply inv_open in H as (f6 & H & ->).
  apply inv_plus in H as (text & s7 & f7 & -> & Hne & Ht & H & ->).
  apply inv_close in H as (f8 & H & ->).
  apply inv_chr in H as (rest & f9 & -> & H & ->).
  simpl in H. injection H as <-.
  exists ws1, ws2, text, rest.
  split; [|split; [|split; [|split; [|split]]]]; auto.
  - shape_eq.
  - apply (@matchAt_parts
             (js "description" ++ ws1 ++ c_equals :: ws2 ++ [c_quote])
             text [c_quote] rest).
    + shape_eq.
    + shape_eq.
    + unfold advanceN, advance, mark. simpl.
      repeat (rewrite length_app; simpl).
      apply f_equal2; [lia|].
      apply f_equal2; [lia|]. apply f_equal2; [lia|reflexivity].
Qed.

Lemma descriptionRegex_complete prev ws1 ws2 text rest :
  spaces ws1 -> spaces ws2 -> text <> [] -> forallb notQuote text = true ->
  matchSeq descriptionRegex prev (descriptionText ws1 ws2 text ++ rest)
  <> None.
Proof.
  intros H1 H2 Hne Ht. unfold descriptionRegex.
  replace (descriptionText ws1 ws2 text ++ rest)
    with (js "description"
          ++ ws1 ++ c_equals :: ws2 ++ c_quote :: text ++ c_quote :: rest)
    by shape_eq.
  apply complete_lit. cbn [app].
  apply complete_star; [exact H1|]. apply complete_chr.
  apply complete_star; [exact H2|]. apply complete_chr.
  apply complete_mark. apply complete_plus; auto.
  apply complete_mark. apply complete_chr. discriminate.
Qed.

(** *** [trim] *)

Lemma trimStart_spaces a s : spaces a -> trimStart (a ++ s) = trimStart s.
Proof.
  unfold spaces. induction a as [|c a IH]; simpl; [reflexivity|].
  intros H. apply andb_prop in H as [Hc Ha]. rewrite Hc. now apply IH.
Qed.

Lemma trimStart_all_spaces a : spaces a -> trimStart a = [].
Proof.
  intros H. rewrite <- (app_nil_r a). now rewrite trimStart_spaces.
Qed.

Lemma trimStart_app s b :
  forallb isSpace s = false -> trimStart (s ++ b) = trimStart s ++ b.
Proof.
  induction s as [|c s IH]; simpl; [discriminate|].
  destruct (isSpace c); simpl; [exact IH|reflexivity].
Qed.

Lemma spaces_rev b : spaces b -> spaces (rev b).
Proof.
  unfold spaces. rewrite !forallb_forall. intros H x Hx.
  apply H. now apply in_rev.
Qed.

Lemma spaces_app a b : spaces a -> spaces b -> spaces (a ++ b).
Proof. unfold spaces. intros Ha Hb. now rewrite forallb_app, Ha, Hb. Qed.

Lemma trim_spaces_around a s b :
  spaces a -> spaces b -> trim (a ++ s ++ b) = trim s.
Proof.
  intros Ha Hb. unfold trim. rewrite (@trimStart_spaces a _ Ha).
  destruct (forallb isSpace s) eqn:Hs.
  - rewrite (trimStart_all_spaces (spaces_app Hs Hb)).
    now rewrite (trimStart_all_spaces Hs).
  - rewrite (@trimStart_app s b Hs), rev_app_distr.
    now rewrite (@trimStart_spaces (rev b) _ (spaces_rev Hb)).
Qed.

(** *** Fields without a match *)

Lemma DefaultOccurs_substring block :
  DefaultOccurs block -> Substring (js "default") block.
Proof.
  intros (pre & ws & post & -> & _ & _).
  now exists pre, (ws ++ c_equals :: post).
Qed.

Lemma parseValidation_none_iff block :
  parseValidation block = None <-> match_ validationRegex block = None.
Proof.
  unfold parseValidation.
  destruct (match_ validationRegex block); split; congruence.
Qed.

Lemma field_defaults block :
  (~ Substring (js "default") block -> parseHasDefault block = false)
  /\ (~ Substring (js "validation") block -> parseValidation block = None)
  /\ (~ Substring (js "error_message") block -> parseValidation block = None)
  /\ (~ Substring (js "description") block -> parseDescription block = []).
Proof.
  split; [|split; [|split]].
  - intros Hno. destruct (parseHasDefault block) eqn:E; [|reflexivity].
    exfalso. apply Hno, DefaultOccurs_substring.
    now apply parseHasDefault_iff.
  - intros Hno. apply parseValidation_none_iff.
    destruct (match_ validationRegex block) eqn:E; [|reflexivity].
    exfalso. apply Hno.
    apply (@match_lit_substring (js "validation")
             ([Star true isSpace; Chr c_lbrace; Star false anyChar]
              ++ conditionTail)).
    change (match_ validationRegex block <> None). congruence.
  - intros Hno. apply parseValidation_none_iff.
    destruct (match_ validationRegex block) as [m|] eqn:E; [|reflexivity].
    exfalso. apply Hno.
    apply match_some in E as (f & Hf & _ & _).
    unfold matchHere in Hf.
    apply (@validationRegex_inv _ _ _ 0) in Hf
      as (ws1 & mid & ws2 & ws3 & cap & ws4 & rest & Hs & _).
    exists (firstn (index m) block
            ++ js "validation" ++ ws1 ++ c_lbrace :: mid
            ++ js "condition" ++ ws2 ++ c_equals :: ws3 ++ cap
            ++ c_newline :: ws4), rest.
    rewrite <- (firstn_skipn (index m) block) at 1. rewrite Hs.
    shape_eq.
  - intros Hno. unfold parseDescription.
    destruct (match_ descriptionRegex block) eqn:E; [|reflexivity].
    exfalso. apply Hno.
    apply (@match_lit_substring (js "description")
             [Star true isSpace; Chr c_equals; Star true isSpace;
              Chr c_quote; Open; Plus notQuote; Close; Chr c_quote]).
    change (match_ descriptionRegex block <> None). congruence.
Qed.

End FieldFacts.

Module HeaderClaims.
Import BlockExtractor Regex FieldParser Shapes RegexFacts FieldFacts.



End HeaderClaims.

Module FieldClaims.
Import BlockExtractor Regex FieldParser Shapes AsSpecified.
Import RegexFacts FieldFacts BlockFacts BlockClaims Examples.

(** C5.  The [hasDefault] flag of a parsed variable is the result of the
    test of its block text against the default pattern; it is [false]
    exactly when the block has no occurrence of the token [default] (not
    preceded by a word character), optional whitespace and the equals sign,
    and [true] when there is one, whatever follows the equals sign. *)
Theorem parseHasDefault_spec :
  forall block : jsstring,
    (forall content m,
        parseVariableBlock content (blockStart m) = block ->
        hasDefault (variableOf content m) = parseHasDefault block)
    /\ (parseHasDefault block = false <-> ~ DefaultOccurs block)
    /\ (parseHasDefault block = true <-> DefaultOccurs block)
    /\ (forall pre ws value,
          block = pre ++ js "default" ++ ws ++ c_equals :: value ->
          spaces ws -> wordO (lastOr None pre) = false ->
          parseHasDefault block = true).
Proof.
  intros block. split; [|split; [|split]].
  - intros content m <-. reflexivity.
  - rewrite <- parseHasDefault_iff.
    destruct (parseHasDefault block); split; congruence.
  - apply parseHasDefault_iff.
  - intros pre ws value -> Hws Hp. apply parseHasDefault_iff.
    now exists pre, ws, value.
Qed.

(** The word [default] inside of a longer word is no default clause. *)
Example hasDefault_word_boundary :
  parseHasDefault (hcl "{
  description = 'my_default = 1'
}") = false
  /\ parseHasDefault (hcl "{
  description = 'the default = 1'
}") = true.
Proof. vm_compute. split; reflexivity. Qed.

(** An explicit null default counts as a default. *)
Example hasDefault_null :
  option_map (List.map hasDefault)
    (extractVariables (hcl "variable 'a' {
  type    = string
  default = null
}"))
  = Some [true].
Proof. vm_compute. reflexivity. Qed.



(** C7.  When the end of the text comes before the brace counter is back
    at zero, [parseVariableBlock] returns the text from the first opening
    brace at or after the start index to the end of the text; the field
    parsers are total on it: a field whose keyword is not in this text
    takes its default ([false], [null], the empty string), and so does the
    validation when the text stops before [error_message]. *)
Theorem truncated_block_degrades :
  forall (content : jsstring) (startIndex : Z),
    unclosed (skipn (Z.to_nat startIndex) content) ->
    parseVariableBlock content startIndex
    = fromFirstBrace (skipn (Z.to_nat startIndex) content)
    /\ (exists pre,
          skipn (Z.to_nat startIndex) content
          = pre ++ parseVariableBlock content startIndex
          /\ ~ In c_lbrace pre)
    /\ (forall m,
          blockStart m = startIndex ->
          exists d v t,
            variableOf content m = mkVariable (group1 m) d v t
            /\ (~ Substring (js "default")
                  (parseVariableBlock content startIndex) -> d = false)
            /\ (~ Substring (js "validation")
                  (parseVariableBlock content startIndex) -> v = None)
            /\ (~ Substring (js "error_message")
                  (parseVariableBlock content startIndex) -> v = None)
            /\ (~ Substring (js "description")
                  (parseVariableBlock content startIndex) -> t = [])).
Proof.
  intros content startIndex Hu.
  pose proof (@parseVariableBlock_unclosed content startIndex Hu) as Hblock.
  split; [exact Hblock|]. split.
  - rewrite Hblock. apply fromFirstBrace_split.
  - intros m Hm. unfold variableOf. rewrite Hm.
    eexists _, _, _. split; [reflexivity|].
    apply field_defaults.
Qed.

Lemma truncated_block_degrades_witness :
  unclosed (skipn (Z.to_nat 13) truncatedFile)
  /\ parseVariableBlock truncatedFile 13
     = fromFirstBrace (skipn (Z.to_nat 13) truncatedFile).
Proof.
  assert (Hu : unclosed (skipn (Z.to_nat 13) truncatedFile))
    by (apply staysOpen_unclosed; vm_compute; reflexivity).
  split; [exact Hu|].
  exact (proj1 (truncated_block_degrades truncatedFile 13 Hu)).
Defined.

(** The variable of the truncated file: no default, no validation, no
    description. *)
Example truncated_variable :
  extractVariables truncatedFile
  = Some [mkVariable (js "a") false None []].
Proof. vm_compute. reflexivity. Qed.

End FieldClaims.

(* ================================================================= *)
(** ** Classification *)

Module ClassifierClaims.
Import BlockExtractor Regex FieldParser Shapes Classifier Synthesizer Examples.

Lemma filter_Subsequence (A : Type) (f : A -> bool) l :
  Subsequence (filter f l) l.
Proof.
  induction l as [|x l IH]; simpl; [constructor|].
  destruct (f x); now constructor.
Qed.

Lemma category_eqb_eq a b : category_eqb a b = true <-> a = b.
Proof. destruct a, b; simpl; split; congruence. Qed.

Lemma listOf_filter c variables :
  listOf c (classify variables)
  = filter (fun v => category_eqb (categoryOf v) c) variables.
Proof.
  destruct c; simpl; apply filter_ext; intros v; unfold categoryOf;
    destruct (hasDefault v), (hasValidation v); reflexivity.
Qed.

Lemma in_listOf c variables v :
  In v (listOf c (classify variables)) <-> In v variables /\ categoryOf v = c.
Proof.
  rewrite listOf_filter, filter_In. now rewrite category_eqb_eq.
Qed.

(** C1.  [classify] (the four filters of [prepareContext]) follows the
    decision table: the list of a category holds the variables whose
    default and validation flags the table sends to this category, in the
    order of the input.  A variable is in the list of its category and in
    no other list, and the four lengths add up to the number of
    variables. *)
Theorem classify_partition :
  forall variables : list TfVariable,
    (decisionTable false false = Required
     /\ decisionTable false true = Trigger
     /\ decisionTable true true = Conditional
     /\ decisionTable true false = Optional)
    /\ (forall c,
          listOf c (classify variables)
          = filter (fun v => category_eqb
                               (decisionTable (hasDefault v) (hasValidation v))
                               c) variables)
    /\ (forall c v,
          In v (listOf c (classify variables))
          <-> In v variables
              /\ decisionTable (hasDefault v) (hasValidation v) = c)
    /\ (forall c1 c2 v,
          In v (listOf c1 (classify variables)) ->
          In v (listOf c2 (classify variables)) -> c1 = c2)
    /\ List.length (requiredVars (classify variables))
       + List.length (triggerVars (classify variables))
       + List.length (conditionalVars (classify variables))
       + List.length (optionalVars (classify variables))
       = List.length variables
    /\ (forall c, Subsequence (listOf c (classify variables)) variables).
Proof.
  intros variables. split; [repeat split|].
  split; [intros c; apply listOf_filter|].
  split; [intros c v; apply in_listOf|].
  split; [|split].
  - intros c1 c2 v H1 H2.
    apply in_listOf in H1 as [_ <-]. apply in_listOf in H2 as [_ <-].
    reflexivity.
  - simpl. induction variables as [|v vs IH]; [reflexivity|].
    simpl. destruct (hasDefault v), (hasValidation v); simpl; lia.
  - intros c. rewrite listOf_filter. apply filter_Subsequence.
Qed.

(** The four categories of a module. *)
Example classify_sample :
  option_map (fun ctx =>
                (List.map name (requiredVars ctx),
                 List.map name (triggerVars ctx),
                 List.map name (conditionalVars ctx),
                 List.map name (optionalVars ctx)))
             (prepareContext [sampleModule])
  = Some ([js "zone"], [js "mode"], [js "a_days"], [js "size"]).
Proof. vm_compute. reflexivity. Qed.

(** The loop of [extractVariables] ends within its bound, for every
    text; so does [prepareContext], for every list of files. *)
Lemma extractVariables_total content :
  exists vs, extractVariables content = Some vs.
Proof.
  destruct (@RegexFacts.execAll_total variableRegex
              FieldFacts.variableRegex_nonEmpty content
              (loopBound content) 0) as [ms Hms];
    [unfold loopBound; lia|].
  unfold extractVariables, extractVariablesWith. rewrite Hms.
  now eexists.
Qed.

Lemma prepareContext_total contents :
  exists ctx, prepareContext contents = Some ctx.
Proof.
  unfold prepareContext.
  assert (H : exists vs, collect contents = Some vs).
  { induction contents as [|content contents [ws IH]]; simpl.
    - now eexists.
    - destruct (extractVariables_total content) as [vs ->].
      rewrite IH. now eexists. }
  destruct H as [vs ->]. now eexists.
Qed.

Lemma headers_nil_extract content :
  headers content = Some [] -> extractVariables content = Some [].
Proof.
  unfold headers, headersWith, extractVariables, extractVariablesWith.
  destruct (execAll (loopBound content) variableRegex content 0) as [ms|];
    [|discriminate].
  destruct ms; [reflexivity|discriminate].
Qed.

Lemma collect_nil contents :
  Forall (fun content => headers content = Some []) contents ->
  collect contents = Some [].
Proof.
  induction 1 as [|content contents H _ IH]; simpl; [reflexivity|].
  now rewrite (headers_nil_extract _ H), IH.
Qed.

(** C9.  When no header is found in any file of the module, the context
    has no variable and four empty category lists, and the basic usage
    block is the empty string; every step returns a value. *)
Theorem empty_pipeline :
  forall (localeCompare : jsstring -> jsstring -> comparison)
         (contents : list jsstring),
    Forall (fun content => headers content = Some []) contents ->
    exists ctx,
      prepareContext contents = Some ctx
      /\ variables ctx = []
      /\ requiredVars ctx = [] /\ triggerVars ctx = []
      /\ conditionalVars ctx = [] /\ optionalVars ctx = []
      /\ basicUsageBlock localeCompare (requiredVars ctx) (triggerVars ctx)
         = [].
Proof.
  intros localeCompare contents H.
  exists (classify []). unfold prepareContext.
  rewrite (collect_nil H). repeat split.
Qed.

Lemma empty_pipeline_witness :
  Forall (fun content => headers content = Some []) noVariables
  /\ exists ctx,
       prepareContext noVariables = Some ctx
       /\ variables ctx = []
       /\ requiredVars ctx = [] /\ triggerVars ctx = []
       /\ conditionalVars ctx = [] /\ optionalVars ctx = []
       /\ basicUsageBlock codeUnitCompare (requiredVars ctx) (triggerVars ctx)
          = [].
Proof.
  assert (H : Forall (fun content => headers content = Some []) noVariables)
    by (repeat constructor).
  split; [exact H|].
  exact (empty_pipeline codeUnitCompare H).
Defined.

End ClassifierClaims.

(* ================================================================= *)
(** ** Usage blocks *)

Module SynthFacts.
Import FieldParser Classifier Synthesizer ClassifierClaims.

Lemma str_eqb_eq a : forall b, str_eqb a b = true <-> a = b.
Proof.
  induction a as [|x a IH]; intros [|y b]; simpl; split; try congruence.
  - intros H. apply andb_prop in H as [Hx Hab].
    apply N.eqb_eq in Hx. apply IH in Hab. congruence.
  - intros [= -> ->]. rewrite N.eqb_refl. now apply IH.
Qed.

Lemma includes_In l x : includes l x = true <-> In x l.
Proof.
  unfold includes. rewrite existsb_exists. split.
  - intros (y & Hy & E). apply str_eqb_eq in E. now subst.
  - intros H. exists x. split; [exact H|now apply str_eqb_eq].
Qed.





Lemma replaceUnderscores_clean n : ~ In c_underscore (replaceUnderscores n).
Proof.
  unfold replaceUnderscores. intros H. apply in_map_iff in H as (c & E & _).
  destruct (N.eqb c c_underscore) eqn:Hc; [discriminate|].
  apply N.eqb_neq in Hc. congruence.
Qed.

(** *** Sorting *)

Section SortFacts.
Variable cmp : jsstring -> jsstring -> comparison.
Variable A : Type.
Variable key : A -> jsstring.

Lemma insertBy_perm x l : Permutation (insertBy cmp key x l) (x :: l).
Proof.
  induction l as [|y l IH]; simpl; [apply Permutation_refl|].
  destruct (cmp (key x) (key y)); try apply Permutation_refl.
  rewrite IH. apply perm_swap.
Qed.

Lemma sortBy_perm l : Permutation (sortBy cmp key l) l.
Proof.
  induction l as [|x l IH]; simpl; [constructor|].
  rewrite insertBy_perm. now constructor.
Qed.

Hypothesis Hcmp : ConsistentComparator cmp.

Lemma keyLe_trans a b c :
  keyLe cmp key a b -> keyLe cmp key b c -> keyLe cmp key a c.
Proof. unfold keyLe, nameLe. apply (cmp_trans Hcmp). Qed.

Lemma keyLe_of_Gt a b : cmp (key a) (key b) = Gt -> keyLe cmp key b a.
Proof.
  unfold keyLe, nameLe. intros H. rewrite (cmp_sym Hcmp), H. discriminate.
Qed.

Lemma insertBy_sorted x l :
  StronglySorted (keyLe cmp key) l -> StronglySorted (keyLe cmp key) (insertBy cmp key x l).
Proof.
  induction 1 as [|y l Hs IH Hall]; simpl.
  - constructor; constructor.
  - destruct (cmp (key x) (key y)) eqn:E.
    + constructor; [now constructor|].
      assert (Hxy : keyLe cmp key x y) by (unfold keyLe, nameLe; congruence).
      constructor; [exact Hxy|].
      eapply Forall_impl; [|exact Hall].
      intros z Hz. now apply (keyLe_trans Hxy).
    + constructor; [now constructor|].
      assert (Hxy : keyLe cmp key x y) by (unfold keyLe, nameLe; congruence).
      constructor; [exact Hxy|].
      eapply Forall_impl; [|exact Hall].
      intros z Hz. now apply (keyLe_trans Hxy).
    + constructor; [exact IH|].
      apply (@Permutation_Forall _ _ (x :: l)).
      * symmetry. apply insertBy_perm.
      * constructor; [now apply keyLe_of_Gt|exact Hall].
Qed.

Lemma sortBy_sorted l : StronglySorted (keyLe cmp key) (sortBy cmp key l).
Proof.
  induction l as [|x l IH]; simpl; [constructor|].
  now apply insertBy_sorted.
Qed.

End SortFacts.

Section SortedNames.
Variable cmp : jsstring -> jsstring -> comparison.
Hypothesis Hcmp : ConsistentComparator cmp.

(** Two names that are each before the other compare equal. *)
Lemma nameLe_tie a b : nameLe cmp a b -> nameLe cmp b a -> cmp a b = Eq.
Proof.
  unfold nameLe. intros Hab Hba. rewrite (cmp_sym Hcmp) in Hba.
  destruct (cmp a b); simpl in *; congruence.
Qed.

(** Two sorted lists of the same names, which the comparator tells
    apart, are the same list. *)
Lemma sorted_perm_eq l1 : forall l2,
  Distinguishes cmp l1 ->
  StronglySorted (nameLe cmp) l1 -> StronglySorted (nameLe cmp) l2 ->
  Permutation l1 l2 -> l1 = l2.
Proof.
  induction l1 as [|x l1 IH]; intros l2 Hd H1 H2 Hp.
  - apply Permutation_nil in Hp. now subst.
  - destruct l2 as [|y l2];
      [apply Permutation_sym, Permutation_nil in Hp; discriminate|].
    inversion H1 as [|? ? Hs1 Hall1]; subst.
    inversion H2 as [|? ? Hs2 Hall2]; subst.
    rewrite Forall_forall in Hall1, Hall2.
    assert (Hy : In y (x :: l1))
      by (apply (Permutation_in _ (Permutation_sym Hp)); now left).
    assert (Hxy : x = y).
    { assert (Hx : In x (y :: l2))
        by (apply (Permutation_in _ Hp); now left).
      destruct Hx as [->|Hx]; [reflexivity|].
      destruct Hy as [->|Hy']; [reflexivity|].
      apply Hd; [now left|now right|].
      apply nameLe_tie; [now apply Hall1|now apply Hall2]. }
    subst y. f_equal. apply IH; auto.
    + intros a b Ha Hb. apply Hd; now right.
    + now apply Permutation_cons_inv in Hp.
Qed.

Lemma sorted_map (A : Type) (key : A -> jsstring) l :
  StronglySorted (keyLe cmp key) l -> StronglySorted (nameLe cmp) (List.map key l).
Proof.
  induction 1 as [|x l Hs IH Hall]; simpl; constructor; [exact IH|].
  apply Forall_map. exact Hall.
Qed.

Lemma Distinguishes_perm l l' :
  Permutation l l' -> Distinguishes cmp l -> Distinguishes cmp l'.
Proof.
  intros Hp Hd a b Ha Hb.
  apply Hd; apply (Permutation_in _ (Permutation_sym Hp)); assumption.
Qed.

(** The names of a sorted list do not depend on the order of the list
    that is sorted, when the comparator tells the names apart. *)
Lemma sortBy_names_perm (A : Type) (key : A -> jsstring) l l' :
  Distinguishes cmp (List.map key l) ->
  Permutation (List.map key l) (List.map key l') ->
  List.map key (sortBy cmp key l) = List.map key (sortBy cmp key l').
Proof.
  intros Hd Hp. apply sorted_perm_eq.
  - apply (@Distinguishes_perm (List.map key l)); [|exact Hd].
    apply Permutation_map, Permutation_sym, sortBy_perm.
  - apply sorted_map. now apply sortBy_sorted.
  - apply sorted_map. now apply sortBy_sorted.
  - rewrite (Permutation_map key (sortBy_perm cmp key l)).
    rewrite (Permutation_map key (sortBy_perm cmp key l')). exact Hp.
Qed.

End SortedNames.

Lemma basicUsageBlock_names cmp requiredVars triggerVars :
  basicUsageBlock cmp requiredVars triggerVars
  = blockOfNames (List.map name (basicUsageVars cmp requiredVars triggerVars)).
Proof.
  unfold basicUsageBlock, blockOfNames.
  destruct (basicUsageVars cmp requiredVars triggerVars) as [|v vs];
    [reflexivity|].
  cbn [List.map]. rewrite <- (map_cons name v vs), map_map. reflexivity.
Qed.

(** *** The comparison of code units *)

Lemma codeUnitCompare_eq a : forall b, codeUnitCompare a b = Eq -> a = b.
Proof.
  induction a as [|x a IH]; intros [|y b]; simpl; try congruence.
  destruct (N.compare_spec x y) as [->|H|H]; try discriminate.
  intros E. f_equal. now apply IH.
Qed.

Lemma codeUnitCompare_sym a : forall b,
  codeUnitCompare b a = CompOpp (codeUnitCompare a b).
Proof.
  induction a as [|x a IH]; intros [|y b]; simpl; try reflexivity.
  rewrite (N.compare_antisym x y).
  destruct (N.compare x y); simpl; auto.
Qed.

Lemma codeUnitCompare_trans a : forall b c,
  codeUnitCompare a b <> Gt -> codeUnitCompare b c <> Gt ->
  codeUnitCompare a c <> Gt.
Proof.
  induction a as [|x a IH]; intros [|y b] [|z c]; simpl; try congruence.
  destruct (N.compare_spec x y) as [->|Hxy|Hxy]; [| |congruence].
  - destruct (N.compare_spec y z) as [->|Hyz|Hyz]; [|congruence|congruence].
    apply IH.
  - intros _.
    destruct (N.compare_spec y z) as [->|Hyz|Hyz]; [| |congruence]; intros _.
    + destruct (N.compare_spec x z) as [->|H|H]; [lia|congruence|lia].
    + destruct (N.compare_spec x z) as [->|H|H]; [lia|congruence|lia].
Qed.

Lemma codeUnitCompare_consistent : ConsistentComparator codeUnitCompare.
Proof.
  constructor.
  - intros a b. apply codeUnitCompare_sym.
  - apply codeUnitCompare_trans.
Qed.

(** The comparison of code units tells all the names apart. *)
Lemma codeUnitCompare_distinguishes names :
  Distinguishes codeUnitCompare names.
Proof. intros a b _ _. apply codeUnitCompare_eq. Qed.



(** *** Stability *)

Section Stable.
Variable cmp : jsstring -> jsstring -> comparison.
Hypothesis Hcmp : ConsistentComparator cmp.
Variable A : Type.
Variable key : A -> jsstring.







End Stable.

(** *** The shape of the basic usage block *)








End SynthFacts.

Module SynthClaims.
Import FieldParser Classifier Synthesizer UsageShapes Examples SynthFacts.
Import ClassifierClaims.




(** The basic usage block of a module, with the comparison of code
    units. *)
Example basicUsage_sample :
  option_map (fun ctx =>
                basicUsageBlock codeUnitCompare
                  (requiredVars ctx) (triggerVars ctx))
             (prepareContext [sampleModule])
  = Some (hcl "
  mode = 'your-mode'
  zone = 'your-zone'
").
Proof. vm_compute. reflexivity. Qed.

(** The earlier copy of [generateReadme] keeps the order of discovery;
    the current one sorts. *)
Example basicUsage_earlier_copy :
  basicUsageBlockUnsorted
    [mkVariable (js "zone") false None [];
     mkVariable (js "a_b") false None []] []
  = hcl "
  zone = 'your-zone'
  a_b  = 'your-a-b'
"
  /\ basicUsageBlock codeUnitCompare
       [mkVariable (js "zone") false None [];
        mkVariable (js "a_b") false None []] []
     = hcl "
  a_b  = 'your-a-b'
  zone = 'your-zone'
".
Proof. vm_compute. split; reflexivity. Qed.

(** C4.  In the block of a usage group there is one line per name of the
    Required list, of the Trigger list and of the list of the group, none
    dropped.  A line is two spaces, the padded name, the equals sign, a
    value and a comment.  The value is the trigger value of the group
    between double quotes when the name is the trigger name of the group,
    and the placeholder of the name otherwise.  The comment is
    [  # Required when], the trigger name, the equals sign and the quoted
    trigger value when the name is in the list of the group, whether or
    not a variable of this name is in the Conditional list; it is empty
    otherwise. *)
Theorem conditionalUsage_spec :
  forall (localeCompare : jsstring -> jsstring -> comparison)
         (variables : list TfVariable) (usage : UsageGroup),
    varsBlock localeCompare (requiredVars (classify variables))
              (triggerVars (classify variables)) usage
    = join [c_newline]
        (List.map
           (fun n =>
              js "  "
              ++ padEnd n
                   (maxLength
                      (allVars localeCompare
                         (requiredVars (classify variables))
                         (triggerVars (classify variables)) usage))
              ++ js " = " ++ usageValue usage n ++ usageComment usage n)
           (allVars localeCompare (requiredVars (classify variables))
                    (triggerVars (classify variables)) usage))
    /\ Permutation
         (allVars localeCompare (requiredVars (classify variables))
                  (triggerVars (classify variables)) usage)
         (List.map name (requiredVars (classify variables))
          ++ List.map name (triggerVars (classify variables))
          ++ usageVariables usage)
    /\ (forall n,
          (n = triggerVar usage ->
           usageValue usage n = quoted (triggerValue usage))
          /\ (n <> triggerVar usage ->
              usageValue usage n
              = quoted (js "your-" ++ replaceUnderscores n))
          /\ (In n (usageVariables usage) ->
              usageComment usage n
              = js "  # Required when " ++ triggerVar usage ++ js " = "
                ++ quoted (triggerValue usage))
          /\ (~ In n (usageVariables usage) -> usageComment usage n = []))
    /\ (forall n,
          In n (usageVariables usage) ->
          In (usageLine usage
                (maxLength
                   (allVars localeCompare
                      (requiredVars (classify variables))
                      (triggerVars (classify variables)) usage)) n)
             (usageLines localeCompare (requiredVars (classify variables))
                         (triggerVars (classify variables)) usage)
          /\ (~ In n (List.map name (conditionalVars (classify variables))) ->
              n <> triggerVar usage ->
              usageLine usage
                (maxLength
                   (allVars localeCompare
                      (requiredVars (classify variables))
                      (triggerVars (classify variables)) usage)) n
              = js "  "
                ++ padEnd n
                     (maxLength
                        (allVars localeCompare
                           (requiredVars (classify variables))
                           (triggerVars (classify variables)) usage))
                ++ js " = " ++ quoted (js "your-" ++ replaceUnderscores n)
                ++ js "  # Required when " ++ triggerVar usage ++ js " = "
                ++ quoted (triggerValue usage))).
Proof.
  intros cmp variables usage.
  set (ctx := classify variables).
  assert (Hval : forall n,
            (n = triggerVar usage ->
             usageValue usage n = quoted (triggerValue usage))
            /\ (n <> triggerVar usage ->
                usageValue usage n
                = quoted (js "your-" ++ replaceUnderscores n))).
  { intros n. unfold usageValue.
    destruct (str_eqb n (triggerVar usage)) eqn:E.
    - apply str_eqb_eq in E. split; [reflexivity|contradiction].
    - split; [|reflexivity]. intros ->.
      assert (str_eqb (triggerVar usage) (triggerVar usage) = true)
        by now apply str_eqb_eq.
      congruence. }
  assert (Hcom : forall n,
            (In n (usageVariables usage) ->
             usageComment usage n = annotation usage)
            /\ (~ In n (usageVariables usage) -> usageComment usage n = [])).
  { intros n. unfold usageComment.
    destruct (includes (usageVariables usage) n) eqn:E.
    - apply includes_In in E. split; [reflexivity|contradiction].
    - split; [|reflexivity]. intros H. apply includes_In in H. congruence. }
  assert (Hperm : Permutation
            (allVars cmp (requiredVars ctx) (triggerVars ctx) usage)
            (List.map name (requiredVars ctx)
             ++ List.map name (triggerVars ctx) ++ usageVariables usage))
    by apply sortBy_perm.
  split; [reflexivity|]. split; [exact Hperm|]. split.
  - intros n. destruct (Hval n) as [Hv1 Hv2]. destruct (Hcom n) as [Hc1 Hc2].
    repeat split; auto.
  - intros n Hn. split.
    + unfold usageLines. apply in_map.
      apply (Permutation_in _ (Permutation_sym Hperm)).
      rewrite !in_app_iff. now right; right.
    + intros _ Hne. unfold usageLine.
      rewrite (proj2 (Hval n) Hne), (proj1 (Hcom n) Hn). reflexivity.
Qed.

(** The block of a usage group whose list names a variable that is in no
    category. *)
Example conditionalUsage_sample :
  option_map (fun ctx =>
                varsBlock codeUnitCompare (requiredVars ctx) (triggerVars ctx)
                  (mkUsage (js "A") (js "mode") (js "a")
                           [js "a_days"; js "unknown"]))
             (prepareContext [sampleModule])
  = Some (hcl "  a_days  = 'your-a-days'  # Required when mode = 'a'
  mode    = 'a'
  unknown = 'your-unknown'  # Required when mode = 'a'
  zone    = 'your-zone'").
Proof. vm_compute. reflexivity. Qed.

End SynthClaims.

(* ================================================================= *)
(** * Properties of the code around the parser *)

Module StringFacts.
Import StringOps.

Lemma startsWith_iff s : forall w,
  startsWith s w = true <-> exists t, s = w ++ t.
Proof.
  induction s as [|y s IH]; intros [|x w]; simpl.
  - split; [now exists []|reflexivity].
  - split; [discriminate|intros [t H]; discriminate].
  - split; [now exists (y :: s)|reflexivity].
  - rewrite andb_true_iff, N.eqb_eq, IH. split.
    + intros [-> [t ->]]. now exists t.
    + intros [t [= -> ->]]. split; [reflexivity|now exists t].
Qed.

Lemma startsWith_app w t : startsWith (w ++ t) w = true.
Proof. apply startsWith_iff. now exists t. Qed.

(** The first code unit of a match. *)
Lemma startsWith_head s c w :
  startsWith s (c :: w) = true -> exists s', s = c :: s'.
Proof.
  intros H. apply startsWith_iff in H as [t ->]. now exists (w ++ t).
Qed.

Lemma indexOfFrom_spec s : forall w i,
  match indexOfFrom s w i with
  | Some j =>
      exists pre t,
        s = pre ++ w ++ t /\ j = i + List.length pre
        /\ (forall k, k < List.length pre -> startsWith (skipn k s) w = false)
  | None => forall k, k <= List.length s -> startsWith (skipn k s) w = false
  end.
Proof.
  induction s as [|c s IH]; intros w i; cbn [indexOfFrom].
  - destruct (startsWith [] w) eqn:E; cbv iota.
    + apply startsWith_iff in E as [t E].
      exists [], t. repeat split; auto. simpl. lia.
    + intros k Hk. simpl in Hk. assert (k = 0) as -> by lia. exact E.
  - destruct (startsWith (c :: s) w) eqn:E; cbv iota.
    + apply startsWith_iff in E as [t E].
      exists [], t. repeat split; auto. simpl. lia.
    + specialize (IH w (S i)).
      destruct (indexOfFrom s w (S i)) as [j|].
      * destruct IH as (pre & t & -> & -> & Hmin).
        exists (c :: pre), t. repeat split; simpl; [lia|].
        intros [|k] Hk; [exact E|]. apply Hmin. lia.
      * intros [|k] Hk; [exact E|]. apply IH. simpl in Hk. lia.
Qed.

Lemma indexOf_some s w j :
  indexOf s w = Some j ->
  exists pre t,
    s = pre ++ w ++ t /\ j = List.length pre
    /\ (forall k, k < j -> startsWith (skipn k s) w = false).
Proof.
  unfold indexOf. intros H. pose proof (indexOfFrom_spec s w 0) as S.
  rewrite H in S. destruct S as (pre & t & -> & -> & Hmin).
  exists pre, t. repeat split; auto.
Qed.

Lemma indexOf_none s w :
  indexOf s w = None ->
  forall k, k <= List.length s -> startsWith (skipn k s) w = false.
Proof.
  unfold indexOf. intros H. pose proof (indexOfFrom_spec s w 0) as S.
  now rewrite H in S.
Qed.

(** The first occurrence: [w] at index [j] and at no index before. *)
Lemma indexOf_first s w j :
  j <= List.length s ->
  startsWith (skipn j s) w = true ->
  (forall k, k < j -> startsWith (skipn k s) w = false) ->
  indexOf s w = Some j.
Proof.
  intros Hj Hat Hmin.
  destruct (indexOf s w) as [i|] eqn:E.
  - apply indexOf_some in E as (pre & t & Hs & Hi & Hmin').
    destruct (Nat.lt_trichotomy i j) as [Hlt|[->|Hgt]]; [|reflexivity|].
    + specialize (Hmin i Hlt). subst i.
      rewrite Hs, skipn_app, skipn_all, Nat.sub_diag in Hmin. simpl in Hmin.
      now rewrite startsWith_app in Hmin.
    + specialize (Hmin' j Hgt). congruence.
  - pose proof (@indexOf_none s w E j Hj). congruence.
Qed.

Lemma jsSubstring_middle pre mid post :
  jsSubstring (pre ++ mid ++ post) (List.length pre)
              (List.length pre + List.length mid) = mid.
Proof.
  unfold jsSubstring. cbv zeta. rewrite !length_app.
  replace (Nat.min (List.length pre)
             (List.length pre + (List.length mid + List.length post)))
    with (List.length pre) by lia.
  replace (Nat.min (List.length pre + List.length mid)
             (List.length pre + (List.length mid + List.length post)))
    with (List.length pre + List.length mid) by lia.
  replace (Nat.min (List.length pre) (List.length pre + List.length mid))
    with (List.length pre) by lia.
  replace (Nat.max (List.length pre) (List.length pre + List.length mid)
           - List.length pre)
    with (List.length mid) by lia.
  rewrite skipn_app, skipn_all, Nat.sub_diag. simpl.
  rewrite firstn_app, Nat.sub_diag, firstn_all. simpl. apply app_nil_r.
Qed.

Lemma jsSubstring_swap s a b : jsSubstring s a b = jsSubstring s b a.
Proof.
  unfold jsSubstring. cbv zeta.
  rewrite (Nat.max_comm (Nat.min a (List.length s))).
  rewrite (Nat.min_comm (Nat.min a (List.length s))). reflexivity.
Qed.

(** An occurrence in a prefix of a text is an occurrence in the text. *)
Lemma startsWith_skipn_app x y w k :
  k <= List.length x ->
  startsWith (skipn k x) w = true ->
  startsWith (skipn k (x ++ y)) w = true.
Proof.
  intros Hk H. apply startsWith_iff in H as [t Ht].
  apply startsWith_iff. exists (t ++ y).
  rewrite skipn_app. replace (k - List.length x) with 0 by lia.
  simpl. rewrite Ht. now rewrite app_assoc.
Qed.

End StringFacts.

Module FileUtilsFacts.
Import StringOps FileUtils StringFacts.

(** Two words that follow each other in a text, each at its first
    occurrence. *)
Lemma two_markers content w1 w2 i j :
  indexOf content w1 = Some i ->
  indexOf content w2 = Some j ->
  i + List.length w1 <= j ->
  exists pre mid post,
    content = pre ++ w1 ++ mid ++ w2 ++ post
    /\ List.length pre = i
    /\ j = i + List.length w1 + List.length mid.
Proof.
  intros H1 H2 Hle.
  apply indexOf_some in H1 as (pre & t & Hc & Hi & _).
  apply indexOf_some in H2 as (pre' & post & Hc' & Hj & _).
  exists pre, (firstn (j - (i + List.length w1)) t), post.
  assert (Hlen : j - (i + List.length w1) <= List.length t).
  { apply (f_equal (@List.length char)) in Hc, Hc'.
    rewrite !length_app in Hc, Hc'. lia. }
  assert (Hskip : skipn (j - (i + List.length w1)) t = w2 ++ post).
  { assert (E : skipn j content = w2 ++ post).
    { rewrite Hc', Hj, skipn_app, skipn_all, Nat.sub_diag. reflexivity. }
    rewrite Hc in E.
    replace (pre ++ w1 ++ t) with ((pre ++ w1) ++ t) in E
      by now rewrite <- app_assoc.
    rewrite skipn_app, length_app, skipn_all2 in E
      by (rewrite length_app; lia).
    rewrite <- Hi in E. exact E. }
  split; [|split; [now symmetry|]].
  - rewrite Hc. rewrite <- Hskip, firstn_skipn. reflexivity.
  - rewrite length_firstn. lia.
Qed.

Lemma extract_of_parts pre bm mid em post :
  indexOf (pre ++ bm ++ mid ++ em ++ post) bm = Some (List.length pre) ->
  indexOf (pre ++ bm ++ mid ++ em ++ post) em
  = Some (List.length pre + List.length bm + List.length mid) ->
  extractBetweenMarkers (pre ++ bm ++ mid ++ em ++ post) bm em
  = bm ++ mid ++ em.
Proof.
  intros Hb He. unfold extractBetweenMarkers. rewrite Hb, He.
  replace (pre ++ bm ++ mid ++ em ++ post)
    with (pre ++ (bm ++ mid ++ em) ++ post)
    by (now rewrite <- !app_assoc).
  replace (List.length pre + List.length bm + List.length mid
           + List.length em)
    with (List.length pre + List.length (bm ++ mid ++ em))
    by (rewrite !length_app; lia).
  apply jsSubstring_middle.
Qed.

Lemma skipn_add_app (A : Type) (pre x : list A) k :
  skipn (List.length pre + k) (pre ++ x) = skipn k x.
Proof.
  rewrite skipn_app, skipn_all2 by lia.
  replace (List.length pre + k - List.length pre) with k by lia.
  reflexivity.
Qed.

(** The first end marker of a text is the first end marker of the
    section that it closes. *)
Lemma section_end_index pre bm mid em post :
  indexOf (pre ++ bm ++ mid ++ em ++ post) em
  = Some (List.length pre + List.length bm + List.length mid) ->
  indexOf (bm ++ mid ++ em) em = Some (List.length bm + List.length mid).
Proof.
  intros He. apply indexOf_first.
  - rewrite !length_app. lia.
  - replace (bm ++ mid ++ em) with ((bm ++ mid) ++ em)
      by now rewrite <- app_assoc.
    replace (List.length bm + List.length mid)
      with (List.length (bm ++ mid)) by (rewrite length_app; lia).
    rewrite skipn_app, skipn_all, Nat.sub_diag. simpl.
    rewrite <- (app_nil_r em) at 1. apply startsWith_app.
  - intros k Hk.
    destruct (startsWith (skipn k (bm ++ mid ++ em)) em) eqn:E;
      [|reflexivity].
    exfalso.
    apply indexOf_some in He as (_ & _ & _ & _ & Hmin).
    specialize (Hmin (List.length pre + k)).
    rewrite skipn_add_app in Hmin.
    replace (bm ++ mid ++ em ++ post) with ((bm ++ mid ++ em) ++ post)
      in Hmin by (now rewrite <- !app_assoc).
    rewrite (@startsWith_skipn_app (bm ++ mid ++ em) post em k) in Hmin;
      [|rewrite !length_app; lia|exact E].
    assert (true = false) by (apply Hmin; lia). discriminate.
Qed.

Lemma section_begin_index bm x : indexOf (bm ++ x) bm = Some 0.
Proof.
  apply indexOf_first; [lia|apply startsWith_app|]. intros k Hk. lia.
Qed.

(** Extraction from a section gives the section. *)
Lemma extract_section bm mid em :
  indexOf (bm ++ mid ++ em) em = Some (List.length bm + List.length mid) ->
  extractBetweenMarkers (bm ++ mid ++ em) bm em = bm ++ mid ++ em.
Proof.
  intros He.
  pose proof (@extract_of_parts [] bm mid em []) as Hparts.
  cbn [app List.length Nat.add] in Hparts. rewrite app_nil_r in Hparts.
  apply Hparts; [apply section_begin_index|exact He].
Qed.

End FileUtilsFacts.

Module FileUtilsProps.
Import Shapes StringOps FileUtils StringFacts FileUtilsFacts.

(** X1.  When the first begin marker ends at or before the first end
    marker, [extractBetweenMarkers] returns the text from the begin marker
    through the end marker, and extracting again from this text gives the
    same text. *)
Theorem extractBetweenMarkers_section :
  forall (content beginMarker endMarker : jsstring) (b e : nat),
    indexOf content beginMarker = Some b ->
    indexOf content endMarker = Some e ->
    b + List.length beginMarker <= e ->
    exists pre mid post,
      content = pre ++ beginMarker ++ mid ++ endMarker ++ post
      /\ List.length pre = b
      /\ extractBetweenMarkers content beginMarker endMarker
         = beginMarker ++ mid ++ endMarker
      /\ extractBetweenMarkers (beginMarker ++ mid ++ endMarker)
           beginMarker endMarker
         = beginMarker ++ mid ++ endMarker.
Proof.
  intros content bm em b e Hb He Hle.
  destruct (@two_markers content bm em b e Hb He Hle) as (pre & mid & post & Hc & Hpre & Hj).
  exists pre, mid, post. split; [exact Hc|]. split; [exact Hpre|].
  subst content b e. split.
  - now apply extract_of_parts.
  - apply extract_section. now apply (@section_end_index pre bm mid em post).
Qed.

Lemma extractBetweenMarkers_section_witness :
  let content := js "# s3 <!-- BEGIN_TF_DOCS -->| inputs |<!-- END_TF_DOCS --> end" in
  let beginMarker := js "<!-- BEGIN_TF_DOCS -->" in
  let endMarker := js "<!-- END_TF_DOCS -->" in
  exists pre mid post,
    content = pre ++ beginMarker ++ mid ++ endMarker ++ post
    /\ List.length pre = 5
    /\ extractBetweenMarkers content beginMarker endMarker
       = beginMarker ++ mid ++ endMarker
    /\ extractBetweenMarkers (beginMarker ++ mid ++ endMarker)
         beginMarker endMarker
       = beginMarker ++ mid ++ endMarker.
Proof.
  intros content beginMarker endMarker.
  apply (@extractBetweenMarkers_section content beginMarker endMarker 5 37);
    [reflexivity|reflexivity|simpl; lia].
Defined.

(** X2.  When the first end marker ends at or before the first begin
    marker, [substring] swaps its arguments: the result is the text
    between the first end marker and the first begin marker.  It holds no
    begin marker; it may hold further end markers. *)
Theorem extractBetweenMarkers_swapped :
  forall (content beginMarker endMarker : jsstring) (b e : nat),
    indexOf content beginMarker = Some b ->
    indexOf content endMarker = Some e ->
    e + List.length endMarker <= b ->
    exists pre mid post,
      content = pre ++ endMarker ++ mid ++ beginMarker ++ post
      /\ List.length pre = e
      /\ List.length (pre ++ endMarker ++ mid) = b
      /\ extractBetweenMarkers content beginMarker endMarker = mid
      /\ (beginMarker <> [] -> ~ Substring beginMarker mid).
Proof.
  intros content bm em b e Hb He Hle.
  destruct (@two_markers content em bm e b He Hb Hle) as (pre & mid & post & Hc & Hpre & Hj).
  exists pre, mid, post. split; [exact Hc|]. split; [exact Hpre|].
  split; [rewrite !length_app; lia|]. split.
  - unfold extractBetweenMarkers. rewrite Hb, He, jsSubstring_swap.
    subst content b e.
    replace (pre ++ em ++ mid ++ bm ++ post)
      with ((pre ++ em) ++ mid ++ bm ++ post) by (now rewrite <- !app_assoc).
    replace (List.length pre + List.length em)
      with (List.length (pre ++ em)) by (rewrite length_app; lia).
    apply jsSubstring_middle.
  - intros Hne (x & y & Hmid).
    apply indexOf_some in Hb as (_ & _ & _ & _ & Hmin).
    assert (Hlen : List.length mid
                   = List.length x + List.length bm + List.length y)
      by (rewrite Hmid, !length_app; lia).
    assert (Hbm : 0 < List.length bm)
      by (destruct bm; [contradiction|simpl; lia]).
    specialize (Hmin (List.length (pre ++ em ++ x))).
    rewrite Hc, Hmid in Hmin.
    replace (pre ++ em ++ (x ++ bm ++ y) ++ bm ++ post)
      with ((pre ++ em ++ x) ++ bm ++ y ++ bm ++ post) in Hmin
      by (now rewrite <- !app_assoc).
    rewrite FieldFacts.skipn_app_exact, startsWith_app in Hmin.
    assert (true = false); [|discriminate].
    apply Hmin. rewrite !length_app. lia.
Qed.

Lemma extractBetweenMarkers_swapped_witness :
  let content := js "<!-- END_TF_DOCS -->x<!-- END_TF_DOCS -->y<!-- BEGIN_TF_DOCS -->" in
  let beginMarker := js "<!-- BEGIN_TF_DOCS -->" in
  let endMarker := js "<!-- END_TF_DOCS -->" in
  extractBetweenMarkers content beginMarker endMarker
  = js "x<!-- END_TF_DOCS -->y"
  /\ exists pre mid post,
       content = pre ++ endMarker ++ mid ++ beginMarker ++ post
       /\ List.length pre = 0
       /\ List.length (pre ++ endMarker ++ mid) = 42
       /\ extractBetweenMarkers content beginMarker endMarker = mid
       /\ (beginMarker <> [] -> ~ Substring beginMarker mid).
Proof.
  intros content beginMarker endMarker. split; [reflexivity|].
  apply (@extractBetweenMarkers_swapped content beginMarker endMarker 42 0);
    [reflexivity|reflexivity|simpl; lia].
Defined.

End FileUtilsProps.

Module OutputsFacts.
Import Regex FieldParser Shapes RegexFacts FieldFacts Outputs.

Lemma execLoop_execAll r content : forall fuel lastIndex,
  execLoop fuel r content lastIndex
  = option_map (fun ms => (ms, 0)) (execAll fuel r content lastIndex).
Proof.
  induction fuel as [|fuel IH]; intros lastIndex; simpl; [reflexivity|].
  destruct (exec r content lastIndex) as [m|]; [|reflexivity].
  rewrite IH.
  now destruct (execAll fuel r content (index m + List.length (matched m))).
Qed.

Lemma outputRegex_nonEmpty prev s f :
  matchSeq outputRegex prev s = Some f -> 1 <= fst f.
Proof.
  intros H. apply inv_chr in H as (s' & f' & _ & _ & ->). simpl. lia.
Qed.

Lemma outputRegex_inv prev s f i :
  matchSeq outputRegex prev s = Some f ->
  exists ws name post,
    s = outputText ws name ++ post
    /\ ws <> [] /\ spaces ws
    /\ name <> [] /\ forallb notQuote name = true
    /\ matchAt s i f = mkMatch i (outputText ws name) name.
Proof.
  unfold outputRegex, lit. intros H.
  apply inv_lit in H as (s1 & f1 & -> & H & ->). cbn [app] in H.
  apply inv_plus in H as (ws & s2 & f2 & -> & Hne1 & Hws & H & ->).
  apply inv_chr in H as (s3 & f3 & -> & H & ->).
  apply inv_open in H as (f4 & H & ->).
  apply inv_plus in H as (name & s5 & f5 & -> & Hne & Hname & H & ->).
  apply inv_close in H as (f6 & H & ->).
  apply inv_chr in H as (post & f7 & -> & H & ->).
  simpl in H. injection H as <-.
  exists ws, name, post.
  split; [|split; [|split; [|split; [|split]]]]; auto.
  - unfold outputText.
    repeat (rewrite <- !app_assoc || rewrite <- !app_comm_cons).
    reflexivity.
  - apply (@matchAt_parts (js "output" ++ ws ++ [c_quote]) name
             [c_quote] post).
    + repeat (rewrite <- !app_assoc || rewrite <- !app_comm_cons).
      reflexivity.
    + unfold outputText.
      repeat (rewrite <- !app_assoc || rewrite <- !app_comm_cons).
      reflexivity.
    + unfold advanceN, advance, mark. simpl.
      repeat (rewrite length_app; simpl).
      apply f_equal2; [lia|].
      apply f_equal2; [lia|]. apply f_equal2; [lia|reflexivity].
Qed.

Lemma outputsOfFile_total content :
  exists names, outputsOfFile content = Some names.
Proof.
  destruct (@execAll_total outputRegex outputRegex_nonEmpty content
              (loopBound content) 0) as [ms Hms];
    [unfold loopBound; lia|].
  unfold outputsOfFile. rewrite Hms. now eexists.
Qed.

Lemma outputsOfFile_sound content names :
  outputsOfFile content = Some names ->
  forall name,
    In name names ->
    name <> [] /\ forallb notQuote name = true
    /\ exists pre ws post,
         content = pre ++ outputText ws name ++ post
         /\ ws <> [] /\ spaces ws.
Proof.
  unfold outputsOfFile. intros H name Hin.
  destruct (execAll (loopBound content) outputRegex content 0) as [ms|] eqn:E;
    [|discriminate].
  injection H as <-. apply in_map_iff in Hin as (m & <- & Hin).
  apply execAll_spec in E as (Hall & _ & _).
  rewrite Forall_forall in Hall.
  destruct (Hall m Hin) as (f & Hf & Hm).
  unfold matchHere in Hf.
  destruct (@outputRegex_inv _ _ _ (index m) Hf)
    as (ws & nm & post & Hs & Hne1 & Hws & Hne & Hname & Hat).
  pose proof (f_equal group1 Hm) as Hg. rewrite Hat in Hg.
  cbn [group1] in Hg. rewrite Hg.
  split; [exact Hne|]. split; [exact Hname|].
  exists (firstn (index m) content), ws, post.
  split; [|split; assumption].
  now rewrite <- Hs, firstn_skipn.
Qed.

End OutputsFacts.

Module OutputsProps.
Import Regex FieldParser Shapes RegexFacts FieldFacts Outputs OutputsFacts.

(** X3.  The output pattern is shared by the loops over the files, and
    every loop leaves its [lastIndex] at zero: the outputs of a module are
    the outputs of its files, each file scanned from its start, in the
    order of the files.  Every loop ends.  A name is a non-empty text
    without a double quote that stands between double quotes after the
    keyword [output] and whitespace, and [firstOutput] is never empty. *)
Theorem outputs_per_file :
  forall contents : list jsstring,
  exists perFile,
    Forall2 (fun content names => outputsOfFile content = Some names)
            contents perFile
    /\ outputs contents = Some (List.concat perFile)
    /\ (forall content names,
          In content contents -> outputsOfFile content = Some names ->
          forall name,
            In name names ->
            name <> [] /\ forallb notQuote name = true
            /\ exists pre ws post,
                 content = pre ++ outputText ws name ++ post
                 /\ ws <> [] /\ spaces ws)
    /\ firstOutput (List.concat perFile) <> [].
Proof.
  intros contents.
  assert (H : exists perFile,
             Forall2 (fun content names => outputsOfFile content = Some names)
                     contents perFile
             /\ collectOutputs contents 0 = Some (List.concat perFile)).
  { induction contents as [|content contents (perFile & HF & HC)].
    - exists []. split; [constructor|reflexivity].
    - destruct (outputsOfFile_total content) as [names Hn].
      exists (names :: perFile). split; [now constructor|].
      cbn [collectOutputs]. rewrite execLoop_execAll.
      unfold outputsOfFile in Hn.
      destruct (execAll (loopBound content) outputRegex content 0) as [ms|];
        [|discriminate].
      cbn [option_map] in *. injection Hn as <-. now rewrite HC. }
  destruct H as (perFile & HF & HC).
  exists perFile. split; [exact HF|]. split; [exact HC|]. split.
  - intros content names _ Hn. now apply outputsOfFile_sound.
  - destruct (List.concat perFile) as [|o outs] eqn:E; [discriminate|].
    assert (Ho : o <> []).
    { assert (Hin : In o (List.concat perFile)) by (rewrite E; now left).
      apply in_concat in Hin as (names & Hnames & Hin).
      assert (Hc : exists content, outputsOfFile content = Some names).
      { clear - HF Hnames. induction HF as [|c n cs ns Hcn _ IH];
          [contradiction|].
        destruct Hnames as [->|Hnames]; [now exists c|now apply IH]. }
      destruct Hc as [content Hc].
      exact (proj1 (@outputsOfFile_sound content names Hc o Hin)). }
    simpl. destruct o; [contradiction|discriminate].
Qed.

End OutputsProps.

Module ReadmeFacts.
Import Regex Shapes StringOps StringFacts Readme.

Lemma infraHere_iff s :
  infraHere s = true
  <-> startsWith s (js "infrastructure/") = true /\ noLineTerminator s.
Proof.
  unfold infraHere, noLineTerminator. rewrite andb_true_iff. split.
  - intros [Hs Hl]. split; [exact Hs|].
    apply startsWith_iff in Hs as [t ->].
    rewrite FieldFacts.skipn_app_exact in Hl.
    rewrite forallb_app. now rewrite Hl.
  - intros [Hs Hl]. split; [exact Hs|].
    apply startsWith_iff in Hs as [t ->].
    rewrite FieldFacts.skipn_app_exact.
    rewrite forallb_app in Hl. now apply andb_prop in Hl as [_ Hl].
Qed.

(** What [infraMatchFrom] finds is the end of the text, begins with
    [infrastructure/] and stands at the start of the text or after a
    slash. *)
Lemma infraMatchFrom_some s : forall atStart g,
  infraMatchFrom atStart s = Some g ->
  infraHere g = true
  /\ ((atStart = true /\ g = s) \/ exists pre, s = pre ++ 47%N :: g).
Proof.
  induction s as [|c s IH]; intros atStart g H; cbn [infraMatchFrom] in H.
  - destruct (atStart && infraHere []) eqn:E; [|discriminate].
    injection H as <-. apply andb_prop in E as [-> E]. auto.
  - destruct (atStart && infraHere (c :: s)) eqn:E.
    + injection H as <-. apply andb_prop in E as [-> E]. auto.
    + destruct (N.eqb c 47 && infraHere s) eqn:E'.
      * injection H as <-. apply andb_prop in E' as [Hc E'].
        apply N.eqb_eq in Hc. subst c. split; [exact E'|].
        right. now exists [].
      * apply IH in H as [Hg [[Hf _]|[pre ->]]]; [discriminate|].
        split; [exact Hg|]. right. now exists (c :: pre).
Qed.

Lemma noLineTerminator_app a b :
  noLineTerminator (a ++ b) -> noLineTerminator a /\ noLineTerminator b.
Proof.
  unfold noLineTerminator. rewrite forallb_app. apply andb_prop.
Qed.

(** A segment [infrastructure/] in a text without line terminator is
    found. *)
Lemma infraMatchFrom_complete s : forall atStart,
  noLineTerminator s ->
  (atStart = true /\ startsWith s (js "infrastructure/") = true)
  \/ (exists pre t, s = pre ++ 47%N :: js "infrastructure/" ++ t) ->
  infraMatchFrom atStart s <> None.
Proof.
  induction s as [|c s IH]; intros atStart Hl H; cbn [infraMatchFrom].
  - destruct H as [[-> H]|(pre & t & H)]; [discriminate|].
    destruct pre; discriminate.
  - destruct (atStart && infraHere (c :: s)) eqn:E; [discriminate|].
    destruct (N.eqb c 47 && infraHere s) eqn:E'; [discriminate|].
    assert (Hl' : noLineTerminator s).
    { unfold noLineTerminator in *. simpl in Hl.
      now apply andb_prop in Hl as [_ Hl]. }
    apply IH; [exact Hl'|].
    destruct H as [[-> H]|(pre & t & H)].
    + exfalso. rewrite andb_true_l in E.
      assert (H0 : infraHere (c :: s) = true)
        by (apply infraHere_iff; now split).
      exact (eq_true_false_abs _ H0 E).
    + destruct pre as [|x pre]; simpl in H; injection H as -> ->.
      * exfalso.
        assert (H0 : infraHere (js "infrastructure/" ++ t) = true).
        { apply infraHere_iff. split; [apply startsWith_app|exact Hl']. }
        rewrite N.eqb_refl, andb_true_l in E'.
        exact (eq_true_false_abs _ H0 E').
      * right. now exists pre, t.
Qed.

Lemma stripDotSlash_cases dir :
  stripDotSlash dir = dir \/ dir = 46%N :: 47%N :: stripDotSlash dir.
Proof.
  unfold stripDotSlash.
  destruct dir as [|c dir]; [now left|].
  destruct c as [|p]; [now left|].
  repeat (destruct p as [p|p|]; try (now left)).
  destruct dir as [|d rest]; [now left|].
  destruct d as [|q]; [now left|].
  repeat (destruct q as [q|q|]; try (now left)).
  now right.
Qed.

Lemma stripDotSlash_suffix dir : exists pre, dir = pre ++ stripDotSlash dir.
Proof.
  destruct (stripDotSlash_cases dir) as [->|H]; [now exists []|].
  now exists [46%N; 47%N].
Qed.

End ReadmeFacts.

Module ReadmeProps.
Import Regex Shapes StringOps StringFacts Readme ReadmeFacts.

(** X4.  The module path of a directory is an end of the directory path.
    It is the path without one leading [./], or it begins with
    [infrastructure/], has no line terminator and is kept as it is when
    the path is computed again.  When the path without its leading [./]
    has no line terminator and begins with [infrastructure/] or has a
    segment [/infrastructure/], the module path begins with
    [infrastructure/]. *)
Theorem modulePathOf_spec :
  forall dir : jsstring,
    (exists pre, dir = pre ++ modulePathOf dir)
    /\ (modulePathOf dir = stripDotSlash dir
        \/ (startsWith (modulePathOf dir) (js "infrastructure/") = true
            /\ noLineTerminator (modulePathOf dir)
            /\ modulePathOf (modulePathOf dir) = modulePathOf dir))
    /\ (noLineTerminator (stripDotSlash dir) ->
        startsWith (stripDotSlash dir) (js "infrastructure/") = true
        \/ (exists pre t,
              stripDotSlash dir = pre ++ 47%N :: js "infrastructure/" ++ t) ->
        startsWith (modulePathOf dir) (js "infrastructure/") = true).
Proof.
  intros dir.
  destruct (stripDotSlash_suffix dir) as [pre0 Hpre0].
  destruct (infraMatchFrom true (stripDotSlash dir)) as [g|] eqn:E.
  - assert (Hm : modulePathOf dir = g)
      by (unfold modulePathOf; cbv zeta; now rewrite E).
    rewrite !Hm.
    apply infraMatchFrom_some in E as [Hg Hwhere].
    pose proof Hg as Hg'. apply infraHere_iff in Hg' as [Hstart Hl].
    split; [|split].
    + destruct Hwhere as [[_ ->]|[pre Hp]]; [now exists pre0|].
      exists (pre0 ++ pre ++ [47%N]). rewrite Hpre0 at 1. rewrite Hp.
      now rewrite <- !app_assoc.
    + right. split; [exact Hstart|]. split; [exact Hl|].
      unfold modulePathOf. cbv zeta.
      assert (Hstrip : stripDotSlash g = g).
      { apply startsWith_iff in Hstart as [t ->]. reflexivity. }
      rewrite Hstrip.
      destruct g as [|c g]; cbn [infraMatchFrom]; rewrite Hg; reflexivity.
    + intros _ _. exact Hstart.
  - assert (Hm : modulePathOf dir = stripDotSlash dir)
      by (unfold modulePathOf; cbv zeta; now rewrite E).
    rewrite !Hm.
    split; [now exists pre0|]. split; [now left|].
    intros Hl H. exfalso.
    apply (@infraMatchFrom_complete (stripDotSlash dir) true Hl); [|exact E].
    destruct H as [H|H]; [left; now split|now right].
Qed.

End ReadmeProps.

Module PlainFacts.
Import FieldParser Classifier Synthesizer SynthFacts StringOps StringFacts.
Import FileUtils FileUtilsFacts Outputs Readme ReadmeFacts Plain.

Lemma noLt_app a b : noLt (a ++ b) = noLt a && noLt b.
Proof. apply forallb_app. Qed.

Lemma noLt_cons c s : noLt (c :: s) = negb (N.eqb c 60) && noLt s.
Proof. reflexivity. Qed.

Lemma noLt_join sep lines :
  noLt sep = true -> forallb noLt lines = true ->
  noLt (join sep lines) = true.
Proof.
  intros Hsep. induction lines as [|l lines IH]; [reflexivity|].
  cbn [forallb]. intros H. apply andb_prop in H as [Hl Hr].
  destruct lines as [|l' lines]; [exact Hl|].
  change (join sep (l :: l' :: lines))
    with (l ++ sep ++ join sep (l' :: lines)).
  rewrite !noLt_app, Hl, Hsep. now rewrite IH.
Qed.

Lemma noLt_padEnd s n : noLt s = true -> noLt (padEnd s n) = true.
Proof.
  intros H. unfold padEnd. rewrite noLt_app, H.
  generalize (n - List.length s). intros k.
  induction k as [|k IH]; [reflexivity|exact IH].
Qed.

Lemma noLt_replaceUnderscores s :
  noLt s = true -> noLt (replaceUnderscores s) = true.
Proof.
  induction s as [|c s IH]; [reflexivity|].
  cbn [replaceUnderscores List.map]. rewrite !noLt_cons.
  intros H. apply andb_prop in H as [Hc Hs].
  fold (replaceUnderscores s). rewrite (IH Hs), andb_true_r.
  destruct (N.eqb c c_underscore); [reflexivity|exact Hc].
Qed.

Lemma noLt_quoted s : noLt s = true -> noLt (quoted s) = true.
Proof.
  intros H. unfold quoted. rewrite noLt_cons, noLt_app, H. reflexivity.
Qed.

Lemma noLt_placeholder s : noLt s = true -> noLt (placeholder s) = true.
Proof.
  intros H. unfold placeholder. apply noLt_quoted.
  rewrite noLt_app, (@noLt_replaceUnderscores _ H). reflexivity.
Qed.

Lemma forallb_perm (A : Type) (f : A -> bool) l l' :
  Permutation l l' -> forallb f l = true -> forallb f l' = true.
Proof.
  intros Hp H. apply forallb_forall. intros x Hx.
  rewrite forallb_forall in H. apply H.
  now apply (Permutation_in x (Permutation_sym Hp)).
Qed.

Lemma forallb_map (A B : Type) (f : B -> bool) (g : A -> B) l :
  forallb f (List.map g l) = forallb (fun x => f (g x)) l.
Proof.
  induction l as [|x l IH]; [reflexivity|]. simpl. now rewrite IH.
Qed.

Lemma noLt_basicUsageBlock cmp requiredVars triggerVars :
  plainVars requiredVars = true -> plainVars triggerVars = true ->
  noLt (basicUsageBlock cmp requiredVars triggerVars) = true.
Proof.
  intros Hr Ht. unfold basicUsageBlock. cbv zeta.
  assert (Hv : plainVars (basicUsageVars cmp requiredVars triggerVars) = true).
  { unfold plainVars, basicUsageVars.
    eapply forallb_perm; [apply Permutation_sym, sortBy_perm|].
    rewrite forallb_app. unfold plainVars in Hr, Ht. now rewrite Hr, Ht. }
  destruct (basicUsageVars cmp requiredVars triggerVars) as [|v vars] eqn:E;
    [reflexivity|].
  rewrite !noLt_app. rewrite noLt_join; [reflexivity|reflexivity|].
  rewrite forallb_map. unfold plainVars in Hv.
  rewrite forallb_forall in Hv. apply forallb_forall. intros x Hx.
  unfold basicLine. rewrite !noLt_app.
  rewrite (@noLt_padEnd _ _ (Hv x Hx)), (@noLt_placeholder _ (Hv x Hx)).
  reflexivity.
Qed.

Lemma noLt_varsBlock cmp requiredVars triggerVars usage :
  plainVars requiredVars = true -> plainVars triggerVars = true ->
  plainUsage usage = true ->
  noLt (varsBlock cmp requiredVars triggerVars usage) = true.
Proof.
  intros Hr Ht Hu. unfold plainUsage in Hu.
  apply andb_prop in Hu as [Hu Hvars]. apply andb_prop in Hu as [Hu Hval].
  apply andb_prop in Hu as [Hname Htrig].
  unfold varsBlock, usageLines. cbv zeta.
  assert (Hv : forallb noLt (allVars cmp requiredVars triggerVars usage)
               = true).
  { unfold allVars.
    eapply forallb_perm; [apply Permutation_sym, sortBy_perm|].
    rewrite !forallb_app, !forallb_map.
    unfold plainVars in Hr, Ht. now rewrite Hr, Ht, Hvars. }
  apply noLt_join; [reflexivity|].
  rewrite forallb_map. rewrite forallb_forall in Hv.
  apply forallb_forall. intros x Hx.
  unfold usageLine. rewrite !noLt_app.
  rewrite (@noLt_padEnd _ _ (Hv x Hx)).
  assert (Hvalue : noLt (usageValue usage x) = true).
  { unfold usageValue. destruct (str_eqb x (triggerVar usage)).
    - now apply noLt_quoted.
    - apply noLt_placeholder, Hv, Hx. }
  assert (Hcomment : noLt (usageComment usage x) = true).
  { unfold usageComment. destruct (includes (usageVariables usage) x);
      [|reflexivity].
    unfold annotation. rewrite !noLt_app, Htrig, (@noLt_quoted _ Hval).
    reflexivity. }
  rewrite Hvalue, Hcomment. reflexivity.
Qed.

Lemma noLt_skipn n s : noLt s = true -> noLt (skipn n s) = true.
Proof.
  intros H. rewrite <- (firstn_skipn n s), noLt_app in H.
  now apply andb_prop in H as [_ H].
Qed.

Lemma noLt_modulePathOf dir : noLt dir = true -> noLt (modulePathOf dir) = true.
Proof.
  intros H. destruct (stripDotSlash_suffix dir) as [pre Hpre].
  assert (Hs : noLt (stripDotSlash dir) = true).
  { rewrite Hpre, noLt_app in H. now apply andb_prop in H as [_ H]. }
  unfold modulePathOf. cbv zeta.
  destruct (infraMatchFrom true (stripDotSlash dir)) as [g|] eqn:E;
    [|exact Hs].
  apply infraMatchFrom_some in E as [_ [[_ ->]|[p Hp]]]; [exact Hs|].
  rewrite Hp, noLt_app, noLt_cons in Hs.
  apply andb_prop in Hs as [_ Hs]. now apply andb_prop in Hs as [_ Hs].
Qed.

Lemma noLt_firstOutput outs :
  forallb noLt outs = true -> noLt (firstOutput outs) = true.
Proof.
  destruct outs as [|[|c o] outs]; try reflexivity.
  cbn [forallb firstOutput]. intros H. now apply andb_prop in H as [H _].
Qed.

Lemma noLt_moduleSourceOf repo path tag :
  noLt repo = true -> noLt path = true -> noLt tag = true ->
  noLt (moduleSourceOf repo path tag) = true.
Proof.
  intros Hr Hp Ht. unfold moduleSourceOf.
  rewrite !noLt_app, Hr, Hp, Ht. reflexivity.
Qed.

Lemma noLt_usageSection cmp ctx source usage :
  noLt (moduleName ctx) = true -> noLt source = true ->
  plainVars (ctxRequiredVars ctx) = true ->
  plainVars (ctxTriggerVars ctx) = true ->
  plainUsage usage = true ->
  noLt (usageSection cmp ctx source usage) = true.
Proof.
  intros Hm Hs Hr Ht Hu. unfold usageSection.
  rewrite !noLt_app, Hm, Hs, (@noLt_varsBlock cmp _ _ _ Hr Ht Hu).
  assert (Hn : noLt (usageName usage) = true).
  { unfold plainUsage in Hu. apply andb_prop in Hu as [Hu _].
    apply andb_prop in Hu as [Hu _]. now apply andb_prop in Hu as [Hu _]. }
  rewrite Hn. reflexivity.
Qed.

Lemma noLt_conditionalUsageSections cmp ctx source parsed :
  noLt (moduleName ctx) = true -> noLt source = true ->
  plainVars (ctxRequiredVars ctx) = true ->
  plainVars (ctxTriggerVars ctx) = true ->
  match conditionalUsage parsed with
  | Some usages => forallb plainUsage usages
  | None => true
  end = true ->
  noLt (conditionalUsageSections cmp ctx source parsed) = true.
Proof.
  intros Hm Hs Hr Ht Hu. unfold conditionalUsageSections.
  destruct (conditionalUsage parsed) as [[|u us]|]; try reflexivity.
  apply noLt_join; [reflexivity|]. rewrite forallb_map.
  rewrite forallb_forall in Hu. apply forallb_forall. intros x Hx.
  apply noLt_usageSection; auto.
Qed.

(** The document up to the terraform-docs section holds no less-than
    sign when the inputs hold none. *)
Lemma noLt_readmeHead cmp dir parsed ctx :
  plainInputs dir parsed ctx = true ->
  noLt (readmeHead cmp dir parsed ctx) = true.
Proof.
  unfold plainInputs. intros H.
  apply andb_prop in H as [H Hrepo]. apply andb_prop in H as [H Htag].
  apply andb_prop in H as [H Houts]. apply andb_prop in H as [H Htrig].
  apply andb_prop in H as [H Hreq]. apply andb_prop in H as [H Hname].
  apply andb_prop in H as [H Husage]. apply andb_prop in H as [H Hfeat].
  apply andb_prop in H as [Hdir Hdesc].
  unfold readmeHead. cbv zeta.
  pose proof (@noLt_moduleSourceOf _ _ _ Hrepo (@noLt_modulePathOf _ Hdir)
                                   Htag) as Hsrc.
  pose proof (@noLt_conditionalUsageSections cmp ctx _ parsed Hname Hsrc
                                             Hreq Htrig Husage) as Hsec.
  rewrite !noLt_app, Hname, Hdesc, Hsrc,
    (@noLt_basicUsageBlock cmp _ _ Hreq Htrig), (@noLt_firstOutput _ Houts).
  rewrite noLt_join;
    [|reflexivity
     |rewrite forallb_map; rewrite forallb_forall in Hfeat;
      apply forallb_forall; intros x Hx; rewrite noLt_app;
      now rewrite (Hfeat x Hx)].
  destruct (conditionalUsageSections cmp ctx _ parsed) eqn:E;
    [reflexivity|].
  rewrite !noLt_app, Hsec. reflexivity.
Qed.

Lemma indexOfFrom_shift s w : forall i k,
  indexOfFrom s w (k + i) = option_map (Nat.add k) (indexOfFrom s w i).
Proof.
  induction s as [|c s IH]; intros i k; cbn [indexOfFrom];
    destruct (startsWith _ w); try reflexivity.
  rewrite plus_n_Sm. apply IH.
Qed.

Lemma indexOfFrom_after_plain head x w :
  noLt head = true ->
  forall i,
    indexOfFrom (head ++ x) (60%N :: w) i
    = indexOfFrom x (60%N :: w) (List.length head + i).
Proof.
  induction head as [|c head IH]; intros Hh i; [reflexivity|].
  rewrite noLt_cons in Hh. apply andb_prop in Hh as [Hc Hh].
  cbn [app indexOfFrom startsWith List.length].
  apply negb_true_iff in Hc. rewrite Hc. cbn [andb].
  rewrite (IH Hh). f_equal. lia.
Qed.

(** A word that begins with the less-than sign does not start inside a
    text without that sign. *)
Lemma indexOf_after_plain head x w :
  noLt head = true ->
  indexOf (head ++ x) (60%N :: w)
  = option_map (Nat.add (List.length head)) (indexOf x (60%N :: w)).
Proof.
  unfold indexOf. intros Hh.
  rewrite (@indexOfFrom_after_plain head x w Hh 0).
  apply indexOfFrom_shift.
Qed.

(** Text after a word does not move its first occurrence. *)
Lemma startsWith_app_long a tail w :
  List.length w <= List.length a ->
  startsWith (a ++ tail) w = startsWith a w.
Proof.
  revert a. induction w as [|x w IH]; intros a H.
  - destruct a; destruct tail; reflexivity.
  - destruct a as [|y a]; cbn [List.length] in H; [lia|].
    cbn [app startsWith]. rewrite IH; [reflexivity|lia].
Qed.

Lemma indexOf_app_tail s tail w p :
  indexOf s w = Some p -> indexOf (s ++ tail) w = Some p.
Proof.
  intros H. apply indexOf_some in H as (pre & t & Hs & Hp & Hmin).
  apply indexOf_first.
  - rewrite length_app, Hs, length_app. lia.
  - apply startsWith_skipn_app.
    + rewrite Hs, length_app. lia.
    + rewrite Hs, Hp, FieldFacts.skipn_app_exact. apply startsWith_app.
  - intros k Hk. rewrite <- (Hmin k Hk).
    rewrite skipn_app.
    replace (k - List.length s) with 0
      by (rewrite Hs, length_app; lia).
    cbn [skipn]. apply startsWith_app_long.
    rewrite length_skipn, Hs, !length_app. lia.
Qed.

(** Two markers such that the end marker starts nowhere in the begin
    marker: when the first begin marker is not after the first end
    marker, it ends before it. *)
Lemma markers_apart bm em content b e :
  (forall k rest rest',
      k < List.length bm -> skipn k (bm ++ rest) <> em ++ rest') ->
  indexOf content bm = Some b ->
  indexOf content em = Some e ->
  b <= e -> b + List.length bm <= e.
Proof.
  intros Hfree Hb He Hle.
  apply indexOf_some in Hb as (pre & t & Hc & Hp & _).
  apply indexOf_some in He as (pre' & t' & Hc' & Hp' & _).
  destruct (Nat.le_gt_cases (b + List.length bm) e) as [H|H];
    [exact H|exfalso].
  assert (Hk : exists k, e = b + k /\ k < List.length bm)
    by (exists (e - b); lia).
  destruct Hk as (k & -> & Hk).
  assert (Hs : skipn (b + k) content = em ++ t').
  { rewrite Hp', Hc'. apply FieldFacts.skipn_app_exact. }
  rewrite Hc, Hp, skipn_add_app in Hs.
  exact (Hfree k t t' Hk Hs).
Qed.

Lemma tf_markers_apart content b e :
  indexOf content beginTfDocs = Some b ->
  indexOf content endTfDocs = Some e ->
  b <= e -> b + List.length beginTfDocs <= e.
Proof.
  apply markers_apart. intros k rest rest' Hk Hs.
  change (List.length beginTfDocs) with 22 in Hk.
  do 22 (destruct k as [|k]; [discriminate Hs|]). lia.
Qed.

(** The terraform-docs section that [generateReadme] writes runs from
    the begin marker through the first end marker. *)
Lemma tfDocsSection_shape existing :
  markersInOrder existing = true ->
  exists mid,
    tfDocsSection existing = beginTfDocs ++ mid ++ endTfDocs
    /\ indexOf (beginTfDocs ++ mid ++ endTfDocs) endTfDocs
       = Some (List.length beginTfDocs + List.length mid).
Proof.
  assert (Hdefault : exists mid,
    beginTfDocs ++ [c_newline] ++ endTfDocs
    = beginTfDocs ++ mid ++ endTfDocs
    /\ indexOf (beginTfDocs ++ mid ++ endTfDocs) endTfDocs
       = Some (List.length beginTfDocs + List.length mid))
    by (exists [c_newline]; split; reflexivity).
  destruct existing as [content|]; [|intros _; exact Hdefault].
  unfold markersInOrder, tfDocsSection, extractBetweenMarkers.
  destruct (indexOf content beginTfDocs) as [b|] eqn:Hb;
    [|intros _; exact Hdefault].
  destruct (indexOf content endTfDocs) as [e|] eqn:He;
    [|intros _; exact Hdefault].
  intros Hle. apply Nat.leb_le in Hle.
  pose proof (@tf_markers_apart content b e Hb He Hle) as Hapart.
  destruct (@two_markers content beginTfDocs endTfDocs b e Hb He Hapart)
    as (pre & mid & post & Hc & Hpre & Hj).
  exists mid. subst content b e.
  pose proof (@extract_of_parts pre beginTfDocs mid endTfDocs post Hb He)
    as Hx.
  unfold extractBetweenMarkers in Hx. rewrite Hb, He in Hx.
  split; [exact Hx|].
  now apply (@section_end_index pre beginTfDocs mid endTfDocs post).
Qed.

(** Extraction from a document that is a text without less-than sign,
    the section and a last line break gives the section. *)
Lemma extract_after_plain head mid :
  noLt head = true ->
  indexOf (beginTfDocs ++ mid ++ endTfDocs) endTfDocs
  = Some (List.length beginTfDocs + List.length mid) ->
  extractBetweenMarkers
    (head ++ (beginTfDocs ++ mid ++ endTfDocs) ++ [c_newline])
    beginTfDocs endTfDocs
  = beginTfDocs ++ mid ++ endTfDocs.
Proof.
  intros Hh He.
  replace (head ++ (beginTfDocs ++ mid ++ endTfDocs) ++ [c_newline])
    with (head ++ beginTfDocs ++ mid ++ endTfDocs ++ [c_newline])
    by (now rewrite <- !app_assoc).
  apply extract_of_parts.
  - change beginTfDocs with (60%N :: tl beginTfDocs) at 2.
    rewrite (@indexOf_after_plain head _ _ Hh).
    change (60%N :: tl beginTfDocs) with beginTfDocs.
    rewrite section_begin_index. cbn [option_map]. f_equal. lia.
  - change endTfDocs with (60%N :: tl endTfDocs) at 2.
    rewrite (@indexOf_after_plain head _ _ Hh).
    change (60%N :: tl endTfDocs) with endTfDocs.
    replace (beginTfDocs ++ mid ++ endTfDocs ++ [c_newline])
      with ((beginTfDocs ++ mid ++ endTfDocs) ++ [c_newline])
      by (now rewrite <- !app_assoc).
    rewrite (@indexOf_app_tail _ [c_newline] _ _ He). cbn [option_map]. f_equal. lia.
Qed.

End PlainFacts.

Module ReadmeRoundTrip.
Import FieldParser Classifier Synthesizer SynthFacts StringOps StringFacts.
Import FileUtils FileUtilsFacts Outputs Readme ReadmeFacts Plain PlainFacts.

(** X5.  Regenerating keeps the terraform-docs section.  When the texts
    that [generateReadme] takes from its arguments hold no less-than sign,
    and the existing document, if it has both markers, has its first begin
    marker before its first end marker, then the section that
    [generateReadme] would extract from the document it has just written
    is the section it wrote, and generating again from that document gives
    the same document. *)
Theorem generateReadme_keeps_tfDocs :
  forall (localeCompare : jsstring -> jsstring -> comparison)
         (existing : option jsstring) (dir : jsstring) (parsed : Parsed)
         (ctx : ReadmeContext),
    plainInputs dir parsed ctx = true ->
    markersInOrder existing = true ->
    let readme := generateReadme localeCompare existing dir parsed ctx in
    tfDocsSection (Some readme) = tfDocsSection existing
    /\ generateReadme localeCompare (Some readme) dir parsed ctx = readme.
Proof.
  intros cmp existing dir parsed ctx Hplain Horder readme.
  assert (Hsec : tfDocsSection (Some readme) = tfDocsSection existing).
  { subst readme. unfold generateReadme.
    destruct (@tfDocsSection_shape existing Horder) as (mid & Hshape & He).
    rewrite Hshape. cbn [tfDocsSection].
    apply extract_after_plain; [|exact He].
    now apply noLt_readmeHead. }
  split; [exact Hsec|].
  unfold generateReadme at 1. rewrite Hsec. reflexivity.
Qed.

Lemma generateReadme_keeps_tfDocs_witness :
  let existing :=
    Some (js "# Old <!-- BEGIN_TF_DOCS -->| inputs |<!-- END_TF_DOCS --> end") in
  let dir := js "./infrastructure/aws/s3" in
  let parsed :=
    mkParsed (js "Creates a bucket") [js "Creates a bucket"]
      (Some [mkUsage (js "S3") (js "provider") (js "s3") [js "s3_bucket"]]) in
  let ctx :=
    mkReadmeContext (js "s3")
      [mkVariable (js "bucket_name") false None []]
      [mkVariable (js "provider") false
         (Some (mkValidation (js "true") [])) []]
      [js "arn"] (js "v1.0.0") (js "org/repo") in
  let readme := generateReadme codeUnitCompare existing dir parsed ctx in
  plainInputs dir parsed ctx = true
  /\ markersInOrder existing = true
  /\ tfDocsSection (Some readme)
     = js "<!-- BEGIN_TF_DOCS -->| inputs |<!-- END_TF_DOCS -->"
  /\ generateReadme codeUnitCompare (Some readme) dir parsed ctx = readme.
Proof.
  intros existing dir parsed ctx readme.
  split; [reflexivity|]. split; [reflexivity|].
  destruct (@generateReadme_keeps_tfDocs codeUnitCompare existing dir parsed
              ctx eq_refl eq_refl) as [H1 H2].
  split; [|exact H2].
  etransitivity; [exact H1|reflexivity].
Defined.

End ReadmeRoundTrip.

Module DescriptionProps.
Import Regex FieldParser Shapes RegexFacts FieldFacts.

(** X6.  The description of a variable is the text between the double
    quotes of the leftmost description attribute of its block: the word
    [description], the equals sign and a non-empty text without double
    quote between double quotes, with optional whitespace around the
    equals sign.  It is the empty text exactly when the block has no
    such attribute. *)
Theorem parseDescription_spec :
  forall block : jsstring,
    (parseDescription block = []
     /\ forall pre ws1 ws2 text post,
          spaces ws1 -> spaces ws2 ->
          text <> [] -> forallb notQuote text = true ->
          block <> pre ++ descriptionText ws1 ws2 text ++ post)
    \/ (exists pre ws1 ws2 text post,
          block = pre ++ descriptionText ws1 ws2 text ++ post
          /\ spaces ws1 /\ spaces ws2
          /\ text <> [] /\ forallb notQuote text = true
          /\ parseDescription block = text
          /\ forall pre' ws1' ws2' text' post',
               spaces ws1' -> spaces ws2' ->
               text' <> [] -> forallb notQuote text' = true ->
               block = pre' ++ descriptionText ws1' ws2' text' ++ post' ->
               List.length pre <= List.length pre').
Proof.
  intros block. unfold parseDescription.
  destruct (match_ descriptionRegex block) as [m|] eqn:E.
  - right. apply match_some in E as (f & Hf & Hm & Hmin).
    unfold matchHere in Hf.
    apply (@descriptionRegex_inv _ _ _ (index m)) in Hf
      as (ws1 & ws2 & text & rest & Hs & H1 & H2 & Hne & Ht & Hat).
    exists (firstn (index m) block), ws1, ws2, text, rest.
    assert (Hlen : index m <= List.length block).
    { destruct (Nat.le_gt_cases (index m) (List.length block)) as [H|H];
        [exact H|].
      rewrite skipn_all2 in Hs by lia.
      destruct ws1; discriminate. }
    split; [rewrite <- Hs; symmetry; apply firstn_skipn|].
    repeat (split; [assumption|]).
    split; [rewrite Hm, Hat; reflexivity|].
    intros pre' ws1' ws2' text' post' H1' H2' Hne' Ht' Hb.
    rewrite length_firstn, Nat.min_l by exact Hlen.
    destruct (Nat.le_gt_cases (index m) (List.length pre')) as [H|H];
      [exact H|exfalso].
    specialize (Hmin _ H). rewrite Hb, matchHere_app in Hmin.
    revert Hmin. now apply descriptionRegex_complete.
  - left. split; [reflexivity|].
    intros pre ws1 ws2 text post H1 H2 Hne Ht Hb.
    assert (Hc : match_ descriptionRegex block <> None).
    { rewrite Hb. apply match_complete.
      now apply descriptionRegex_complete. }
    now apply Hc.
Qed.

End DescriptionProps.

Module OrderFacts.
Import FieldParser Classifier Synthesizer SynthFacts Readme.

Section Order.
Variable cmp : jsstring -> jsstring -> comparison.

Lemma insertBy_map (A : Type) (key : A -> jsstring) x l :
  List.map key (insertBy cmp key x l)
  = insertBy cmp (fun n => n) (key x) (List.map key l).
Proof.
  induction l as [|y l IH]; [reflexivity|]. simpl.
  destruct (cmp (key x) (key y)); simpl; try reflexivity.
  now rewrite IH.
Qed.

(** Sorting values by their names and sorting the names give the same
    names. *)
Lemma sortBy_map (A : Type) (key : A -> jsstring) l :
  List.map key (sortBy cmp key l) = sortBy cmp (fun n => n) (List.map key l).
Proof.
  induction l as [|x l IH]; [reflexivity|]. simpl.
  now rewrite insertBy_map, IH.
Qed.

Lemma includes_perm l l' x :
  Permutation l l' -> includes l x = includes l' x.
Proof.
  intros H. destruct (includes l x) eqn:E; symmetry.
  - apply includes_In. apply includes_In in E.
    now apply (Permutation_in x H).
  - destruct (includes l' x) eqn:E'; [|reflexivity].
    apply includes_In in E'. apply (Permutation_in x (Permutation_sym H)) in E'.
    apply includes_In in E'. congruence.
Qed.

Lemma maxLength_perm l l' : Permutation l l' -> maxLength l = maxLength l'.
Proof.
  unfold maxLength.
  induction 1 as [|x l l' _ IH|x y l|l l' l'' _ IH1 _ IH2]; simpl.
  - reflexivity.
  - now rewrite IH.
  - lia.
  - now rewrite IH1.
Qed.

(** The names of a usage block, whatever the order they come in. *)
Lemma allVars_perm req trig req' trig' usage usage' :
  Permutation (List.map name (req ++ trig)) (List.map name (req' ++ trig')) ->
  Permutation (usageVariables usage) (usageVariables usage') ->
  Permutation (allVars cmp req trig usage) (allVars cmp req' trig' usage').
Proof.
  intros Hp Hu. unfold allVars.
  rewrite !(sortBy_perm cmp (fun n => n)).
  rewrite !app_assoc, <- !map_app. now apply Permutation_app.
Qed.

(** A line depends on the group through its trigger and the elements of
    its list. *)
Lemma usageLine_ext usage usage' width n :
  triggerVar usage = triggerVar usage' ->
  triggerValue usage = triggerValue usage' ->
  Permutation (usageVariables usage) (usageVariables usage') ->
  usageLine usage width n = usageLine usage' width n.
Proof.
  intros Hvar Hval Hu.
  unfold usageLine, usageValue, usageComment, annotation.
  now rewrite Hvar, Hval, (includes_perm n Hu).
Qed.

Lemma usageLines_perm req trig req' trig' usage usage' :
  Permutation (List.map name (req ++ trig)) (List.map name (req' ++ trig')) ->
  triggerVar usage = triggerVar usage' ->
  triggerValue usage = triggerValue usage' ->
  Permutation (usageVariables usage) (usageVariables usage') ->
  Permutation (usageLines cmp req trig usage)
              (usageLines cmp req' trig' usage').
Proof.
  intros Hp Hvar Hval Hu.
  pose proof (allVars_perm _ _ _ _ _ _ Hp Hu) as Hall.
  unfold usageLines. cbv zeta. rewrite <- (maxLength_perm Hall).
  set (width := maxLength (allVars cmp req trig usage)).
  replace (List.map (usageLine usage' width)
             (allVars cmp req' trig' usage'))
    with (List.map (usageLine usage width) (allVars cmp req' trig' usage'))
    by (apply map_ext; intros n; now apply usageLine_ext).
  now apply Permutation_map.
Qed.

Lemma Distinguishes_incl names names' :
  incl names' names -> Distinguishes cmp names -> Distinguishes cmp names'.
Proof. intros Hi Hd a b Ha Hb. apply Hd; now apply Hi. Qed.

Hypothesis Hcmp : ConsistentComparator cmp.

Lemma sortBy_names l l' :
  Distinguishes cmp l -> Permutation l l' ->
  sortBy cmp (fun n => n) l = sortBy cmp (fun n => n) l'.
Proof.
  intros Hd H. rewrite <- (map_id (sortBy cmp (fun n => n) l)).
  rewrite <- (map_id (sortBy cmp (fun n => n) l')).
  apply (@sortBy_names_perm cmp Hcmp jsstring (fun n => n));
    now rewrite !map_id.
Qed.

Lemma basicUsageBlock_perm req trig req' trig' :
  Distinguishes cmp (List.map name (req ++ trig)) ->
  Permutation (List.map name (req ++ trig)) (List.map name (req' ++ trig')) ->
  basicUsageBlock cmp req trig = basicUsageBlock cmp req' trig'.
Proof.
  intros Hd H. rewrite !basicUsageBlock_names. unfold basicUsageVars.
  rewrite !sortBy_map. now rewrite (sortBy_names Hd H).
Qed.

Lemma varsBlock_perm req trig req' trig' usage usage' :
  Distinguishes cmp (List.map name (req ++ trig) ++ usageVariables usage) ->
  Permutation (List.map name (req ++ trig)) (List.map name (req' ++ trig')) ->
  triggerVar usage = triggerVar usage' ->
  triggerValue usage = triggerValue usage' ->
  Permutation (usageVariables usage) (usageVariables usage') ->
  varsBlock cmp req trig usage = varsBlock cmp req' trig' usage'.
Proof.
  intros Hd Hp Hvar Hval Hu.
  assert (Hall : allVars cmp req trig usage = allVars cmp req' trig' usage').
  { unfold allVars. apply sortBy_names.
    - rewrite app_assoc, <- map_app. exact Hd.
    - rewrite !app_assoc, <- !map_app. now apply Permutation_app. }
  unfold varsBlock, usageLines. cbv zeta. rewrite Hall. f_equal.
  apply map_ext. intros n. now apply usageLine_ext.
Qed.

End Order.
End OrderFacts.

Module OrderProps.
Import FieldParser Classifier Synthesizer SynthFacts Readme OrderFacts.

(** X7.  The block of a usage section depends on the Required and Trigger
    lists only through the names they hold, and on the list of the group
    only through its elements.  Whatever the comparator, another order of
    discovery or another order of the list of the group gives the same
    lines, in some order.  When the comparator is a consistent comparator
    that tells the names of the block apart, it gives the same block. *)
Theorem varsBlock_order_independent :
  forall (localeCompare : jsstring -> jsstring -> comparison)
         (requiredVars triggerVars requiredVars' triggerVars'
            : list TfVariable) (usage usage' : UsageGroup),
    Permutation (List.map name (requiredVars ++ triggerVars))
                (List.map name (requiredVars' ++ triggerVars')) ->
    triggerVar usage = triggerVar usage' ->
    triggerValue usage = triggerValue usage' ->
    Permutation (usageVariables usage) (usageVariables usage') ->
    Permutation (usageLines localeCompare requiredVars triggerVars usage)
                (usageLines localeCompare requiredVars' triggerVars' usage')
    /\ (ConsistentComparator localeCompare ->
        Distinguishes localeCompare
          (List.map name (requiredVars ++ triggerVars)
           ++ usageVariables usage) ->
        varsBlock localeCompare requiredVars triggerVars usage
        = varsBlock localeCompare requiredVars' triggerVars' usage').
Proof.
  intros cmp req trig req' trig' usage usage' Hp Hvar Hval Hu. split.
  - now apply usageLines_perm.
  - intros Hcmp Hd. now apply varsBlock_perm.
Qed.

Lemma varsBlock_order_independent_witness :
  let a := mkVariable (js "region") false None [] in
  let b := mkVariable (js "backup_provider") false
             (Some (mkValidation (js "true") [])) [] in
  let usage := mkUsage (js "S3") (js "backup_provider") (js "s3")
                 [js "backup_s3_bucket"; js "backup_s3_prefix"] in
  let usage' := mkUsage (js "S3 backup") (js "backup_provider") (js "s3")
                  [js "backup_s3_prefix"; js "backup_s3_bucket"] in
  Permutation (usageLines codeUnitCompare [a] [b] usage)
              (usageLines codeUnitCompare [b] [a] usage')
  /\ varsBlock codeUnitCompare [a] [b] usage
     = varsBlock codeUnitCompare [b] [a] usage'.
Proof.
  intros a b usage usage'.
  destruct (@varsBlock_order_independent codeUnitCompare
              [a] [b] [b] [a] usage usage')
    as [Hlines Hblock].
  - apply perm_swap.
  - reflexivity.
  - reflexivity.
  - apply perm_swap.
  - split; [exact Hlines|].
    apply Hblock;
      [apply codeUnitCompare_consistent|apply codeUnitCompare_distinguishes].
Defined.

(** X8.  For a consistent comparator that tells apart the names of the
    Required and Trigger lists and of the usage groups, the document
    depends on the Required and Trigger lists of the context only through
    the names they hold: two contexts with the same names, whatever their
    order and whichever of the two lists holds them, give the same
    document. *)
Theorem generateReadme_order_independent :
  forall (localeCompare : jsstring -> jsstring -> comparison),
    ConsistentComparator localeCompare ->
    forall (existing : option jsstring) (dir : jsstring) (parsed : Parsed)
           (ctx ctx' : ReadmeContext),
      moduleName ctx = moduleName ctx' ->
      ctxOutputs ctx = ctxOutputs ctx' ->
      tag ctx = tag ctx' ->
      repository ctx = repository ctx' ->
      Permutation
        (List.map name (ctxRequiredVars ctx ++ ctxTriggerVars ctx))
        (List.map name (ctxRequiredVars ctx' ++ ctxTriggerVars ctx')) ->
      Distinguishes localeCompare
        (List.map name (ctxRequiredVars ctx ++ ctxTriggerVars ctx)
         ++ groupNames parsed) ->
      generateReadme localeCompare existing dir parsed ctx
      = generateReadme localeCompare existing dir parsed ctx'.
Proof.
  intros cmp Hcmp existing dir parsed ctx ctx' Hn Ho Ht Hr Hp Hd.
  unfold generateReadme. f_equal.
  unfold readmeHead. cbv zeta.
  assert (Hs : forall src,
    conditionalUsageSections cmp ctx src parsed
    = conditionalUsageSections cmp ctx' src parsed).
  { intros src. unfold conditionalUsageSections.
    unfold groupNames in Hd.
    destruct (conditionalUsage parsed) as [[|u us]|]; try reflexivity.
    f_equal. apply map_ext_in. intros usage Hin. unfold usageSection.
    rewrite Hn.
    assert (Hd' : Distinguishes cmp
              (List.map name (ctxRequiredVars ctx ++ ctxTriggerVars ctx)
               ++ usageVariables usage)).
    { refine (Distinguishes_incl _ Hd).
      apply incl_app; [now apply incl_appl, incl_refl|].
      apply incl_appr. intros n Hn'. apply in_concat.
      exists (usageVariables usage). split; [now apply in_map|exact Hn']. }
    now rewrite (@varsBlock_perm cmp Hcmp (ctxRequiredVars ctx)
                   (ctxTriggerVars ctx) (ctxRequiredVars ctx')
                   (ctxTriggerVars ctx') usage usage Hd' Hp eq_refl eq_refl
                   (Permutation_refl _)). }
  assert (Hb : Distinguishes cmp
                 (List.map name (ctxRequiredVars ctx ++ ctxTriggerVars ctx))).
  { refine (Distinguishes_incl _ Hd). now apply incl_appl, incl_refl. }
  now rewrite Hs, Hn, Ho, Ht, Hr,
    (@basicUsageBlock_perm cmp Hcmp _ _ _ _ Hb Hp).
Qed.

Lemma generateReadme_order_independent_witness :
  let a := mkVariable (js "region") false None [] in
  let b := mkVariable (js "backup_provider") false
             (Some (mkValidation (js "true") [])) [] in
  let parsed :=
    mkParsed (js "Creates backups") [js "Creates backups"]
      (Some [mkUsage (js "S3") (js "backup_provider") (js "s3")
                     [js "backup_s3_bucket"]]) in
  let ctx := mkReadmeContext (js "backup") [a] [b] [js "arn"]
               (js "v1.2.0") (js "org/repo") in
  let ctx' := mkReadmeContext (js "backup") [b; a] [] [js "arn"]
                (js "v1.2.0") (js "org/repo") in
  ConsistentComparator codeUnitCompare
  /\ generateReadme codeUnitCompare None (js "infrastructure/backup")
       parsed ctx
     = generateReadme codeUnitCompare None (js "infrastructure/backup")
         parsed ctx'.
Proof.
  intros a b parsed ctx ctx'. split; [apply codeUnitCompare_consistent|].
  apply (@generateReadme_order_independent codeUnitCompare
           codeUnitCompare_consistent None (js "infrastructure/backup")
           parsed ctx ctx'); try reflexivity.
  - apply perm_swap.
  - apply codeUnitCompare_distinguishes.
Defined.

End OrderProps.

Module CliFacts.
Import Classifier Synthesizer SynthFacts StringOps Cli.

Lemma Subsequence_refl (A : Type) (l : list A) : Subsequence l l.
Proof. induction l; constructor; auto. Qed.

Lemma Subsequence_nil_l (A : Type) (l : list A) : Subsequence [] l.
Proof. induction l; constructor; auto. Qed.

Lemma Subsequence_app (A : Type) (a a' b b' : list A) :
  Subsequence a a' -> Subsequence b b' -> Subsequence (a ++ b) (a' ++ b').
Proof.
  induction 1; intros Hb; simpl; try constructor; auto.
Qed.

Lemma ValueOf_cons flag value x args :
  ValueOf flag value args -> ValueOf flag value (x :: args).
Proof. intros (pre & post & ->). now exists (x :: pre), post. Qed.

Lemma ValueOf_here flag value rest : ValueOf flag value (flag :: value :: rest).
Proof. now exists [], rest. Qed.

Lemma ValueOf_app_l flag value a b :
  ValueOf flag value a -> ValueOf flag value (a ++ b).
Proof.
  intros (pre & post & ->). exists pre, (post ++ b).
  now rewrite <- app_assoc.
Qed.

Lemma ValueOf_app_r flag value a b :
  ValueOf flag value b -> ValueOf flag value (a ++ b).
Proof.
  intros (pre & post & ->). exists (a ++ pre), post.
  now rewrite <- app_assoc.
Qed.

Lemma FromArgs_refl args options : FromArgs args options options.
Proof.
  unfold FromArgs. repeat split; auto.
  exists []. rewrite app_nil_r. split; [reflexivity|].
  split; [apply Subsequence_nil_l|constructor].
Qed.

(** The runs on two parts of the arguments compose. *)
Lemma FromArgs_app a1 a2 o0 o1 o2 :
  FromArgs a1 o0 o1 -> FromArgs a2 o1 o2 -> FromArgs (a1 ++ a2) o0 o2.
Proof.
  intros ((f1 & Hd1 & Hs1 & Hf1) & Ha1 & Hr1 & Hv1 & Hb1 & Ht1)
         ((f2 & Hd2 & Hs2 & Hf2) & Ha2 & Hr2 & Hv2 & Hb2 & Ht2).
  unfold FromArgs. split; [|split; [|split; [|split; [|split]]]].
  - exists (f1 ++ f2). rewrite Hd2, Hd1, app_assoc.
    split; [reflexivity|]. split; [now apply Subsequence_app|].
    apply Forall_app. now split.
  - intros E. rewrite in_app_iff.
    destruct (Ha2 E) as [E'|E']; [|tauto]. destruct (Ha1 E'); tauto.
  - intros E. rewrite in_app_iff.
    destruct (Hr2 E) as [E'|E']; [|tauto]. destruct (Hr1 E'); tauto.
  - intros E. rewrite in_app_iff.
    destruct (Hv2 E) as [E'|E']; [|tauto]. destruct (Hv1 E'); tauto.
  - destruct Hb2 as [E|[Hne E]].
    + rewrite E. destruct Hb1 as [E'|[Hne' E']]; [now left|right].
      split; [exact Hne'|now apply ValueOf_app_l].
    + right. split; [exact Hne|now apply ValueOf_app_r].
  - destruct Ht2 as [E|(value & E & Hne & Hval)].
    + rewrite E. destruct Ht1 as [E'|(value & E' & Hne' & Hval')];
        [now left|right].
      exists value. split; [exact E'|]. split; [exact Hne'|].
      now apply ValueOf_app_l.
    + right. exists value. split; [exact E|]. split; [exact Hne|].
      now apply ValueOf_app_r.
Qed.

(** What the loop keeps, for any options it starts from. *)
Lemma parseArgsFrom_spec n : forall args options,
  List.length args <= n ->
  match parseArgsFrom args options with
  | HelpExit => In (js "--help") args
  | Returned o => FromArgs args options o
  end.
Proof.
  assert (Hlift : forall pre rest options options',
    FromArgs pre options options' ->
    match parseArgsFrom rest options' with
    | HelpExit => In (js "--help") rest
    | Returned o => FromArgs rest options' o
    end ->
    match parseArgsFrom rest options' with
    | HelpExit => In (js "--help") (pre ++ rest)
    | Returned o => FromArgs (pre ++ rest) options o
    end).
  { intros pre rest options options' Hpre H.
    destruct (parseArgsFrom rest options') as [o|].
    - now apply (FromArgs_app Hpre).
    - apply in_app_iff. now right. }
  induction n as [|n IH]; intros args options Hlen.
  - destruct args; [|simpl in Hlen; lia]. apply FromArgs_refl.
  - destruct args as [|arg rest]; [apply FromArgs_refl|].
    cbn [List.length] in Hlen.
    assert (Hrest : forall options',
      match parseArgsFrom rest options' with
      | HelpExit => In (js "--help") rest
      | Returned o => FromArgs rest options' o
      end) by (intros; apply IH; lia).
    assert (Hskip : parseArgsFrom rest options = parseArgsFrom rest options ->
      match parseArgsFrom rest options with
      | HelpExit => In (js "--help") (arg :: rest)
      | Returned o => FromArgs (arg :: rest) options o
      end).
    { intros _. apply (Hlift [arg] rest options options);
        [apply FromArgs_refl|apply Hrest]. }
    cbn [parseArgsFrom].
    destruct (str_eqb arg (js "--all")) eqn:Eall.
    { apply str_eqb_eq in Eall. subst arg.
      apply (Hlift [js "--all"] rest); [|apply Hrest].
      unfold FromArgs. cbn.
      repeat split; auto.
      exists []. rewrite app_nil_r. split; [reflexivity|].
      split; [apply Subsequence_nil_l|constructor]. }
    assert (Hplain :
      match
        (if str_eqb arg (js "--dry-run") then
           parseArgsFrom rest
             (mkOptions (directories options) (all options)
                        (baseDir options) (type options) true
                        (verbose options))
         else if str_eqb arg (js "--verbose") then
           parseArgsFrom rest
             (mkOptions (directories options) (all options)
                        (baseDir options) (type options)
                        (dryRun options) true)
         else if str_eqb arg (js "--help") then HelpExit
         else if negb (isFlag arg) then
           parseArgsFrom rest
             (mkOptions (directories options ++ [arg]) (all options)
                        (baseDir options) (type options)
                        (dryRun options) (verbose options))
         else parseArgsFrom rest options)
      with
      | HelpExit => In (js "--help") (arg :: rest)
      | Returned o => FromArgs (arg :: rest) options o
      end).
    { destruct (str_eqb arg (js "--dry-run")) eqn:Edry.
      { apply str_eqb_eq in Edry. subst arg.
        apply (Hlift [js "--dry-run"] rest); [|apply Hrest].
        unfold FromArgs. cbn. repeat split; auto.
        exists []. rewrite app_nil_r. split; [reflexivity|].
        split; [apply Subsequence_nil_l|constructor]. }
      destruct (str_eqb arg (js "--verbose")) eqn:Everb.
      { apply str_eqb_eq in Everb. subst arg.
        apply (Hlift [js "--verbose"] rest); [|apply Hrest].
        unfold FromArgs. cbn. repeat split; auto.
        exists []. rewrite app_nil_r. split; [reflexivity|].
        split; [apply Subsequence_nil_l|constructor]. }
      destruct (str_eqb arg (js "--help")) eqn:Ehelp.
      { apply str_eqb_eq in Ehelp. now left. }
      destruct (isFlag arg) eqn:Eflag; cbn [negb].
      - now apply Hskip.
      - apply (Hlift [arg] rest); [|apply Hrest].
        unfold FromArgs. cbn. repeat split; auto.
        exists [arg]. split; [reflexivity|].
        split; [apply Subsequence_refl|]. now constructor. }
    assert (Hvalue : forall value rest' options',
      rest = value :: rest' ->
      FromArgs [arg; value] options options' ->
      match parseArgsFrom rest' options' with
      | HelpExit => In (js "--help") (arg :: rest)
      | Returned o => FromArgs (arg :: rest) options o
      end).
    { intros value rest' options' -> Hpre.
      apply (Hlift [arg; value] rest' options options' Hpre).
      apply IH. cbn [List.length] in Hlen. lia. }
    destruct (str_eqb arg (js "--base-dir")) eqn:Ebase.
    { apply str_eqb_eq in Ebase.
      destruct rest as [|[|c value] rest'].
      - destruct (str_eqb arg (js "--type")); exact Hplain.
      - destruct (str_eqb arg (js "--type")) eqn:Etype; [|exact Hplain].
        apply str_eqb_eq in Etype. rewrite Ebase in Etype. discriminate.
      - apply (Hvalue (c :: value) rest'); [reflexivity|].
        unfold FromArgs. cbn. repeat split; auto.
        + exists []. rewrite app_nil_r. split; [reflexivity|].
          split; [apply Subsequence_nil_l|constructor].
        + right. split; [discriminate|]. subst arg. apply ValueOf_here. }
    destruct (str_eqb arg (js "--type")) eqn:Etype; [|exact Hplain].
    apply str_eqb_eq in Etype.
    destruct rest as [|[|c value] rest']; try exact Hplain.
    apply (Hvalue (c :: value) rest'); [reflexivity|].
    unfold FromArgs. cbn. repeat split; auto.
    + exists []. rewrite app_nil_r. split; [reflexivity|].
      split; [apply Subsequence_nil_l|constructor].
    + right. exists (c :: value). split; [reflexivity|].
      split; [discriminate|]. subst arg. apply ValueOf_here.
Qed.

(** The loop on arguments without an option that takes a value and
    without the help option. *)
Lemma parseArgsFrom_switches args : forall options,
  includes args (js "--base-dir") = false ->
  includes args (js "--type") = false ->
  includes args (js "--help") = false ->
  parseArgsFrom args options
  = Returned
      (mkOptions (directories options
                  ++ filter (fun arg => negb (isFlag arg)) args)
                 (all options || includes args (js "--all"))
                 (baseDir options) (type options)
                 (dryRun options || includes args (js "--dry-run"))
                 (verbose options || includes args (js "--verbose"))).
Proof.
  assert (Hsym : forall a b, str_eqb a b = str_eqb b a).
  { intros a b. destruct (str_eqb a b) eqn:E; symmetry.
    - apply str_eqb_eq. apply str_eqb_eq in E. congruence.
    - destruct (str_eqb b a) eqn:E'; [|reflexivity].
      apply str_eqb_eq in E'. subst b.
      assert (str_eqb a a = true) by now apply str_eqb_eq. congruence. }
  induction args as [|arg rest IH]; intros options Hb Ht Hh.
  - cbn. rewrite app_nil_r, !orb_false_r. now destruct options.
  - unfold includes in Hb, Ht, Hh. cbn [existsb] in Hb, Ht, Hh.
    apply orb_false_elim in Hb as [Hb Hb'].
    apply orb_false_elim in Ht as [Ht Ht'].
    apply orb_false_elim in Hh as [Hh Hh'].
    rewrite Hsym in Hb, Ht, Hh.
    unfold includes. cbn [parseArgsFrom existsb filter].
    rewrite Hb, Ht, Hh.
    rewrite (Hsym (js "--all") arg), (Hsym (js "--dry-run") arg),
      (Hsym (js "--verbose") arg).
    assert (Hmatch : forall (X : Type) (x y : X),
      match rest with
      | [] => x
      | [] :: _ => x
      | (_ :: _) :: _ => x
      end = x) by (intros; destruct rest as [|[|? ?] ?]; reflexivity).
    destruct (str_eqb arg (js "--all")) eqn:Eall.
    { apply str_eqb_eq in Eall. subst arg.
      rewrite (IH _ Hb' Ht' Hh'). cbn. now rewrite !orb_true_r. }
    assert (Hgo :
      (if str_eqb arg (js "--dry-run") then
         parseArgsFrom rest
           (mkOptions (directories options) (all options)
                      (baseDir options) (type options) true
                      (verbose options))
       else if str_eqb arg (js "--verbose") then
         parseArgsFrom rest
           (mkOptions (directories options) (all options)
                      (baseDir options) (type options)
                      (dryRun options) true)
       else if false then HelpExit
       else if negb (isFlag arg) then
         parseArgsFrom rest
           (mkOptions (directories options ++ [arg]) (all options)
                      (baseDir options) (type options)
                      (dryRun options) (verbose options))
       else parseArgsFrom rest options)
      = Returned
          (mkOptions
             (directories options
              ++ (if negb (isFlag arg)
                  then arg :: filter (fun arg => negb (isFlag arg)) rest
                  else filter (fun arg => negb (isFlag arg)) rest))
             (all options || (false || existsb (str_eqb (js "--all")) rest))
             (baseDir options) (type options)
             (dryRun options
              || (str_eqb arg (js "--dry-run")
                  || existsb (str_eqb (js "--dry-run")) rest))
             (verbose options
              || (str_eqb arg (js "--verbose")
                  || existsb (str_eqb (js "--verbose")) rest)))).
    { destruct (str_eqb arg (js "--dry-run")) eqn:Edry.
      { apply str_eqb_eq in Edry. subst arg.
        rewrite (IH _ Hb' Ht' Hh'). cbn. now rewrite !orb_true_r. }
      destruct (str_eqb arg (js "--verbose")) eqn:Everb.
      { apply str_eqb_eq in Everb. subst arg.
        rewrite (IH _ Hb' Ht' Hh'). cbn. now rewrite !orb_true_r. }
      destruct (isFlag arg) eqn:Eflag; cbn [negb];
        rewrite (IH _ Hb' Ht' Hh'); cbn; unfold includes;
        [reflexivity|].
      now rewrite <- app_assoc. }
    destruct rest as [|[|c v] rest']; exact Hgo.
Qed.

End CliFacts.

Module CliProps.
Import Classifier Synthesizer SynthFacts StringOps Cli CliFacts.

(** X9.  [parseArgs] invents nothing.  When it leaves for the help, the
    help option is among the arguments.  When it returns, the directories
    are arguments, in the order of the command line, and none of them
    begins with two hyphens; a switch is set only if its option is among
    the arguments; the base directory is the default [.] or a non-empty
    argument that follows [--base-dir]; the type is [null] or a non-empty
    argument that follows [--type]. *)
Theorem parseArgs_spec :
  forall args : list jsstring,
    match parseArgs args with
    | HelpExit => In (js "--help") args
    | Returned o =>
        Subsequence (directories o) args
        /\ Forall (fun d => isFlag d = false) (directories o)
        /\ (all o = true -> In (js "--all") args)
        /\ (dryRun o = true -> In (js "--dry-run") args)
        /\ (verbose o = true -> In (js "--verbose") args)
        /\ (baseDir o = js "."
            \/ (baseDir o <> []
                /\ ValueOf (js "--base-dir") (baseDir o) args))
        /\ (type o = None
            \/ exists value,
                 type o = Some value /\ value <> []
                 /\ ValueOf (js "--type") value args)
    end.
Proof.
  intros args. unfold parseArgs.
  pose proof (@parseArgsFrom_spec (List.length args) args defaults
                (Nat.le_refl _)) as H.
  destruct (parseArgsFrom args defaults) as [o|]; [|exact H].
  destruct H as ((found & Hf & Hsub & Hall) & Ha & Hr & Hv & Hb & Ht).
  cbn in Hf. subst found.
  split; [exact Hsub|]. split; [exact Hall|].
  split; [intros E; destruct (Ha E) as [F|F]; [discriminate F|exact F]|].
  split; [intros E; destruct (Hr E) as [F|F]; [discriminate F|exact F]|].
  split; [intros E; destruct (Hv E) as [F|F]; [discriminate F|exact F]|].
  split; [exact Hb|exact Ht].
Qed.

(** X10.  On a command line without [--base-dir], [--type] and [--help],
    [parseArgs] returns; the directories are exactly the arguments that
    do not begin with two hyphens, in their order; each switch is set
    exactly when its option is among the arguments; the base directory
    and the type keep their defaults.  An argument that begins with two
    hyphens and is no known option is passed over. *)
Theorem parseArgs_switches :
  forall args : list jsstring,
    includes args (js "--base-dir") = false ->
    includes args (js "--type") = false ->
    includes args (js "--help") = false ->
    parseArgs args
    = Returned
        (mkOptions (filter (fun arg => negb (isFlag arg)) args)
                   (includes args (js "--all")) (js ".") None
                   (includes args (js "--dry-run"))
                   (includes args (js "--verbose"))).
Proof.
  intros args Hb Ht Hh. unfold parseArgs.
  now rewrite (@parseArgsFrom_switches args defaults Hb Ht Hh).
Qed.

Lemma parseArgs_switches_witness :
  parseArgs [js "infrastructure/aws/s3"; js "--dry-run"; js "--color";
             js "infrastructure/aws/rds"]
  = Returned
      (mkOptions [js "infrastructure/aws/s3"; js "infrastructure/aws/rds"]
                 false (js ".") None true false).
Proof.
  apply (@parseArgs_switches
           [js "infrastructure/aws/s3"; js "--dry-run"; js "--color";
            js "infrastructure/aws/rds"]); reflexivity.
Defined.

End CliProps.

Module AiResponseFacts.
Import Regex Shapes StringOps StringFacts FieldFacts AiResponse.

Lemma startsWith_nil s : startsWith s [] = true.
Proof. now destruct s. Qed.

(** Passing [skip] code units is dropping them. *)
Lemma removeAll_skip w s : forall skip,
  removeAll w skip s = removeAll w 0 (skipn skip s).
Proof.
  induction s as [|c s IH]; intros [|k]; try reflexivity.
  cbn [removeAll skipn]. apply IH.
Qed.

(** A step of the search where the word is. *)
Lemma removeAll_match w t :
  w <> [] -> removeAll w 0 (w ++ t) = removeAll w 0 (dropNewline t).
Proof.
  intros Hw. destruct w as [|a w]; [congruence|].
  cbn [app removeAll].
  change (a :: w ++ t) with ((a :: w) ++ t).
  rewrite startsWith_app, removeAll_skip.
  unfold matchLength. rewrite nth_error_app2, Nat.sub_diag by lia.
  f_equal. cbn [List.length].
  destruct t as [|c t]; cbn [nth_error dropNewline].
  - replace (S (List.length w) + 0 - 1) with (List.length w) by lia.
    apply skipn_app_exact.
  - destruct (N.eqb c c_newline).
    + replace (S (List.length w) + 1 - 1) with (List.length (w ++ [c]))
        by (rewrite length_app; simpl; lia).
      replace (w ++ c :: t) with ((w ++ [c]) ++ t)
        by (now rewrite <- app_assoc).
      apply skipn_app_exact.
    + replace (S (List.length w) + 0 - 1) with (List.length w) by lia.
      apply skipn_app_exact.
Qed.

(** A step of the search where the word is not. *)
Lemma removeAll_keep_one w c s :
  startsWith (c :: s) w = false ->
  removeAll w 0 (c :: s) = c :: removeAll w 0 s.
Proof. intros H. cbn [removeAll]. now rewrite H. Qed.

(** The search passes a text without the first code unit of the word. *)
Lemma removeAll_keep a w x y :
  forallb (fun c => negb (N.eqb c a)) x = true ->
  removeAll (a :: w) 0 (x ++ y) = x ++ removeAll (a :: w) 0 y.
Proof.
  induction x as [|c x IH]; [reflexivity|].
  cbn [forallb]. intros H. apply andb_prop in H as [Hc Hx].
  cbn [app]. rewrite removeAll_keep_one.
  - now rewrite (IH Hx).
  - cbn [startsWith]. apply negb_true_iff in Hc. now rewrite Hc.
Qed.

Lemma removeAll_absent a w x :
  forallb (fun c => negb (N.eqb c a)) x = true ->
  removeAll (a :: w) 0 x = x.
Proof.
  intros H. rewrite <- (app_nil_r x) at 1.
  rewrite (@removeAll_keep a w x [] H). apply app_nil_r.
Qed.

Lemma spaces_noBacktick ws : spaces ws -> noBacktick ws = true.
Proof.
  unfold spaces, noBacktick. rewrite !forallb_forall. intros H c Hc.
  specialize (H c Hc). apply negb_true_iff.
  destruct (N.eqb_spec c c_backtick) as [->|]; [discriminate H|reflexivity].
Qed.

(** The search for the fence with [json] passes a fence that no [json]
    follows. *)
Lemma removeAll_fenceJson_fence rest :
  startsWith rest [c_backtick] = false ->
  startsWith rest (js "json") = false ->
  removeAll fenceJson 0 (fence ++ rest)
  = fence ++ removeAll fenceJson 0 rest.
Proof.
  intros Ht Hj.
  assert (Hc : forall w,
    startsWith rest (c_backtick :: w) = false).
  { intros w. destruct rest as [|c rest]; [reflexivity|].
    cbn [startsWith] in Ht |- *. rewrite startsWith_nil, andb_true_r in Ht.
    now rewrite Ht. }
  assert (H1 : startsWith (fence ++ rest) fenceJson = false).
  { unfold fenceJson, fence. cbn [app startsWith].
    rewrite !N.eqb_refl. cbn [andb]. exact Hj. }
  assert (H2 : startsWith ([c_backtick; c_backtick] ++ rest) fenceJson
               = false).
  { unfold fenceJson, fence. cbn [app startsWith].
    rewrite !N.eqb_refl. cbn [andb]. apply Hc. }
  assert (H3 : startsWith ([c_backtick] ++ rest) fenceJson = false).
  { unfold fenceJson, fence. cbn [app startsWith].
    rewrite !N.eqb_refl. cbn [andb]. apply Hc. }
  unfold fence in *. cbn [app] in *.
  rewrite (@removeAll_keep_one _ _ _ H1), (@removeAll_keep_one _ _ _ H2),
    (@removeAll_keep_one _ _ _ H3). reflexivity.
Qed.

Lemma spaces_not_json ws :
  spaces ws ->
  startsWith ws [c_backtick] = false /\ startsWith ws (js "json") = false.
Proof.
  unfold spaces. destruct ws as [|c ws]; [split; reflexivity|].
  cbn [forallb]. intros H. apply andb_prop in H as [Hc _].
  split.
  - cbn [startsWith].
    destruct (N.eqb_spec c c_backtick) as [->|]; [discriminate Hc|].
    reflexivity.
  - change (js "json") with (106%N :: js "son"). cbn [startsWith].
    destruct (N.eqb_spec c 106) as [->|]; [discriminate Hc|].
    reflexivity.
Qed.

Lemma fence_keep x y :
  noBacktick x = true ->
  removeAll fence 0 (x ++ y) = x ++ removeAll fence 0 y.
Proof. intros H. exact (@removeAll_keep c_backtick _ x y H). Qed.

Lemma fenceJson_keep x y :
  noBacktick x = true ->
  removeAll fenceJson 0 (x ++ y) = x ++ removeAll fenceJson 0 y.
Proof. intros H. exact (@removeAll_keep c_backtick _ x y H). Qed.

Lemma fence_absent x : noBacktick x = true -> removeAll fence 0 x = x.
Proof. intros H. exact (@removeAll_absent c_backtick _ x H). Qed.

Lemma fenceJson_absent x :
  noBacktick x = true -> removeAll fenceJson 0 x = x.
Proof. intros H. exact (@removeAll_absent c_backtick _ x H). Qed.

Lemma spaces_dropNewline ws : spaces ws -> spaces (dropNewline ws).
Proof.
  unfold spaces. destruct ws as [|c ws]; [reflexivity|].
  cbn [dropNewline forallb]. intros H.
  destruct (N.eqb c c_newline); [|exact H].
  now apply andb_prop in H as [_ H].
Qed.

Lemma startsWith_cons c s a w :
  startsWith (c :: s) (a :: w) = N.eqb c a && startsWith s w.
Proof. reflexivity. Qed.

Lemma dropNewline_length t : List.length (dropNewline t) <= List.length t.
Proof.
  destruct t as [|c t]; [reflexivity|]. cbn [dropNewline].
  destruct (N.eqb c c_newline); simpl; lia.
Qed.

(** After the search for the fence no fence is left; the backticks that
    the result begins with are backticks that the text begins with. *)
Lemma removeAll_fence_spec n : forall s,
  List.length s <= n ->
  (forall pre post, removeAll fence 0 s <> pre ++ fence ++ post)
  /\ (startsWith (removeAll fence 0 s) [c_backtick] = true ->
      startsWith s [c_backtick] = true)
  /\ (startsWith (removeAll fence 0 s) [c_backtick; c_backtick] = true ->
      startsWith s [c_backtick; c_backtick] = true).
Proof.
  induction n as [|n IH]; intros s Hlen.
  - destruct s; [|simpl in Hlen; lia].
    split; [|split; auto]. intros [|? ?] post; discriminate.
  - destruct s as [|c s]; [split; [|split; auto];
                           intros [|? ?] post; discriminate|].
    cbn [List.length] in Hlen.
    destruct (startsWith (c :: s) fence) eqn:E.
    + apply startsWith_iff in E as [t Ht]. rewrite Ht.
      rewrite removeAll_match by discriminate.
      assert (Hlt : List.length (dropNewline t) <= n).
      { pose proof (dropNewline_length t) as Hd.
        apply (f_equal (@List.length char)) in Ht.
        rewrite length_app in Ht. simpl in Ht. lia. }
      destruct (IH _ Hlt) as (H1 & _ & _).
      split; [exact H1|].
      unfold fence. cbn [app]. rewrite !startsWith_cons, !N.eqb_refl.
      rewrite startsWith_nil. cbn [andb]. split; reflexivity.
    + rewrite (@removeAll_keep_one _ _ _ E).
      assert (Hlt : List.length s <= n) by lia.
      destruct (IH _ Hlt) as (H1 & H2 & H3).
      split; [|split].
      * intros [|p pre] post Hr.
        -- change ([] ++ fence ++ post)
             with (c_backtick :: c_backtick :: c_backtick :: post) in Hr.
           injection Hr as Hc Hr.
           assert (Hs : startsWith s [c_backtick; c_backtick] = true).
           { apply H3. rewrite Hr. rewrite !startsWith_cons, !N.eqb_refl.
             now rewrite startsWith_nil. }
           unfold fence in E. rewrite startsWith_cons, Hc, N.eqb_refl, Hs in E.
           discriminate.
        -- cbn [app] in Hr. injection Hr as _ Hr. now apply (H1 pre post).
      * rewrite !startsWith_cons, !startsWith_nil. auto.
      * rewrite !startsWith_cons. intros H.
        apply andb_prop in H as [Hc H]. rewrite Hc. now rewrite (H2 H).
Qed.

Lemma trimStart_suffix s : exists a, s = a ++ trimStart s.
Proof.
  induction s as [|c s [a IH]]; [now exists []|]. cbn [trimStart].
  destruct (isSpace c); [|now exists []].
  exists (c :: a). cbn [app]. now rewrite <- IH.
Qed.

(** The trimmed text is a part of the text. *)
Lemma trim_segment s : exists a b, s = a ++ trim s ++ b.
Proof.
  destruct (trimStart_suffix s) as [a Ha].
  destruct (trimStart_suffix (rev (trimStart s))) as [b Hb].
  exists a, (rev b). unfold trim. rewrite <- rev_app_distr, <- Hb.
  now rewrite rev_involutive.
Qed.

End AiResponseFacts.

Module AiResponseProps.
Import Regex Shapes StringOps StringFacts FieldFacts AiResponse.
Import AiResponseFacts.

(** X11.  The text that [parseAIResponse] hands to [JSON.parse] holds no
    three backticks in a row, whatever the reply; a reply without
    backtick is handed over trimmed and otherwise unchanged. *)
Theorem cleanResponse_no_fence :
  forall response : jsstring,
    ~ Substring fence (cleanResponse response)
    /\ (noBacktick response = true -> cleanResponse response = trim response).
Proof.
  intros response. split.
  - intros (pre & post & H). unfold cleanResponse in H.
    destruct (trim_segment
                (removeAll fence 0 (removeAll fenceJson 0 response)))
      as (a & b & Hseg).
    rewrite H in Hseg.
    destruct (@removeAll_fence_spec _ (removeAll fenceJson 0 response)
                (Nat.le_refl _)) as (Hno & _).
    apply (Hno (a ++ pre) (post ++ b)). rewrite Hseg.
    now rewrite <- !app_assoc.
  - intros H. unfold cleanResponse.
    now rewrite (@fenceJson_absent _ H), (@fence_absent _ H).
Qed.

(** X12.  A reply that is a fenced block is handed over as its trimmed
    body: for a body without backtick between an opening fence, with or
    without the word [json], that a line break follows, and a closing
    fence, with whitespace before and after the block,
    [cleanResponse] is the body trimmed. *)
Theorem cleanResponse_fenced :
  forall (opening ws1 body ws2 : jsstring),
    opening = fence \/ opening = fenceJson ->
    spaces ws1 -> spaces ws2 -> noBacktick body = true ->
    cleanResponse (ws1 ++ opening ++ c_newline :: body ++ fence ++ ws2)
    = trim body.
Proof.
  intros opening ws1 body ws2 Ho H1 H2 Hb.
  pose proof (spaces_noBacktick H1) as Hn1.
  pose proof (spaces_noBacktick H2) as Hn2.
  destruct (spaces_not_json H2) as [Ht2 Hj2].
  assert (Htail : removeAll fenceJson 0 (body ++ fence ++ ws2)
                  = body ++ fence ++ ws2).
  { rewrite (@fenceJson_keep _ _ Hb), (@removeAll_fenceJson_fence _ Ht2 Hj2).
    now rewrite (@fenceJson_absent _ Hn2). }
  assert (Hsecond : removeAll fence 0 (body ++ fence ++ ws2)
                    = body ++ dropNewline ws2).
  { rewrite (@fence_keep _ _ Hb), removeAll_match by discriminate.
    rewrite fence_absent; [reflexivity|].
    apply spaces_noBacktick. now apply spaces_dropNewline. }
  assert (Hclean :
    removeAll fence 0
      (removeAll fenceJson 0
         (ws1 ++ opening ++ c_newline :: body ++ fence ++ ws2))
    = ws1 ++ body ++ dropNewline ws2).
  { destruct Ho as [-> | ->].
    - rewrite (@fenceJson_keep _ _ Hn1).
      rewrite (@removeAll_fenceJson_fence
                 (c_newline :: body ++ fence ++ ws2) eq_refl eq_refl).
      rewrite (@removeAll_keep_one fenceJson c_newline _ eq_refl).
      rewrite Htail, (@fence_keep _ _ Hn1).
      rewrite removeAll_match by discriminate.
      cbn [dropNewline]. rewrite N.eqb_refl. now rewrite Hsecond.
    - rewrite (@fenceJson_keep _ _ Hn1).
      rewrite removeAll_match by discriminate.
      cbn [dropNewline]. rewrite N.eqb_refl.
      now rewrite Htail, (@fence_keep _ _ Hn1), Hsecond. }
  unfold cleanResponse. rewrite Hclean.
  apply trim_spaces_around; [exact H1|now apply spaces_dropNewline].
Qed.

Lemma cleanResponse_fenced_witness :
  cleanResponse
    (fenceJson ++ c_newline :: hcl "{'description': 'Creates a bucket'}
" ++ fence ++ [c_newline])
  = hcl "{'description': 'Creates a bucket'}".
Proof.
  apply (@cleanResponse_fenced fenceJson []
           (hcl "{'description': 'Creates a bucket'}
") [c_newline]); try reflexivity.
  now right.
Defined.

End AiResponseProps.

Module RootReadmeFacts.
Import Synthesizer StringOps StringFacts FileUtils FileUtilsFacts.
Import Plain PlainFacts RootReadme.

Lemma jsSubstring_prefix x y :
  jsSubstring (x ++ y) 0 (List.length x) = x.
Proof.
  pose proof (jsSubstring_middle [] x y) as H.
  cbn [app List.length Nat.add] in H. exact H.
Qed.

(** The first occurrence of a word does not depend on the text after
    it. *)
Lemma indexOf_same_prefix pre w x y :
  indexOf (pre ++ w ++ x) w = Some (List.length pre) ->
  indexOf (pre ++ w ++ y) w = Some (List.length pre).
Proof.
  intros H. apply indexOf_some in H as (_ & _ & _ & _ & Hmin).
  apply indexOf_first.
  - rewrite length_app. lia.
  - rewrite FieldFacts.skipn_app_exact. apply startsWith_app.
  - intros k Hk. rewrite <- (Hmin k Hk).
    rewrite !skipn_app.
    replace (k - List.length pre) with 0 by lia. cbn [skipn].
    rewrite !app_assoc.
    rewrite !(@startsWith_app_long (skipn k pre ++ w));
      [reflexivity|rewrite length_app; lia|rewrite length_app; lia].
Qed.

Lemma modules_markers_apart content b e :
  indexOf content beginModules = Some b ->
  indexOf content endModules = Some e ->
  b <= e -> b + List.length beginModules <= e.
Proof.
  apply markers_apart. intros k rest rest' Hk Hs.
  change (List.length beginModules) with 22 in Hk.
  do 22 (destruct k as [|k]; [discriminate Hs|]). lia.
Qed.

(** The splice on a document cut at its markers. *)
Lemma spliceTable_of_parts pre mid post table :
  indexOf (pre ++ beginModules ++ mid ++ endModules ++ post) beginModules
  = Some (List.length pre) ->
  indexOf (pre ++ beginModules ++ mid ++ endModules ++ post) endModules
  = Some (List.length pre + List.length beginModules + List.length mid) ->
  spliceTable (pre ++ beginModules ++ mid ++ endModules ++ post) table
  = Some (pre ++ beginModules ++ [c_newline] ++ table ++ [c_newline]
          ++ endModules ++ post).
Proof.
  intros Hb He. unfold spliceTable. rewrite Hb, He. f_equal.
  replace (pre ++ beginModules ++ mid ++ endModules ++ post)
    with ((pre ++ beginModules) ++ mid ++ endModules ++ post) at 1
    by (now rewrite <- app_assoc).
  replace (List.length pre + List.length beginModules)
    with (List.length (pre ++ beginModules))
    by (rewrite length_app; lia).
  rewrite jsSubstring_prefix. unfold jsSubstringFrom.
  replace (pre ++ beginModules ++ mid ++ endModules ++ post)
    with ((pre ++ beginModules ++ mid) ++ endModules ++ post)
    by (now rewrite <- !app_assoc).
  replace (List.length (pre ++ beginModules) + List.length mid)
    with (List.length (pre ++ beginModules ++ mid))
    by (rewrite !length_app; lia).
  rewrite FieldFacts.skipn_app_exact. now rewrite <- !app_assoc.
Qed.

(** The first end marker of a document whose text between the markers
    holds no less-than sign. *)
Lemma endModules_after_plain pre mid mid' post :
  indexOf (pre ++ beginModules ++ mid ++ endModules ++ post) endModules
  = Some (List.length pre + List.length beginModules + List.length mid) ->
  noLt mid' = true ->
  indexOf (pre ++ beginModules ++ mid' ++ endModules ++ post) endModules
  = Some (List.length pre + List.length beginModules + List.length mid').
Proof.
  intros He Hplain.
  apply indexOf_some in He as (_ & _ & _ & _ & Hmin).
  assert (Hin : indexOf ((tl beginModules ++ mid') ++ endModules ++ post)
                        endModules
                = Some (List.length (tl beginModules ++ mid'))).
  { change endModules with (60%N :: tl endModules) at 2.
    rewrite indexOf_after_plain
      by (rewrite noLt_app, Hplain; reflexivity).
    change (60%N :: tl endModules) with endModules.
    rewrite section_begin_index. cbn [option_map]. f_equal. lia. }
  apply indexOf_some in Hin as (_ & _ & _ & _ & Hmin').
  apply indexOf_first.
  - rewrite !length_app. lia.
  - replace (pre ++ beginModules ++ mid' ++ endModules ++ post)
      with ((pre ++ beginModules ++ mid') ++ endModules ++ post)
      by (now rewrite <- !app_assoc).
    replace (List.length pre + List.length beginModules + List.length mid')
      with (List.length (pre ++ beginModules ++ mid'))
      by (rewrite !length_app; lia).
    rewrite FieldFacts.skipn_app_exact. apply startsWith_app.
  - intros k Hk.
    destruct (Nat.lt_ge_cases k (List.length pre)) as [Hlt|Hge].
    + rewrite <- (Hmin k) by lia.
      rewrite !skipn_app.
      replace (k - List.length pre) with 0 by lia. cbn [skipn].
      rewrite !app_assoc.
      rewrite <- !(app_assoc (skipn k pre ++ beginModules)).
      rewrite !(@startsWith_app_long (skipn k pre ++ beginModules));
        [reflexivity| |]; rewrite length_app; simpl; lia.
    + replace k with (List.length pre + (k - List.length pre)) by lia.
      rewrite skipn_add_app.
      destruct (k - List.length pre) as [|j] eqn:Ej; [reflexivity|].
      change (beginModules ++ mid' ++ endModules ++ post)
        with (60%N :: (tl beginModules ++ mid') ++ endModules ++ post).
      cbn [skipn]. apply Hmin'.
      rewrite length_app. change (List.length beginModules) with 22 in Hk.
      change (List.length (tl beginModules)) with 21. lia.
Qed.

End RootReadmeFacts.

Module RootReadmeProps.
Import Synthesizer StringOps StringFacts FileUtils FileUtilsFacts.
Import Plain PlainFacts RootReadme RootReadmeFacts.

(** X13.  When the first begin marker of the root document is not after
    its first end marker, [updateRootReadme] keeps the text up to and
    including the begin marker and the text from the end marker on, and
    puts the table, between two line breaks, in the place of what stood
    between the markers.  When the table holds no less-than sign, a
    later update of the new document gives what the same update of the
    old document gives: only the last table stays. *)
Theorem updateRootReadme_splice :
  forall (rootReadme : jsstring) (entries : list ModuleEntry) (b e : nat),
    indexOf rootReadme beginModules = Some b ->
    indexOf rootReadme endModules = Some e ->
    b <= e ->
    exists pre mid post,
      rootReadme = pre ++ beginModules ++ mid ++ endModules ++ post
      /\ List.length pre = b
      /\ updateRootReadme (Some rootReadme) entries false
         = Some (pre ++ beginModules ++ [c_newline] ++ tableContent entries
                 ++ [c_newline] ++ endModules ++ post)
      /\ (noLt (tableContent entries) = true ->
          forall entries',
            updateRootReadme
              (updateRootReadme (Some rootReadme) entries false)
              entries' false
            = updateRootReadme (Some rootReadme) entries' false).
Proof.
  intros root entries b e Hb He Hle.
  pose proof (@modules_markers_apart root b e Hb He Hle) as Hapart.
  destruct (@two_markers root beginModules endModules b e Hb He Hapart)
    as (pre & mid & post & Hc & Hpre & Hj).
  exists pre, mid, post. split; [exact Hc|]. split; [exact Hpre|].
  subst root b e.
  assert (Hup : forall entries0,
    updateRootReadme
      (Some (pre ++ beginModules ++ mid ++ endModules ++ post))
      entries0 false
    = Some (pre ++ beginModules ++ [c_newline] ++ tableContent entries0
            ++ [c_newline] ++ endModules ++ post)).
  { intros entries0. unfold updateRootReadme.
    now rewrite (@spliceTable_of_parts pre mid post _ Hb He). }
  split; [apply Hup|].
  intros Hplain entries'. rewrite !Hup.
  unfold updateRootReadme.
  replace (pre ++ beginModules ++ [c_newline] ++ tableContent entries
           ++ [c_newline] ++ endModules ++ post)
    with (pre ++ beginModules
          ++ ([c_newline] ++ tableContent entries ++ [c_newline])
          ++ endModules ++ post)
    by (now rewrite <- !app_assoc).
  rewrite spliceTable_of_parts; [reflexivity| |].
  - exact (@indexOf_same_prefix pre beginModules _ _ Hb).
  - apply (@endModules_after_plain pre mid _ post He).
    rewrite !noLt_app, Hplain. reflexivity.
Qed.

Lemma updateRootReadme_splice_witness :
  let rootReadme := js "# Modules
<!-- BEGIN_MODULES -->
old table
<!-- END_MODULES -->
footer" in
  let entries :=
    [mkEntry (js "s3") (js "infrastructure/aws/s3")
             (js "Terraform/OpenTofu") (js "Creates a bucket")] in
  exists pre mid post,
    rootReadme = pre ++ beginModules ++ mid ++ endModules ++ post
    /\ List.length pre = 10
    /\ updateRootReadme (Some rootReadme) entries false
       = Some (pre ++ beginModules ++ [c_newline] ++ tableContent entries
               ++ [c_newline] ++ endModules ++ post)
    /\ (noLt (tableContent entries) = true ->
        forall entries',
          updateRootReadme
            (updateRootReadme (Some rootReadme) entries false)
            entries' false
          = updateRootReadme (Some rootReadme) entries' false).
Proof.
  intros rootReadme entries.
  apply (@updateRootReadme_splice rootReadme entries 10 43);
    [reflexivity|reflexivity|lia].
Defined.

(** X14.  When the first end marker of the root document ends at or
    before its first begin marker, [updateRootReadme] puts the table
    after the begin marker and then writes the document again from the
    end marker on: the text from the end marker through the begin marker
    is in the new document twice. *)
Theorem updateRootReadme_reversed :
  forall (rootReadme : jsstring) (entries : list ModuleEntry) (b e : nat),
    indexOf rootReadme beginModules = Some b ->
    indexOf rootReadme endModules = Some e ->
    e + List.length endModules <= b ->
    exists pre mid post,
      rootReadme = pre ++ endModules ++ mid ++ beginModules ++ post
      /\ List.length pre = e
      /\ updateRootReadme (Some rootReadme) entries false
         = Some (pre ++ (endModules ++ mid ++ beginModules)
                 ++ [c_newline] ++ tableContent entries ++ [c_newline]
                 ++ (endModules ++ mid ++ beginModules) ++ post).
Proof.
  intros root entries b e Hb He Hle.
  destruct (@two_markers root endModules beginModules e b He Hb Hle)
    as (pre & mid & post & Hc & Hpre & Hj).
  exists pre, mid, post. split; [exact Hc|]. split; [exact Hpre|].
  unfold updateRootReadme, spliceTable. rewrite Hb, He. f_equal.
  subst root b e.
  replace (pre ++ endModules ++ mid ++ beginModules ++ post)
    with ((pre ++ endModules ++ mid ++ beginModules) ++ post) at 1
    by (now rewrite <- !app_assoc).
  replace (List.length pre + List.length endModules + List.length mid
           + List.length beginModules)
    with (List.length (pre ++ endModules ++ mid ++ beginModules))
    by (rewrite !length_app; lia).
  rewrite jsSubstring_prefix. unfold jsSubstringFrom.
  rewrite FieldFacts.skipn_app_exact. now rewrite <- !app_assoc.
Qed.

Lemma updateRootReadme_reversed_witness :
  let rootReadme := js "<!-- END_MODULES -->
<!-- BEGIN_MODULES -->" in
  exists pre mid post,
    rootReadme = pre ++ endModules ++ mid ++ beginModules ++ post
    /\ List.length pre = 0
    /\ updateRootReadme (Some rootReadme) [] false
       = Some (pre ++ (endModules ++ mid ++ beginModules)
               ++ [c_newline] ++ tableContent [] ++ [c_newline]
               ++ (endModules ++ mid ++ beginModules) ++ post).
Proof.
  intros rootReadme.
  apply (@updateRootReadme_reversed rootReadme [] 21 0);
    [reflexivity|reflexivity|simpl; lia].
Defined.

End RootReadmeProps.
